(** * Elelabs EZSP firmware utility: framing engine and mode controller

    A shallow embedding of [Elelabs_EzspFwUtility.py] and the properties
    of its framing layers (ASH, EZSP, HDLC-Lite, Spinel) and of the
    probe / restart / flash controller.

    Conventions.  A Python [bytes] / [bytearray] value is a [list Z] whose
    elements lie in [0, 256) ([bytes_ok]); Python integers are [Z]; the
    bit operators [^ | & >> <<] are [Z.lxor Z.lor Z.land Z.shiftr
    Z.shiftl].  [logger.debug] output (the RAW / PACKET hex dumps) has no
    influence on control flow or on the wire and is left out;
    [logger.info] and [logger.critical] are kept as events. *)

From Stdlib Require Import ZArith List Bool String Ascii Lia.
From stdpp Require Import base list.
Import ListNotations.

Local Open Scope Z_scope.

(** ** Byte strings *)

Definition bytes := list Z.

Definition is_byte (b : Z) : bool := (0 <=? b) && (b <? 256).

Definition byte_ok (b : Z) : Prop := 0 <= b < 256.

Definition bytes_ok (l : bytes) : Prop := Forall byte_ok l.

(** [msg.replace(old, new)] for a one-byte [old]: every occurrence, left
    to right. *)
Fixpoint replace1 (old : Z) (new : bytes) (msg : bytes) : bytes :=
  match msg with
  | [] => []
  | a :: rest =>
      if a =? old then new ++ replace1 old new rest
      else a :: replace1 old new rest
  end.

(** [msg.replace(old, new)] for a two-byte [old = o1 o2]: occurrences are
    found left to right and do not overlap; the scan resumes after a
    replaced occurrence. *)
Fixpoint replace2 (o1 o2 : Z) (new : bytes) (msg : bytes) : bytes :=
  match msg with
  | [] => []
  | a :: tl =>
      match tl with
      | [] => [a]
      | b :: rest =>
          if (a =? o1) && (b =? o2) then new ++ replace2 o1 o2 new rest
          else a :: replace2 o1 o2 new tl
      end
  end.

(** [pat in msg] on byte strings. *)
Fixpoint starts_with (pat msg : bytes) : bool :=
  match pat, msg with
  | [], _ => true
  | _ :: _, [] => false
  | p :: pat', m :: msg' => (p =? m) && starts_with pat' msg'
  end.

Fixpoint bytes_in (pat msg : bytes) : bool :=
  starts_with pat msg ||
  match msg with
  | [] => false
  | _ :: msg' => bytes_in pat msg'
  end.

(** Python slices [msg[i:]], [msg[:-k]] and [msg[i:-k]]. *)
Definition slice_from (i : nat) (msg : bytes) : bytes := drop i msg.

Definition slice_to_neg (k : nat) (msg : bytes) : bytes :=
  take (length msg - k)%nat msg.

Definition slice_from_to_neg (i k : nat) (msg : bytes) : bytes :=
  drop i (take (length msg - k)%nat msg).

(** ** CRC-16/CCITT *)

(** Modelled from the spec: [binascii.crc_hqx] belongs to Python's
    standard library and is not part of the sources.  The spec names it
    CRC-16/CCITT with polynomial [0x1021] and a caller-supplied initial
    value: bytes are fed most significant bit first, with no reflection
    and no final XOR. *)
Definition crc_hqx_bit (crc : Z) : Z :=
  if Z.testbit crc 15
  then Z.land (Z.lxor (Z.shiftl crc 1) 0x1021) 0xFFFF
  else Z.land (Z.shiftl crc 1) 0xFFFF.

Definition crc_hqx_byte (crc : Z) (b : Z) : Z :=
  Nat.iter 8 crc_hqx_bit (Z.lxor crc (Z.shiftl b 8)).

Definition crc_hqx (data : bytes) (value : Z) : Z :=
  fold_left crc_hqx_byte data (Z.land value 0xFFFF).

(** ** The world: clock, serial port, device, log *)

Inductive exn :=
| PortError            (* Exception("PORT ERROR: ...") raised by [SerialInterface.open] *)
| PortNotOpen          (* pyserial: operation on a closed port *)
| StatusError (who : string) (status : Z)
                       (* Exception("... status error: %d") *)
| PropIdTooLarge       (* Exception("prop_id is more than 0xFFFF. Not sure what to do") *)
| IndexError
| ValueError
| TypeError
| UnboundLocalError
| FileError.           (* [open(filename, 'rb')] failed *)

Inductive result (A : Type) :=
| Ok (a : A)
| Exc (e : exn)
| Hang.                (* the call does not return *)
Arguments Ok {A} a.
Arguments Exc {A} e.
Arguments Hang {A}.

Inductive logarg :=
| ArgInt (n : Z)
| ArgText (s : bytes).  (* a decoded [str], as its character codes *)

Inductive level := INFO | CRITICAL.

(** One callback made by the XMODEM library during [send]. *)
Inductive xmodem_call :=
| Getc (size : nat)
| Putc (data : bytes).

(** [--baudrate] is declared [type=str] with the integer default 115200:
    the configuration holds an [int] when the flag is absent and a [str]
    when it is given. *)
Inductive baud :=
| BaudInt (n : Z)
| BaudStr (s : string).

Inductive event :=
| EvOpen (h : nat) (b : baud)
| EvOpenFailed (b : baud)
| EvClose (h : nat)
| EvFlushInput (h : nat)
| EvWrite (h : nat) (data : bytes)
| EvSleep (ms : Z)
| EvLog (l : level) (fmt : string) (args : list logarg)
| EvPrint (s : string)
| EvXmodemSend (filename : string).

(** The clock counts milliseconds.  [rx] is what the device will deliver:
    each byte with the time at which it reaches the host.  A serial
    session is a handle; [open_handles] are the sessions opened and not
    yet closed.  The last three fields script what lies outside the
    sources: whether the operating system lets the port be opened,
    whether the image file can be read, and what the XMODEM library does
    during [send] (its callbacks and its verdict). *)
Record world := {
  now : Z;
  rx : list (Z * Z);
  next_handle : nat;
  open_handles : list nat;
  trace : list event;
  port_present : bool;
  image_readable : bool;
  xmodem_script : list xmodem_call;
  xmodem_verdict : bool;
}.

Definition set_now (t : Z) (w : world) : world :=
  {| now := t; rx := rx w; next_handle := next_handle w;
     open_handles := open_handles w; trace := trace w;
     port_present := port_present w; image_readable := image_readable w;
     xmodem_script := xmodem_script w; xmodem_verdict := xmodem_verdict w |}.

Definition set_rx (r : list (Z * Z)) (w : world) : world :=
  {| now := now w; rx := r; next_handle := next_handle w;
     open_handles := open_handles w; trace := trace w;
     port_present := port_present w; image_readable := image_readable w;
     xmodem_script := xmodem_script w; xmodem_verdict := xmodem_verdict w |}.

Definition set_handles (n : nat) (hs : list nat) (w : world) : world :=
  {| now := now w; rx := rx w; next_handle := n;
     open_handles := hs; trace := trace w;
     port_present := port_present w; image_readable := image_readable w;
     xmodem_script := xmodem_script w; xmodem_verdict := xmodem_verdict w |}.

Definition emit (e : event) (w : world) : world :=
  {| now := now w; rx := rx w; next_handle := next_handle w;
     open_handles := open_handles w; trace := trace w ++ [e];
     port_present := port_present w; image_readable := image_readable w;
     xmodem_script := xmodem_script w; xmodem_verdict := xmodem_verdict w |}.

(** Everything written to the port, in order. *)
Fixpoint written (tr : list event) : list bytes :=
  match tr with
  | [] => []
  | EvWrite _ data :: tr => data :: written tr
  | _ :: tr => written tr
  end.

(** *** The monad of the program: state and exceptions *)

Definition M (A : Type) : Type := world -> result A * world.

Definition ret {A} (a : A) : M A := fun w => (Ok a, w).

Definition raise {A} (e : exn) : M A := fun w => (Exc e, w).

Definition hang {A} : M A := fun w => (Hang, w).

Definition bind {A B} (m : M A) (k : A -> M B) : M B :=
  fun w =>
    match m w with
    | (Ok a, w') => k a w'
    | (Exc e, w') => (Exc e, w')
    | (Hang, w') => (Hang, w')
    end.

Notation "'let*' x ':=' m 'in' k" := (bind m (fun x => k))
  (at level 10, x name, m at level 100, k at level 200).
Notation "'let*' ' pat ':=' m 'in' k" :=
  (bind m (fun x => match x with pat => k end))
  (at level 10, pat pattern, m at level 100, k at level 200).
Notation "m ;;; k" := (bind m (fun _ => k))
  (at level 100, right associativity).

Definition lift {A} (r : result A) : M A := fun w => (r, w).

Definition get_world : M world := fun w => (Ok w, w).

Definition do_event (e : event) : M unit := fun w => (Ok tt, emit e w).

Definition log_info (fmt : string) (args : list logarg) : M unit :=
  do_event (EvLog INFO fmt args).

Definition log_critical (fmt : string) (args : list logarg) : M unit :=
  do_event (EvLog CRITICAL fmt args).

(** [time.time()] and [time.sleep(seconds)], in milliseconds. *)
Definition time_time : M Z := fun w => (Ok (now w), w).

Definition sleep (ms : Z) : M unit :=
  fun w => (Ok tt, emit (EvSleep ms) (set_now (now w + ms) w)).

(** Python indexing [l[i]] for [i >= 0]. *)
Definition getitem (l : bytes) (i : nat) : result Z :=
  match l !! i with
  | Some v => Ok v
  | None => Exc IndexError
  end.

(** [l[i] = v] on a [bytearray]. *)
Definition setitem (i : nat) (v : Z) (l : bytes) : result bytes :=
  if (i <? length l)%nat
  then if is_byte v then Ok (<[i:=v]> l) else Exc ValueError
  else Exc IndexError.

(** [bytearray([v])] *)
Definition bytearray1 (v : Z) : result bytes :=
  if is_byte v then Ok [v] else Exc ValueError.

(** ** The serial line: class [SerialInterface] and pyserial *)

Module Serial.

Definition READ_TIMEOUT : Z := 3000.

Definition is_open (h : nat) (w : world) : bool :=
  existsb (Nat.eqb h) (open_handles w).

(** Bytes that reached the host at or before [t] are in the input buffer. *)
Fixpoint drop_arrived (t : Z) (r : list (Z * Z)) : list (Z * Z) :=
  match r with
  | [] => []
  | p :: r' => if fst p <=? t then drop_arrived t r' else r
  end.

(** [SerialInterface.open]: [serial.Serial(..., timeout=3)]; pyserial
    empties the input buffer of a freshly opened port. *)
Definition open (b : baud) : M nat :=
  fun w =>
    if port_present w then
      let h := next_handle w in
      (Ok h, emit (EvOpen h b)
               (set_rx (drop_arrived (now w) (rx w))
                  (set_handles (S h) (h :: open_handles w) w)))
    else (Exc PortError, emit (EvOpenFailed b) w).

(** [SerialInterface.close] *)
Definition close (h : nat) : M unit :=
  fun w =>
    (Ok tt, emit (EvClose h)
              (set_handles (next_handle w)
                 (List.filter (fun h' => negb (Nat.eqb h h')) (open_handles w)) w)).

(** [serial.read(size)]: returns as soon as [size] bytes are there, or
    with what has come in when the 3 s read timeout elapses. *)
Fixpoint read_until (deadline : Z) (size : nat) (w : world) : bytes * world :=
  match size with
  | O => ([], w)
  | S size =>
      match rx w with
      | (t, b) :: r =>
          if t <=? deadline
          then let '(more, w') :=
                 read_until deadline size (set_rx r (set_now (Z.max (now w) t) w)) in
               (b :: more, w')
          else ([], set_now deadline w)
      | [] => ([], set_now deadline w)
      end
  end.

Definition read (h : nat) (size : nat) : M bytes :=
  fun w =>
    if is_open h w then
      let '(data, w') := read_until (now w + READ_TIMEOUT) size w in
      (Ok data, w')
    else (Exc PortNotOpen, w).

Definition write (h : nat) (data : bytes) : M unit :=
  fun w =>
    if is_open h w then (Ok tt, emit (EvWrite h data) w)
    else (Exc PortNotOpen, w).

Definition flushInput (h : nat) : M unit :=
  fun w =>
    if is_open h w
    then (Ok tt, emit (EvFlushInput h) (set_rx (drop_arrived (now w) (rx w)) w))
    else (Exc PortNotOpen, w).

(** [serial.readline()]: bytes up to and including a line feed, cut short
    by a read timeout.  The call has no deadline of its own: it goes on
    as long as bytes keep coming without a line feed.  A world holds the
    finitely many bytes still to come, so the loop ends within
    [length (rx w) + 1] reads; a device that sends for ever without a
    line feed, on which the call would not return, is outside what a
    world describes. *)
Fixpoint readline_loop (fuel : nat) (h : nat) (line : bytes) : M bytes :=
  match fuel with
  | O => hang
  | S fuel =>
      let* b := read h 1 in
      match b with
      | [] => ret line
      | c :: _ =>
          if c =? 0x0A then ret (line ++ b)
          else readline_loop fuel h (line ++ b)
      end
  end.

Definition readline (h : nat) : M bytes :=
  let* w := get_world in
  readline_loop (S (length (rx w))) h [].

End Serial.

(** ** ASH framing: class [AshProtocolInterface] *)

Module Ash.

Definition FLAG_BYTE : bytes := [0x7E].
Definition RANDOMIZE_START : Z := 0x42.
Definition RANDOMIZE_SEQ : Z := 0xB8.
Definition RSTACK_FRAME_CMD : bytes := [0x1A; 0xC0; 0x38; 0xBC; 0x7E].
Definition RSTACK_FRAME_ACK : bytes := [0x1A; 0xC1; 0x02; 0x0B; 0x0A; 0x52; 0x7E].

(** The object: its serial session and the two counters. *)
Record state := { serial : nat; ackNum : Z; frmNum : Z }.

(** [__init__] *)
Definition init (serial : nat) : state :=
  {| serial := serial; ackNum := 0; frmNum := 0 |}.

(** One turn of the [for x in frame] loop of [dataRandomize]: the loop
    state is [(rand, out)]. *)
Definition randomize_step (st : Z * bytes) (x : Z) : Z * bytes :=
  let '(rand, out) := st in
  let out := out ++ [Z.lxor x rand] in
  if negb (rand mod 2 =? 0)
  then (Z.lxor (Z.shiftr rand 1) RANDOMIZE_SEQ, out)
  else (Z.shiftr rand 1, out).

Definition dataRandomize (frame : bytes) : bytes :=
  snd (fold_left randomize_step frame (RANDOMIZE_START, [])).

Definition revertEscapedBytes (msg : bytes) : bytes :=
  let msg := replace2 0x7d 0x5d [0x7d] msg in
  let msg := replace2 0x7d 0x5e [0x7e] msg in
  let msg := replace2 0x7d 0x31 [0x11] msg in
  let msg := replace2 0x7d 0x33 [0x13] msg in
  let msg := replace2 0x7d 0x38 [0x18] msg in
  let msg := replace2 0x7d 0x3a [0x1a] msg in
  msg.

Definition replaceReservedBytes (msg : bytes) : bytes :=
  let msg := replace1 0x7d [0x7d; 0x5d] msg in
  let msg := replace1 0x7e [0x7d; 0x5e] msg in
  let msg := replace1 0x11 [0x7d; 0x31] msg in
  let msg := replace1 0x13 [0x7d; 0x33] msg in
  let msg := replace1 0x18 [0x7d; 0x38] msg in
  let msg := replace1 0x1a [0x7d; 0x3a] msg in
  msg.

(** [ashFrameBuilder]: returns the frame and the updated counters. *)
Definition ashFrameBuilder (self : state) (ezsp_frame : bytes) : bytes * state :=
  let ash_frame :=
    [Z.land
       (Z.lor (Z.land (Z.shiftl (ackNum self) 0) 0xFF)
              (Z.land (Z.shiftl (frmNum self mod 8) 4) 0xFF))
       0xFF] in
  let self := {| serial := serial self;
                 ackNum := (ackNum self + 1) mod 8;
                 frmNum := (frmNum self + 1) mod 8 |} in
  let ash_frame := ash_frame ++ dataRandomize ezsp_frame in
  let crc := crc_hqx ash_frame 0xFFFF in
  let ash_frame := ash_frame ++ [Z.shiftr crc 8; Z.land crc 0xFF] in
  let ash_frame := replaceReservedBytes ash_frame in
  let ash_frame := ash_frame ++ FLAG_BYTE in
  (ash_frame, self).

(** The bytes [sendAck] hands to [serial.write]; [ackNum] here is the
    method's parameter, not the counter of the object.  In Python [&]
    binds tighter than [|]. *)
Definition ack_frame (ackNum : Z) : bytes :=
  let ack := [Z.lor (Z.land ackNum 0x07) 0x80] in
  let crc := crc_hqx ack 0xFFFF in
  let ack := ack ++ [Z.shiftr crc 8; Z.land crc 0xFF] in
  let ack := replaceReservedBytes ack in
  ack ++ FLAG_BYTE.

Definition is_flag (receivedbyte : option bytes) : bool :=
  match receivedbyte with
  | Some [b] => b =? 0x7E
  | _ => false
  end.

(** The [while] loop of [getResponse]. *)
Fixpoint read_loop (fuel : nat) (self : state) (timeout : Z)
    (receivedbyte : option bytes) (msg : bytes) : M bytes :=
  match fuel with
  | O => hang
  | S fuel =>
      let* t := time_time in
      if (t <? timeout) && negb (is_flag receivedbyte) then
        let* receivedbyte := Serial.read (serial self) 1 in
        read_loop fuel self timeout (Some receivedbyte) (msg ++ receivedbyte)
      else ret msg
  end.

Definition getResponse (self : state) (applyRandomize : bool)
  : M (Z * option bytes * option bytes) :=
  let* t := time_time in
  let timeout := t + 3000 in
  let* w := get_world in
  let* msg := read_loop (length (rx w) + 2) self timeout None [] in
  if (length msg =? 0)%nat then ret (-1, None, None)
  else
    let msg := revertEscapedBytes msg in
    if applyRandomize then
      let msg_parsed := dataRandomize (slice_from_to_neg 1 3 msg) in
      ret (0, Some msg, Some msg_parsed)
    else ret (0, Some msg, None).

Definition sendResetFrame (self : state) : M Z :=
  Serial.flushInput (serial self) ;;;
  Serial.write (serial self) RSTACK_FRAME_CMD ;;;
  let* '(status, ash_response, ezsp_response) := getResponse self false in
  if negb (status =? 0) then ret status
  else
    match ash_response with
    | None => raise TypeError
    | Some ash_response =>
        if negb (bytes_in RSTACK_FRAME_ACK ash_response) then ret (-1)
        else ret 0
    end.

Definition sendAck (self : state) (ackNum : Z) : M unit :=
  Serial.write (serial self) (ack_frame ackNum).

Definition sendAshCommand (self : state) (ezspFrame : bytes)
  : M (Z * option bytes * state) :=
  let '(ash_frame, self) := ashFrameBuilder self ezspFrame in
  Serial.flushInput (serial self) ;;;
  Serial.write (serial self) ash_frame ;;;
  let* '(status, ash_response, ezsp_response) := getResponse self true in
  if negb (status =? 0) then ret (status, None, self)
  else
    match ash_response with
    | None => raise TypeError
    | Some ash_response =>
        let* control := lift (getitem ash_response 0) in
        sendAck self control ;;;
        ret (0, ezsp_response, self)
    end.

End Ash.

(** Exceptions in code that does not touch the world. *)
Definition rbind {A B} (r : result A) (k : A -> result B) : result B :=
  match r with
  | Ok a => k a
  | Exc e => Exc e
  | Hang => Hang
  end.

Notation "'let?' x ':=' r 'in' k" := (rbind r (fun x => k))
  (at level 10, x name, r at level 100, k at level 200).

(** [resp[i]] and [resp[i:]] where [resp] may be [None]. *)
Definition subscript (resp : option bytes) (i : nat) : result Z :=
  match resp with
  | None => Exc TypeError
  | Some resp => getitem resp i
  end.

Definition subslice (resp : option bytes) (i : nat) : result bytes :=
  match resp with
  | None => Exc TypeError
  | Some resp => Ok (slice_from i resp)
  end.

(** ** EZSP transport: class [EzspProtocolInterface] *)

Module Ezsp.

Definition INITIAL_EZSP_VERSION : Z := 4.
Definition VERSION : bytes := [0x00].
Definition GET_VALUE : bytes := [0xAA].
Definition GET_MFG_TOKEN : bytes := [0x0B].
Definition LAUNCH_STANDALONE_BOOTLOADER : bytes := [0x8F].
Definition EZSP_VALUE_VERSION_INFO : Z := 0x11.
Definition EZSP_MFG_STRING : Z := 0x01.
Definition EZSP_MFG_BOARD_NAME : Z := 0x02.
Definition STANDALONE_BOOTLOADER_NORMAL_MODE : Z := 1.

Record state := { ezspVersion : Z; sequenceNum : Z; ash : Ash.state }.

(** [__init__] *)
Definition init (serial : nat) : state :=
  {| ezspVersion := INITIAL_EZSP_VERSION; sequenceNum := 0;
     ash := Ash.init serial |}.

Definition set_ash (a : Ash.state) (self : state) : state :=
  {| ezspVersion := ezspVersion self; sequenceNum := sequenceNum self; ash := a |}.

Definition set_ezspVersion (v : Z) (self : state) : state :=
  {| ezspVersion := v; sequenceNum := sequenceNum self; ash := ash self |}.

Definition set_sequenceNum (n : Z) (self : state) : state :=
  {| ezspVersion := ezspVersion self; sequenceNum := n; ash := ash self |}.

Definition ezspFrameBuilder (self : state) (command : bytes)
  : result (bytes * state) :=
  (* Sequence byte *)
  let? ezsp_frame := bytearray1 (sequenceNum self) in
  let self := set_sequenceNum ((sequenceNum self + 1) mod 255) self in
  let ezsp_frame := ezsp_frame ++ [0x00] in
  let ezsp_frame :=
    if 5 <=? ezspVersion self
    then (ezsp_frame ++ [0xFF]) ++ [0x00]
    else ezsp_frame in
  let ezsp_frame := ezsp_frame ++ command in
  if 8 <=? ezspVersion self then
    let? ezsp_frame := setitem 2 0x01 ezsp_frame in
    let? c := getitem command 0 in
    let? ezsp_frame := setitem 3 (Z.land c 0xFF) ezsp_frame in
    let? c := getitem command 0 in
    let? ezsp_frame := setitem 4 (Z.shiftr c 8) ezsp_frame in
    Ok (ezsp_frame, self)
  else Ok (ezsp_frame, self).

Definition sendEzspCommand (self : state) (commandData : bytes)
  : M (option bytes * state) :=
  let* '(frame, self) := lift (ezspFrameBuilder self commandData) in
  let* '(status, response, a) := Ash.sendAshCommand (ash self) frame in
  let self := set_ash a self in
  if negb (status =? 0) then raise (StatusError "sendAshCommand" status)
  else ret (response, self).

Definition sendVersion (self : state) (desiredProtocolVersion : Z)
  : M (Z * state) :=
  let* arg := lift (bytearray1 desiredProtocolVersion) in
  let* '(resp, self) := sendEzspCommand self (VERSION ++ arg) in
  let* protocolVersion := lift (subscript resp 3) in
  ret (protocolVersion, self).

Definition getValue (self : state) (valueId : Z)
  : M (Z * Z * bytes * state) :=
  let* arg := lift (bytearray1 valueId) in
  let* '(resp, self) := sendEzspCommand self (GET_VALUE ++ arg) in
  let* status := lift (subscript resp 5) in
  let* valueLength := lift (subscript resp 6) in
  let* valueArray := lift (subslice resp 7) in
  ret (status, valueLength, valueArray, self).

Definition getMfgToken (self : state) (tokenId : Z)
  : M (Z * bytes * state) :=
  let* arg := lift (bytearray1 tokenId) in
  let* '(resp, self) := sendEzspCommand self (GET_MFG_TOKEN ++ arg) in
  let* tokenDataLength := lift (subscript resp 5) in
  let* tokenData := lift (subslice resp 6) in
  ret (tokenDataLength, tokenData, self).

Definition launchStandaloneBootloader (self : state) (mode : Z)
  : M (Z * state) :=
  let* arg := lift (bytearray1 mode) in
  let* '(resp, self) :=
    sendEzspCommand self (LAUNCH_STANDALONE_BOOTLOADER ++ arg) in
  let* status := lift (subscript resp 5) in
  ret (status, self).

Definition initEzspProtocol (self : state) : M (Z * state) :=
  let* ash_status := Ash.sendResetFrame (ash self) in
  if negb (ash_status =? 0) then ret (ash_status, self)
  else
    let* '(v, self) := sendVersion self INITIAL_EZSP_VERSION in
    let self := set_ezspVersion v self in
    if negb (ezspVersion self =? INITIAL_EZSP_VERSION) then
      let* '(_, self) := sendVersion self (ezspVersion self) in
      ret (0, self)
    else ret (0, self).

End Ezsp.

(** ** HDLC-Lite framing: class [HdlcLiteProtocolInterface] *)

Module Hdlc.

Definition HDLC_FLAG : Z := 0x7e.
Definition HDLC_ESCAPE : Z := 0x7d.
Definition HDLC_FCS_INIT : Z := 0xFFFF.
Definition HDLC_FCS_POLY : Z := 0x8408.
Definition HDLC_FCS_GOOD : Z := 0xF0B8.

(** The body of [valiter] for one [byte]: eight turns of the [while i]
    loop. *)
Definition fcs_shift (fcs : Z) : Z :=
  if negb (Z.land fcs 1 =? 0)
  then Z.lxor (Z.shiftr fcs 1) HDLC_FCS_POLY
  else Z.shiftr fcs 1.

Definition mkfcstab : list Z :=
  map (fun byte => Z.land (Nat.iter 8 fcs_shift (Z.of_nat byte)) 0xFFFF)
      (seq 0 256).

(** [self.fcstab], filled in by [__init__]. *)
Definition fcstab : list Z := Eval vm_compute in mkfcstab.

(** The object: its serial session. *)
Record state := { serial : nat }.

Definition init (serial : nat) : state := {| serial := serial |}.

(** [fcs16]: the index [(fcs ^ byte) & 0xff] always lies inside the 256
    entry table, so the lookup cannot fail. *)
Definition fcs16 (byte fcs : Z) : Z :=
  Z.lxor (Z.shiftr fcs 8)
         (nth (Z.to_nat (Z.land (Z.lxor fcs byte) 0xff)) fcstab 0).

(** [int.from_bytes(b, "little")] *)
Definition int_from_bytes (b : bytes) : Z :=
  fold_right (fun x acc => x + 256 * acc) 0 b.

(** The [while] loop of [getResponse]; it yields [(fcs, packet)]. *)
Fixpoint read_loop (fuel : nat) (self : state) (timeout : Z)
    (fcs : Z) (packet : bytes) : M (Z * bytes) :=
  match fuel with
  | O => hang
  | S fuel =>
      let* t := time_time in
      if t <? timeout then
        let* b := Serial.read (serial self) 1 in
        let byte := int_from_bytes b in
        if byte =? HDLC_FLAG then
          if (length packet =? 0)%nat
          then (* First sync byte *)
               read_loop fuel self timeout fcs packet
          else (* end of packet, go parse *)
               ret (fcs, packet)
        else
          let* byte :=
            if byte =? HDLC_ESCAPE then
              let* b := Serial.read (serial self) 1 in
              ret (Z.lxor (int_from_bytes b) 0x20)
            else ret byte in
          let packet := packet ++ [byte] in
          let fcs := fcs16 byte fcs in
          read_loop fuel self timeout fcs packet
      else ret (fcs, packet)
  end.

Definition getResponse (self : state) : M (Z * option bytes) :=
  let fcs := HDLC_FCS_INIT in
  let* t := time_time in
  let timeout := t + 3000 in
  let* w := get_world in
  let* '(fcs, packet) := read_loop (length (rx w) + 2) self timeout fcs [] in
  if (length packet =? 0)%nat then ret (-1, None)
  else if negb (fcs =? HDLC_FCS_GOOD) then ret (-1, None)
  else
    let packet := slice_to_neg 2 packet in (* remove FCS16 from end *)
    ret (0, Some packet).

(** HDLC encode and append a single byte to the given packet. *)
Definition encode_byte (byte : Z) (packet : bytes) : bytes :=
  if (byte =? HDLC_ESCAPE) || (byte =? HDLC_FLAG)
  then (packet ++ [HDLC_ESCAPE]) ++ [Z.lxor byte 0x20]
  else packet ++ [byte].

(** The [for byte in payload] loop of [encode]: the loop state is
    [(fcs, packet)]. *)
Definition encode_step (st : Z * bytes) (byte : Z) : Z * bytes :=
  let '(fcs, packet) := st in
  let fcs := fcs16 byte fcs in
  let packet := encode_byte byte packet in
  (fcs, packet).

(** Return the HDLC encoding of the given packet. *)
Definition encode (payload : bytes) : bytes :=
  let fcs := HDLC_FCS_INIT in
  let packet := [] in
  let packet := packet ++ [HDLC_FLAG] in
  let '(fcs, packet) := fold_left encode_step payload (fcs, packet) in
  let fcs := Z.lxor fcs 0xffff in
  let byte := Z.land fcs 0xFF in
  let packet := encode_byte byte packet in
  let byte := Z.shiftr fcs 8 in
  let packet := encode_byte byte packet in
  let packet := packet ++ [HDLC_FLAG] in
  packet.

Definition sendHdlcPacket (self : state) (data : bytes)
  : M (Z * option bytes) :=
  let pkt := encode data in
  Serial.write (serial self) pkt ;;;
  getResponse self.

End Hdlc.

(** ** Spinel transport: class [SpinelProtocolInterface] *)

Module Spinel.

Definition CMD_PROP_VALUE_GET : Z := 2.
Definition CMD_PROP_VALUE_SET : Z := 3.
Definition HEADER_ASYNC : Z := 0x80.
Definition HEADER_DEFAULT : Z := 0x81.
Definition PROP_PROTOCOL_VERSION : Z := 1.
Definition PROP_NCP_VERSION : Z := 2.
Definition PROP_MFG_CUSTOM_VERSION : Z := 0x3C00.
Definition PROP_MFG_STRING : Z := 0x3C01.
Definition PROP_MFG_BOARD_NAME : Z := 0x3C02.
Definition CMD_RESET : Z := 1.
Definition CMD_MFG_LAUNCH_BOOTLOADER : Z := 15360.

(** [spinelVersion] is [""] ([None]) or ["<major>.<minor>"]. *)
Record state := { spinelVersion : option (Z * Z); hdlc : Hdlc.state }.

Definition init (serial : nat) : state :=
  {| spinelVersion := None; hdlc := Hdlc.init serial |}.

Definition set_spinelVersion (v : option (Z * Z)) (self : state) : state :=
  {| spinelVersion := v; hdlc := hdlc self |}.

(** The [while data] loop of [encode_i]; [None] when the fuel runs out. *)
Fixpoint encode_i_loop (fuel : nat) (data : Z) (result : bytes) : option bytes :=
  match fuel with
  | O => None
  | S fuel =>
      if negb (data =? 0) then
        let value := Z.land data 0x7F in
        let data := Z.shiftr data 7 in
        let value := if negb (data =? 0) then Z.lor value 0x80 else value in
        encode_i_loop fuel data (result ++ [value])
      else Some result
  end.

(** [encode_i]: the fuel covers every turn the loop takes on a
    non-negative [data]; on a negative one the loop never ends. *)
Definition encode_i (data : Z) : result bytes :=
  match encode_i_loop (Z.to_nat (Z.log2 data) + 2) data [] with
  | Some r => Ok r
  | None => Hang
  end.

Definition encode_packet (command_id : Z) (payload : bytes) : result bytes :=
  let header := [HEADER_DEFAULT] in
  let? cmd := encode_i command_id in
  let pkt := (header ++ cmd) ++ payload in
  Ok pkt.

Definition sendSpinelCommand (self : state) (command_id : Z) (payload : bytes)
  : M (option bytes) :=
  let* pkt := lift (encode_packet command_id payload) in
  let* '(status, response) := Hdlc.sendHdlcPacket (hdlc self) pkt in
  if negb (status =? 0) then raise (StatusError "sendHdlcPacket" status)
  else ret response.

Definition propValueGet (self : state) (prop_id : Z) : M bytes :=
  let* arg := lift (encode_i prop_id) in
  let* resp := sendSpinelCommand self CMD_PROP_VALUE_GET arg in
  if 0xFFFF <? prop_id then raise PropIdTooLarge
  else if 0xFF <? prop_id then lift (subslice resp 4)
  else lift (subslice resp 3).

Definition eleLaunchBtl (self : state) : M unit :=
  let header := [HEADER_ASYNC] in
  let* cmd := lift (encode_i CMD_MFG_LAUNCH_BOOTLOADER) in
  let pkt := header ++ cmd in
  Hdlc.sendHdlcPacket (hdlc self) pkt ;;;
  ret tt.

(** The [while self.spinelVersion == ""] loop of [initSpinelProtocol]. *)
Fixpoint version_loop (fuel : nat) (self : state) (counter : Z)
  : M (Z * state) :=
  match fuel with
  | O => hang
  | S fuel =>
      match spinelVersion self with
      | Some _ => ret (0, self)
      | None =>
          let* arg := lift (encode_i PROP_PROTOCOL_VERSION) in
          let* response := sendSpinelCommand self CMD_PROP_VALUE_GET arg in
          let* id := lift (subscript response 2) in
          if negb (id =? PROP_PROTOCOL_VERSION) then
            (* missmatch, request again *)
            let counter := counter + 1 in
            if 5 <=? counter then ret (-1, self)
            else version_loop fuel self counter
          else
            let* major := lift (subscript response 3) in
            let* minor := lift (subscript response 4) in
            let self := set_spinelVersion (Some (major, minor)) self in
            ret (0, self)
      end
  end.

Definition initSpinelProtocol (self : state) : M (Z * state) :=
  let self := set_spinelVersion None self in
  let header := [HEADER_ASYNC] in
  let* cmd := lift (encode_i CMD_RESET) in
  let pkt := header ++ cmd in
  let* '(status, response) := Hdlc.sendHdlcPacket (hdlc self) pkt in
  if negb (status =? 0) then ret (status, self)
  else if bool_decide (response = Some pkt) then ret (-1, self)
  else
    (* request version of the SPINEL protocol *)
    version_loop 6 self 0.

End Spinel.

(** ** Mode controller: class [ElelabsUtilities] *)

Inductive AdapterModeProbeStatus := ZIGBEE | THREAD | BOOTLOADER | ERROR.

Record config := { port : string; baudrate : baud }.

(** The two characters a Python literal writes ["\r\n"]: carriage
    return and line feed. *)
Definition CRLF : string := String "013"%char (String "010"%char EmptyString).

(** The character codes of a string literal. *)
Definition text (s : string) : bytes :=
  map (fun a => Z.of_N (N_of_ascii a)) (list_ascii_of_string s).

(** [b.decode("ascii", "ignore")]: bytes outside ASCII are dropped. *)
Definition decode_ascii_ignore (b : bytes) : bytes :=
  List.filter (fun c => c <? 128) b.

(** [s.rstrip('\x00')] *)
Definition rstrip_nul (s : bytes) : bytes :=
  fold_right
    (fun c acc => match acc with
                  | [] => if c =? 0 then [] else [c]
                  | _ => c :: acc
                  end) [] s.

(** [needle in hay] on strings. *)
Fixpoint contains (needle hay : string) : bool :=
  String.prefix needle hay ||
  match hay with
  | EmptyString => false
  | String _ hay' => contains needle hay'
  end.

(** Truth value of what [restart] returns: an [int], or [None] when the
    function falls off its end. *)
Definition truthy (r : option Z) : bool :=
  match r with
  | Some n => negb (n =? 0)
  | None => false
  end.

(** [self.config.baudrate != 115200] *)
Definition baud_differs (b : baud) : bool :=
  match b with
  | BaudInt n => negb (n =? 115200)
  | BaudStr _ => true
  end.

Module Utilities.

Import Ezsp Spinel.

Definition probe (self : config) : M (AdapterModeProbeStatus * option bytes) :=
  let* serialInterface := Serial.open (baudrate self) in
  let ezsp := Ezsp.init serialInterface in
  let* '(ezsp_status, ezsp) := initEzspProtocol ezsp in
  if ezsp_status =? 0 then
    let* '(status, value_length, value_array, ezsp) :=
      getValue ezsp EZSP_VALUE_VERSION_INFO in
    let* firmware_version :=
      if status =? 0 then
        let* v2 := lift (getitem value_array 2) in
        let* v3 := lift (getitem value_array 3) in
        let* v4 := lift (getitem value_array 4) in
        let* v0 := lift (getitem value_array 0) in
        ret (Some [ArgInt v2; ArgInt v3; ArgInt v4; ArgInt v0])
      else
        log_info "EZSP status returned %d" [ArgInt status] ;;;
        ret None in
    let* '(token_data_length, token_data, ezsp) :=
      getMfgToken ezsp EZSP_MFG_STRING in
    let* '(adapter_name, ezsp) :=
      if bool_decide (decode_ascii_ignore token_data = text "Elelabs") then
        let* '(token_data_length, token_data, ezsp) :=
          getMfgToken ezsp EZSP_MFG_BOARD_NAME in
        let adapter_name := decode_ascii_ignore token_data in
        log_info "Elelabs Zigbee adapter detected:" [] ;;;
        log_info "Adapter: %s" [ArgText adapter_name] ;;;
        ret (Some adapter_name, ezsp)
      else
        log_info "Generic Zigbee EZSP adapter detected:" [] ;;;
        ret (None, ezsp) in
    let* firmware_version :=
      match firmware_version with
      | Some v => ret v
      | None => raise UnboundLocalError
      end in
    log_info "Firmware: %s" firmware_version ;;;
    log_info "EZSP v%d" [ArgInt (ezspVersion ezsp)] ;;;
    Serial.close serialInterface ;;;
    ret (ZIGBEE, adapter_name)
  else
    let spinel := Spinel.init serialInterface in
    let* '(spinel_status, spinel) := initSpinelProtocol spinel in
    if spinel_status =? 0 then
      let* property_data := propValueGet spinel PROP_NCP_VERSION in
      let firmware_version := decode_ascii_ignore property_data in
      let* property_data := propValueGet spinel PROP_MFG_STRING in
      let vendor_name := rstrip_nul (decode_ascii_ignore property_data) in
      let* adapter_name :=
        if bool_decide (vendor_name = text "Elelabs") then
          let* property_data := propValueGet spinel PROP_MFG_BOARD_NAME in
          let adapter_name := rstrip_nul (decode_ascii_ignore property_data) in
          log_info "Elelabs Thread adapter detected:" [] ;;;
          log_info "Adapter: %s" [ArgText adapter_name] ;;;
          ret (Some adapter_name)
        else
          log_info "Generic Thread adapter detected:" [] ;;;
          ret None in
      log_info "Firmware: %s" [ArgText firmware_version] ;;;
      log_info "SPINEL v%s"
        match spinelVersion spinel with
        | Some (major, minor) => [ArgInt major; ArgInt minor]
        | None => []
        end ;;;
      Serial.close serialInterface ;;;
      ret (THREAD, adapter_name)
    else
      let* serialInterface :=
        if baud_differs (baudrate self) then
          Serial.close serialInterface ;;;
          sleep 1000 ;;;
          Serial.open (BaudInt 115200)
        else ret serialInterface in
      (* check if allready in bootloader mode *)
      Serial.write serialInterface [0x0D] ;;;
      let* first_line := Serial.readline serialInterface in (* read blank line *)
      if (length first_line =? 0)%nat then
        (* timeout *)
        Serial.close serialInterface ;;;
        log_info "Couldn't communicate with the adapter in Zigbee (EZSP) mode, Thread (Spinel) mode or bootloader mode" [] ;;;
        ret (ERROR, None)
      else
        let* btl_info := Serial.readline serialInterface in
        log_info "EZSP adapter in bootloader mode detected:" [] ;;;
        log_info "%s" [ArgText (slice_to_neg 2 (decode_ascii_ignore btl_info))] ;;;
        Serial.close serialInterface ;;;
        ret (BOOTLOADER, None).

(** The end of the ['btl'] branch of [restart], reached when neither
    transport made the method return early. *)
Definition restart_btl_finish (self : config) (serialInterface : nat)
  : M (option Z) :=
  Serial.close serialInterface ;;;
  (* wait for reboot *)
  sleep 2000 ;;;
  let* '(adapter_status, adapter_name) := probe self in
  match adapter_status with
  | BOOTLOADER => ret (Some 0)
  | _ => ret (Some (-1))
  end.

Definition restart (self : config) (mode : string) : M (option Z) :=
  let* '(adapter_status, adapter_name) := probe self in
  match adapter_status with
  | ZIGBEE | THREAD =>
      if String.eqb mode "btl" then
        let* serialInterface := Serial.open (baudrate self) in
        log_info "Launch in bootloader mode" [] ;;;
        match adapter_status with
        | ZIGBEE =>
            let ezsp := Ezsp.init serialInterface in
            let* '(ezsp_status, ezsp) := initEzspProtocol ezsp in
            let* '(status, ezsp) :=
              launchStandaloneBootloader ezsp STANDALONE_BOOTLOADER_NORMAL_MODE in
            if negb (status =? 0) then
              Serial.close serialInterface ;;;
              log_critical "Error launching the adapter in bootloader mode" [] ;;;
              ret (Some (-1))
            else restart_btl_finish self serialInterface
        | _ =>
            match adapter_name with
            | None =>
                log_critical
                    ("No Elelabs Thread product detected." ++ CRLF ++
                     "We don't know how to force it into bootloader mode." ++ CRLF ++
                     " Manually launch the product into bootloader mode")
                    [] ;;;
                ret (Some (-1))
            | Some _ =>
                let spinel := Spinel.init serialInterface in
                let* '(spinel_status, spinel) := initSpinelProtocol spinel in
                if negb (spinel_status =? 0) then
                  Serial.close serialInterface ;;;
                  log_critical "Error launching the adapter in bootloader mode" [] ;;;
                  ret (Some (-1))
                else
                  eleLaunchBtl spinel ;;;
                  restart_btl_finish self serialInterface
            end
        end
      else
        log_info "Allready in normal mode. No need to restart" [] ;;;
        ret (Some 0)
  | BOOTLOADER =>
      if String.eqb mode "btl" then
        log_info "Allready in bootloader mode. No need to restart" [] ;;;
        ret (Some 0)
      else
        let* serialInterface := Serial.open (BaudInt 115200) in
        log_info "Launch in normal application mode" [] ;;;
        (* Send Reboot *)
        Serial.write serialInterface (text "2") ;;;
        Serial.close serialInterface ;;;
        (* wait for reboot *)
        sleep 2000 ;;;
        let* '(adapter_status, adapter_name) := probe self in
        match adapter_status with
        | ZIGBEE | THREAD => ret (Some 0)
        | _ => ret (Some (-1))
        end
  | ERROR => ret None
  end.

(** The two callbacks [flash] hands to the XMODEM library;
    [self.currentPacket] is threaded through [putc]. *)
Definition getc (serialInterface : nat) (size : nat) : M bytes :=
  Serial.read serialInterface size.

Definition putc (serialInterface : nat) (currentPacket : Z) (data : bytes)
  : M Z :=
  let currentPacket := currentPacket + 1 in
  (if currentPacket mod 20 =? 0 then do_event (EvPrint ".") else ret tt) ;;;
  (if currentPacket mod 100 =? 0 then do_event (EvPrint "") else ret tt) ;;;
  Serial.write serialInterface data ;;;
  sleep 1 ;;;
  ret currentPacket.

(** [XMODEM(getc, putc).send(stream)].  The [xmodem] package and the
    image file are not part of the sources: the world scripts the
    callbacks the library makes and the verdict it returns. *)
Fixpoint xmodem_calls (script : list xmodem_call) (serialInterface : nat)
    (currentPacket : Z) : M Z :=
  match script with
  | [] => ret currentPacket
  | Getc size :: script =>
      getc serialInterface size ;;;
      xmodem_calls script serialInterface currentPacket
  | Putc data :: script =>
      let* currentPacket := putc serialInterface currentPacket data in
      xmodem_calls script serialInterface currentPacket
  end.

Definition xmodem_send (serialInterface : nat) (filename : string) : M bool :=
  let* w := get_world in
  if image_readable w then
    do_event (EvXmodemSend filename) ;;;
    xmodem_calls (xmodem_script w) serialInterface 0 ;;;
    ret (xmodem_verdict w)
  else raise FileError.

(** The loop of [flash] that waits for the character 'C'. *)
Fixpoint wait_ready (fuel : nat) (serialInterface : nat) (start_time : Z)
    (success : bool) : M bool :=
  match fuel with
  | O => hang
  | S fuel =>
      let* t := time_time in
      if t - start_time <? 10000 then
        let* c := Serial.read serialInterface 1 in
        if bool_decide (c = text "C") then
          let success := true in
          let* t := time_time in
          if 5000 <? t - start_time then ret success
          else wait_ready fuel serialInterface start_time success
        else wait_ready fuel serialInterface start_time success
      else ret success
  end.

Definition flash (self : config) (filename : string) : M unit :=
  if negb (contains ".gbl" filename) && negb (contains ".ebl" filename) then
    log_critical "Aborted! Gecko bootloader accepts .gbl or .ebl images only." [] ;;;
    ret tt
  else
    let* r := restart self "btl" in
    if truthy r then
      log_critical "EZSP adapter not in the bootloader mode. Can't perform update procedure" [] ;;;
      ret tt
    else
      let* serialInterface := Serial.open (BaudInt 115200) in
      (* Enter '1' to initialize X-MODEM mode *)
      Serial.write serialInterface [0x0A] ;;;
      Serial.write serialInterface (text "1") ;;;
      sleep 1000 ;;;
      Serial.readline serialInterface ;;; (* BL > 1 *)
      Serial.readline serialInterface ;;; (* begin upload *)
      log_info "Successfully restarted into X-MODEM mode! Starting upload of the new firmware... DO NOT INTERRUPT(!)" [] ;;;
      (* Wait for char 'C' *)
      let* start_time := time_time in
      let* w := get_world in
      let* success :=
        wait_ready (length (rx w) + 5) serialInterface start_time false in
      if negb success then
        log_info "Failed to restart into bootloader mode. Please see users guide." [] ;;;
        ret tt
      else
        (* Start XMODEM transaction *)
        let* sentcheck := xmodem_send serialInterface filename in
        do_event (EvPrint "") ;;;
        if sentcheck then
          log_info "Firmware upload complete" [] ;;;
          log_info "Rebooting NCP..." [] ;;;
          (* Wait for restart *)
          sleep 4000 ;;;
          (* Send Reboot into App-Code command *)
          Serial.write serialInterface (text "2") ;;;
          Serial.close serialInterface ;;;
          sleep 2000 ;;;
          probe self ;;;
          ret tt
        else
          log_critical "Firmware upload failed. Please try a correct firmware image or restart in normal mode." [] ;;;
          ret tt.

(** [ele_update]: probe, then map the board name and the protocol wanted
    to one of the shipped images and flash it. *)
Definition ele_update (self : config) (new_version : string) : M unit :=
  let* '(adapter_status, adapter_name) := probe self in
  match adapter_status with
  | ZIGBEE | THREAD =>
      match adapter_name with
      | None =>
          log_critical
              ("No Elelabs product detected." ++ CRLF ++
               "Use 'flash' utility for generic EZSP products." ++ CRLF ++
               "Contact info@elelabs.com if you see this message for original Elelabs product")
              [] ;;;
          ret tt
      | Some adapter_name =>
          if bool_decide (adapter_name = text "ELR023")
             || bool_decide (adapter_name = text "ELU013") then
            if String.eqb new_version "thread" then
              flash self "data/EFR32MG13/ELE_MG13_ot_rcp_123_220206.gbl"
            else if String.eqb new_version "zigbee" then
              flash self "data/EFR32MG13/ELE_MG13_zb_ncp_115200_610_211112.gbl"
            else
              log_critical ("Unknown protocol version " ++ new_version) []
          else if bool_decide (adapter_name = text "ELR022")
                  || bool_decide (adapter_name = text "ELU012") then
            log_critical "TODO!. Contact Elelabs at info@elelabs.com" []
          else if bool_decide (adapter_name = text "EZBPIS")
                  || bool_decide (adapter_name = text "EZBUSBA") then
            log_critical "TODO!. Contact Elelabs at info@elelabs.com" []
          else if bool_decide (adapter_name = text "ELU0143") then
            if String.eqb new_version "thread" then
              flash self "data/EFR32MG21/ELU0143_MG21_ot_rcp_123_220131.gbl"
            else if String.eqb new_version "zigbee" then
              flash self "data/EFR32MG21/ELU0143_MG21_zb_ncp_6103_220131.gbl"
            else
              log_critical ("Unknown protocol version " ++ new_version) []
          else if bool_decide (adapter_name = text "ELU0141")
                  || bool_decide (adapter_name = text "ELU0142") then
            if String.eqb new_version "thread" then
              flash self "data/EFR32MG21/ELU0141_MG21_ot_rcp_123_211204.gbl"
            else if String.eqb new_version "zigbee" then
              flash self "data/EFR32MG21/ELU0141_MG21_zb_ncp_6103_211204.gbl"
            else
              log_critical ("Unknown protocol version " ++ new_version) []
          else
            log_critical
                ("Unknown Elelabs product %s detected." ++ CRLF ++
                 "Contact info@elelabs.com if you see this message for original Elelabs product")
                [ArgText adapter_name]
      end
  | BOOTLOADER =>
      log_critical
          ("The product not in the normal EZSP mode." ++ CRLF ++
           "'restart' into normal mode or use 'flash' utility instead")
          []
  | ERROR =>
      log_critical "No upgradable device found" []
  end.

End Utilities.

(** * Reference definitions used by the statements *)

(** The whitening register after one byte, and the stream the loop of
    [dataRandomize] produces from a given register value. *)
Definition next_rand (rand : Z) : Z :=
  if negb (rand mod 2 =? 0)
  then Z.lxor (Z.shiftr rand 1) Ash.RANDOMIZE_SEQ
  else Z.shiftr rand 1.

Fixpoint whiten (rand : Z) (frame : bytes) : bytes :=
  match frame with
  | [] => []
  | x :: rest => Z.lxor x rand :: whiten (next_rand rand) rest
  end.

(** The escape table of the ASH framer, one byte at a time. *)
Definition esc (b : Z) : bytes :=
  if b =? 0x7d then [0x7d; 0x5d]
  else if b =? 0x7e then [0x7d; 0x5e]
  else if b =? 0x11 then [0x7d; 0x31]
  else if b =? 0x13 then [0x7d; 0x33]
  else if b =? 0x18 then [0x7d; 0x38]
  else if b =? 0x1a then [0x7d; 0x3a]
  else [b].

(** Modelled from the spec: the sources hold no varint decoder.  The spec
    names the format unsigned LEB128, 7 bits per byte, least significant
    group first, continuation bit [0x80]: the decoder reads bytes up to
    and including the first one without the continuation bit and returns
    the value with the bytes that follow; it has no value to return when
    the input ends before such a byte. *)
Fixpoint decode_varint (bs : bytes) : option (Z * bytes) :=
  match bs with
  | [] => None
  | b :: rest =>
      if Z.testbit b 7 then
        match decode_varint rest with
        | Some (v, rest') => Some (Z.land b 0x7F + Z.shiftl v 7, rest')
        | None => None
        end
      else Some (b, rest)
  end.

(** A run of outbound DATA frames, and a run of EZSP commands. *)
Definition data_frames (self : Ash.state) (frames : list bytes) : Ash.state :=
  fold_left (fun st f => snd (Ash.ashFrameBuilder st f)) frames self.

Fixpoint ezsp_commands (self : Ezsp.state) (cmds : list bytes)
  : result Ezsp.state :=
  match cmds with
  | [] => Ok self
  | c :: cmds =>
      let? r := Ezsp.ezspFrameBuilder self c in
      ezsp_commands (snd r) cmds
  end.

(** A port on which nothing ever answers. *)
Definition silent : world :=
  {| now := 0; rx := []; next_handle := 0; open_handles := []; trace := [];
     port_present := true; image_readable := true; xmodem_script := [];
     xmodem_verdict := false |}.

(** The HDLC-Lite escaping of a byte sequence, and the FCS accumulated
    over it, as [encode] and [getResponse] compute them byte by byte. *)
Definition escaped (p : bytes) : bytes :=
  flat_map (fun b => Hdlc.encode_byte b []) p.

Definition fcs_of (p : bytes) : Z :=
  fold_left (fun fcs b => Hdlc.fcs16 b fcs) p Hdlc.HDLC_FCS_INIT.

(** A world in which session 0 is open and the bytes of [stream] reach
    the host one millisecond from now. *)
Definition incoming (stream : bytes) : world :=
  {| now := 0; rx := map (fun b => (1, b)) stream; next_handle := 1;
     open_handles := [0%nat]; trace := [EvOpen 0 (BaudInt 115200)];
     port_present := true; image_readable := true; xmodem_script := [];
     xmodem_verdict := false |}.

Definition hdlc_receive (stream : bytes) : result (Z * option bytes) :=
  fst (Hdlc.getResponse (Hdlc.init 0) (incoming stream)).

(** The world after the head of [rx] has been read. *)
Definition consume (w : world) : world :=
  match rx w with
  | [] => w
  | (t, _) :: r => set_rx r (set_now (Z.max (now w) t) w)
  end.

(** The bytes [items] are on their way and all arrive before [timeout],
    which lies within one read timeout of the present. *)
Definition inflight (h : nat) (timeout : Z) (items rest : list (Z * Z))
    (w : world) : Prop :=
  Serial.is_open h w = true /\
  rx w = items ++ rest /\
  Forall (fun it => fst it < timeout) items /\
  now w < timeout <= now w + 3000.

(** [s.endswith(suffix)], the test the specification words call for. *)
Fixpoint ends_with (suffix s : string) : bool :=
  String.eqb s suffix ||
  match s with
  | EmptyString => false
  | String _ s' => ends_with suffix s'
  end.

Definition ABORTED : string :=
  "Aborted! Gecko bootloader accepts .gbl or .ebl images only.".

Definition default_config : config :=
  {| port := "/dev/ttyUSB0"; baudrate := BaudInt 115200 |}.

Definition at_time (t : Z) (s : bytes) : list (Z * Z) :=
  map (fun b => (t, b)) s.

(** A device sitting in the Gecko bootloader: it stays mute to the ASH
    reset and to the Spinel reset, answers the carriage return with its
    banner, answers the menu choice, announces XMODEM with a 'C' every
    second, and then lets the transfer fail. *)
Definition bootloader_refusing_upload : world :=
  {| now := 0;
     rx := at_time 6001 ([13; 10] ++ text "Gecko Bootloader v1.12.00" ++ [13; 10])
           ++ at_time 6010 (text "BL > 1" ++ [13; 10] ++ text "begin upload" ++ [13; 10])
           ++ [(7010, 67); (8010, 67); (9010, 67); (10010, 67); (11010, 67);
               (12010, 67)];
     next_handle := 0; open_handles := []; trace := [];
     port_present := true; image_readable := true;
     xmodem_script := [Putc (1 :: 1 :: 254 :: repeat 26 130); Getc 1];
     xmodem_verdict := false |}.

(** A Thread device of another vendor: mute to the ASH reset, it then
    answers every Spinel request; its vendor string is not ["Elelabs"]. *)
Definition thread_generic : world :=
  {| now := 0;
     rx := at_time 3005 (Hdlc.encode [0x80; 0x06; 0x00; 0x72])
           ++ at_time 3010 (Hdlc.encode [0x81; 0x06; 0x01; 0x04; 0x03])
           ++ at_time 3015 (Hdlc.encode ([0x81; 0x06; 0x02] ++ text "OPENTHREAD"))
           ++ at_time 3020 (Hdlc.encode ([0x81; 0x06; 0x81; 0x78] ++ text "Acme" ++ [0]));
     next_handle := 0; open_handles := []; trace := [];
     port_present := true; image_readable := true; xmodem_script := [];
     xmodem_verdict := false |}.

(** The escape table as rows [(raw, code)], the escaping that uses only
    some of its rows, and the byte strings on which un-stuffing goes
    wrong: those in which [0x7D] is directly followed by one of the codes
    [5E 31 33 38 3A]. *)
Definition ash_table : list (Z * Z) :=
  [(0x7d, 0x5d); (0x7e, 0x5e); (0x11, 0x31); (0x13, 0x33); (0x18, 0x38);
   (0x1a, 0x3a)].

Fixpoint esc_with (rows : list (Z * Z)) (b : Z) : bytes :=
  match rows with
  | [] => [b]
  | (r, c) :: rows => if b =? r then [0x7d; c] else esc_with rows b
  end.

Fixpoint follows (a c : Z) (x : bytes) : bool :=
  match x with
  | [] => false
  | b :: tl =>
      match tl with
      | [] => false
      | b' :: _ => ((b =? a) && (b' =? c)) || follows a c tl
      end
  end.

Definition ambiguous (x : bytes) : bool :=
  follows 0x7d 0x5e x || follows 0x7d 0x31 x || follows 0x7d 0x33 x ||
  follows 0x7d 0x38 x || follows 0x7d 0x3a x.

(** [m] neither opens nor closes a session, however it ends. *)
Definition keeps_sessions {A} (m : M A) : Prop :=
  forall w r w',
    m w = (r, w') ->
    open_handles w' = open_handles w /\ next_handle w' = next_handle w.

(** The sessions [hs] are the open ones, and handles not yet handed out
    are not among them. *)
Definition holds (hs : list nat) (w : world) : Prop :=
  open_handles w = hs /\ Forall (fun h => (h < next_handle w)%nat) hs.

(** When [m] starts in a world satisfying [P] and returns [a], the world
    satisfies [Q a]; nothing is said of runs that raise. *)
Definition ensures {A} (m : M A) (P : world -> Prop) (Q : A -> world -> Prop)
  : Prop :=
  forall w r w',
    P w -> m w = (r, w') ->
    match r with
    | Ok a => Q a w'
    | _ => True
    end.

(** The bytes that must not travel unescaped inside an ASH frame: the
    flag, XON, XOFF, substitute and cancel. *)
Definition reserved_on_wire (b : Z) : bool :=
  (b =? 0x7e) || (b =? 0x11) || (b =? 0x13) || (b =? 0x18) || (b =? 0x1a).

(** The integer spelt by a sequence of 7-bit groups, least significant
    group first. *)
Definition groups_value (bs : bytes) : Z :=
  fold_right (fun b acc => Z.land b 0x7F + 128 * acc) 0 bs.

(** The FCS check a receiver makes on a frame whose FCS so far is [f]:
    feed the two bytes of the complement of [f], low byte first, and
    compare with the residual. *)
Definition residual_ok (f : Z) : bool :=
  let c := Z.lxor f 0xffff in
  Hdlc.fcs16 (Z.shiftr c 8) (Hdlc.fcs16 (Z.land c 0xFF) f) =? Hdlc.HDLC_FCS_GOOD.

(** The 256 values of a byte. *)
Definition byte_values : list Z := map Z.of_nat (seq 0 256).

(** The two FCS bytes [encode] appends to a payload, before escaping. *)
Definition fcs_trailer (payload : bytes) : bytes :=
  [Z.land (Z.lxor (fcs_of payload) 0xffff) 0xFF;
   Z.shiftr (Z.lxor (fcs_of payload) 0xffff) 8].

(** Nothing reaches the host within one read timeout. *)
Definition quiet (w : world) : Prop :=
  match rx w with
  | [] => True
  | (t, _) :: _ => now w + 3000 < t
  end.

(** A DATA frame before stuffing: control byte, whitened payload, CRC. *)
Definition ash_body (self : Ash.state) (ezsp_frame : bytes) : bytes :=
  let head :=
    [Z.land
       (Z.lor (Z.land (Z.shiftl (Ash.ackNum self) 0) 0xFF)
              (Z.land (Z.shiftl (Ash.frmNum self mod 8) 4) 0xFF))
       0xFF] ++ Ash.dataRandomize ezsp_frame in
  head ++ [Z.shiftr (crc_hqx head 0xFFFF) 8; Z.land (crc_hqx head 0xFFFF) 0xFF].

(** The images [ele_update] ships. *)
Definition shipped_images : list string :=
  [ "data/EFR32MG13/ELE_MG13_ot_rcp_123_220206.gbl";
    "data/EFR32MG13/ELE_MG13_zb_ncp_115200_610_211112.gbl";
    "data/EFR32MG21/ELU0143_MG21_ot_rcp_123_220131.gbl";
    "data/EFR32MG21/ELU0143_MG21_zb_ncp_6103_220131.gbl";
    "data/EFR32MG21/ELU0141_MG21_ot_rcp_123_211204.gbl";
    "data/EFR32MG21/ELU0141_MG21_zb_ncp_6103_211204.gbl" ]%string.

(** Events that open or close a session. *)
Definition session_event (e : event) : bool :=
  match e with
  | EvOpen _ _ | EvClose _ => true
  | _ => false
  end.

(** Replaying a trace from the open sessions [hs]: the sessions open at
    its end, or [None] if a session was opened while another was open. *)
Fixpoint replay (hs : list nat) (tr : list event) : option (list nat) :=
  match tr with
  | [] => Some hs
  | EvOpen h _ :: tr =>
      match hs with
      | [] => replay [h] tr
      | _ :: _ => None
      end
  | EvClose h :: tr =>
      replay (List.filter (fun h' => negb (Nat.eqb h h')) hs) tr
  | _ :: tr => replay hs tr
  end.

(** Events of the everyday traffic: writes, flushes, pauses, log lines
    and console output. *)
Definition ordinary (e : event) : bool :=
  match e with
  | EvWrite _ _ | EvFlushInput _ | EvSleep _ | EvLog _ _ _ | EvPrint _ => true
  | _ => false
  end.

(** Whatever way [m] ends, it has only added to the trace, and every
    event it added satisfies [phi]. *)
Definition adds (phi : event -> bool) {A} (m : M A) : Prop :=
  forall w r w',
    m w = (r, w') ->
    exists tr, trace w' = trace w ++ tr /\ forallb phi tr = true.

(** Whatever way [m] ends, it has added at most [n] writes to the
    trace. *)
Definition sends_at_most (n : nat) {A} (m : M A) : Prop :=
  forall w r w',
    m w = (r, w') ->
    exists tr, trace w' = trace w ++ tr /\ (length (written tr) <= n)%nat.

(** The trace so far extends [tr0] and replays, without overlap, to the
    open sessions [hs]. *)
Definition tracked (tr0 : list event) (hs : list nat) (w : world) : Prop :=
  replay [] (trace w) = Some hs /\ exists x, trace w = tr0 ++ x.

(** The trace extends [tr0] and replays without overlap. *)
Definition sound (tr0 : list event) (w : world) : Prop :=
  replay [] (trace w) <> None /\ exists x, trace w = tr0 ++ x.

(** From a world satisfying [P], [m] returns into [Q]; and however it
    ends (return, exception or no return) the trace is [sound]. *)
Definition triple {A} (tr0 : list event) (P : world -> Prop) (m : M A)
    (Q : A -> world -> Prop) : Prop :=
  forall w r w',
    P w -> m w = (r, w') ->
    sound tr0 w' /\
    match r with
    | Ok a => Q a w'
    | _ => True
    end.

(** An event is an upload of one of [files], or no upload at all. *)
Definition uploads_only (files : list string) (e : event) : bool :=
  match e with
  | EvXmodemSend f => existsb (String.eqb f) files
  | _ => true
  end.

(** Every event of the class [cls] satisfies [phi]. *)
Definition covers (cls phi : event -> bool) : Prop :=
  forall e, cls e = true -> phi e = true.

(** Every event but the start of an upload. *)
Definition routine (e : event) : bool :=
  match e with
  | EvXmodemSend _ => false
  | _ => true
  end.

(** [m] always ends, by a return or by an exception. *)
Definition ends {A} (m : M A) : Prop :=
  forall w, fst (m w) <> Hang.

(** * Properties *)

(** ** Whitening *)

Section Whitening.

Lemma randomize_fold frame : forall rand out,
  snd (fold_left Ash.randomize_step frame (rand, out)) = out ++ whiten rand frame.
Proof.
  induction frame as [|x rest IH]; intros rand out; simpl.
  - now rewrite app_nil_r.
  - unfold next_rand.
    destruct (negb (rand mod 2 =? 0)); rewrite IH, <- app_assoc; reflexivity.
Qed.

Lemma dataRandomize_whiten frame :
  Ash.dataRandomize frame = whiten Ash.RANDOMIZE_START frame.
Proof. unfold Ash.dataRandomize. now rewrite randomize_fold. Qed.

Lemma whiten_whiten frame : forall rand, whiten rand (whiten rand frame) = frame.
Proof.
  induction frame as [|x rest IH]; intros rand; simpl; [reflexivity|].
  rewrite IH. f_equal.
  rewrite Z.lxor_assoc, Z.lxor_nilpotent. apply Z.lxor_0_r.
Qed.

Lemma whiten_length frame : forall rand, length (whiten rand frame) = length frame.
Proof. induction frame; intros; simpl; auto. Qed.

Lemma log2_byte a : byte_ok a -> Z.log2 a < 8.
Proof.
  unfold byte_ok. intros H.
  destruct (Z.eq_dec a 0) as [->|Hne]; [reflexivity|].
  apply Z.log2_lt_pow2; lia.
Qed.

Lemma lxor_byte a b : byte_ok a -> byte_ok b -> byte_ok (Z.lxor a b).
Proof.
  intros Ha Hb.
  pose proof (log2_byte a Ha). pose proof (log2_byte b Hb).
  unfold byte_ok in *.
  assert (Hnn : 0 <= Z.lxor a b) by (apply Z.lxor_nonneg; lia).
  split; [exact Hnn|].
  destruct (Z.eq_dec (Z.lxor a b) 0) as [->|Hne]; [lia|].
  change 256 with (2 ^ 8). apply Z.log2_lt_pow2; [lia|].
  pose proof (Z.log2_lxor a b). lia.
Qed.

Lemma next_rand_byte rand : byte_ok rand -> byte_ok (next_rand rand).
Proof.
  intros H. unfold next_rand.
  assert (Hs : byte_ok (Z.shiftr rand 1)).
  { unfold byte_ok in *. rewrite Z.shiftr_div_pow2 by lia.
    change (2 ^ 1) with 2. split; [apply Z.div_pos; lia|].
    apply Z.div_lt_upper_bound; lia. }
  destruct (negb (rand mod 2 =? 0)); [|exact Hs].
  apply lxor_byte; [exact Hs|]. unfold byte_ok, Ash.RANDOMIZE_SEQ. lia.
Qed.

Lemma whiten_bytes_ok frame : forall rand,
  byte_ok rand -> bytes_ok frame -> bytes_ok (whiten rand frame).
Proof.
  induction frame as [|x rest IH]; intros rand Hr Hf; simpl.
  - constructor.
  - inversion Hf; subst. constructor.
    + now apply lxor_byte.
    + apply IH; [now apply next_rand_byte | assumption].
Qed.

(** Every value [dataRandomize] hands to [bytearray([...])] is a byte. *)
Lemma dataRandomize_bytes_ok frame :
  bytes_ok frame -> bytes_ok (Ash.dataRandomize frame).
Proof.
  intros H. rewrite dataRandomize_whiten.
  apply whiten_bytes_ok; [|exact H].
  unfold byte_ok, Ash.RANDOMIZE_START. lia.
Qed.

(** C2. Whitening is an involution: applying [dataRandomize] twice gives
    back the byte string it started from. *)
Theorem dataRandomize_involutive (x : bytes) :
  Ash.dataRandomize (Ash.dataRandomize x) = x.
Proof. rewrite !dataRandomize_whiten. apply whiten_whiten. Qed.

End Whitening.

(** ** CRC of the ACK frame *)

(** C3, as stated, fails: the CRC of the single byte [0x80] from the
    initial value [0xFFFF] is not [0x2672]. *)
Lemma crc_ack0_is_not_2672 : crc_hqx [0x80] 0xFFFF <> 0x2672.
Proof. vm_compute. discriminate. Qed.

(** C3, amended. The CRC-16/CCITT of the single byte [0x80] from the
    initial value [0xFFFF] is [0x7078], and the ACK frame for
    [ack_num = 0] is [80 70 78 7E]. *)
Theorem crc_ack0 :
  crc_hqx [0x80] 0xFFFF = 0x7078 /\
  Ash.ack_frame 0 = [0x80; 0x70; 0x78; 0x7E].
Proof. split; vm_compute; reflexivity. Qed.

(** What [sendAck] puts on the wire is that frame. *)
Lemma sendAck_writes self ackNum w :
  Serial.is_open (Ash.serial self) w = true ->
  Ash.sendAck self ackNum w =
    (Ok tt, emit (EvWrite (Ash.serial self) (Ash.ack_frame ackNum)) w).
Proof. intros H. unfold Ash.sendAck, Serial.write. now rewrite H. Qed.

(** ** Byte stuffing *)

Section Stuffing.

Lemma replace1_app old new l1 l2 :
  replace1 old new (l1 ++ l2) = replace1 old new l1 ++ replace1 old new l2.
Proof.
  induction l1 as [|a l1 IH]; simpl; [reflexivity|].
  destruct (a =? old); rewrite IH; [now rewrite app_assoc | reflexivity].
Qed.

Lemma replaceReservedBytes_app l1 l2 :
  Ash.replaceReservedBytes (l1 ++ l2) =
  Ash.replaceReservedBytes l1 ++ Ash.replaceReservedBytes l2.
Proof. unfold Ash.replaceReservedBytes. now rewrite !replace1_app. Qed.

Lemma replaceReservedBytes_one b : Ash.replaceReservedBytes [b] = esc b.
Proof.
  unfold Ash.replaceReservedBytes, esc. simpl.
  destruct (b =? 125) eqn:E1; simpl; [reflexivity|].
  destruct (b =? 126) eqn:E2; simpl; [reflexivity|].
  destruct (b =? 17) eqn:E3; simpl; [reflexivity|].
  destruct (b =? 19) eqn:E4; simpl; [reflexivity|].
  destruct (b =? 24) eqn:E5; simpl; [reflexivity|].
  destruct (b =? 26) eqn:E6; simpl; reflexivity.
Qed.

(** Stuffing works byte by byte, following the escape table. *)
Lemma replaceReservedBytes_esc x :
  Ash.replaceReservedBytes x = flat_map esc x.
Proof.
  induction x as [|b x IH]; [reflexivity|].
  change (b :: x) with ([b] ++ x).
  rewrite replaceReservedBytes_app, replaceReservedBytes_one, IH. reflexivity.
Qed.

Lemma esc_no_flag b : ~ In 0x7E (esc b).
Proof.
  unfold esc.
  repeat match goal with
         | |- context [if ?c then _ else _] => destruct c eqn:?
         end; simpl; lia.
Qed.

(** The stuffed frame never holds the flag byte, whatever went in. *)
Lemma replaceReservedBytes_no_flag x : ~ In 0x7E (Ash.replaceReservedBytes x).
Proof.
  rewrite replaceReservedBytes_esc. rewrite in_flat_map.
  intros (b & _ & H). exact (esc_no_flag b H).
Qed.

Lemma replace2_skip o1 o2 new a tl :
  a <> o1 -> replace2 o1 o2 new (a :: tl) = a :: replace2 o1 o2 new tl.
Proof.
  intros H. destruct tl as [|b tl]; [reflexivity|].
  cbn [replace2]. destruct (a =? o1) eqn:E; [lia | reflexivity].
Qed.

Lemma replace2_hit o1 o2 new tl :
  replace2 o1 o2 new (o1 :: o2 :: tl) = new ++ replace2 o1 o2 new tl.
Proof. cbn [replace2]. now rewrite !Z.eqb_refl. Qed.

Lemma replace2_miss o1 o2 new b tl :
  b <> o2 ->
  replace2 o1 o2 new (o1 :: b :: tl) = o1 :: replace2 o1 o2 new (b :: tl).
Proof.
  intros H. cbn [replace2]. rewrite Z.eqb_refl.
  destruct (b =? o2) eqn:E; [lia | reflexivity].
Qed.

Lemma esc_with_cases rows b :
  (exists c, In (b, c) rows /\ esc_with rows b = [0x7d; c]) \/
  (~ In b (map fst rows) /\ esc_with rows b = [b]).
Proof.
  induction rows as [|[r c] rows IH]; cbn [esc_with map fst In].
  - right. auto.
  - destruct (b =? r) eqn:E.
    + apply Z.eqb_eq in E. subst. left. eauto.
    + apply Z.eqb_neq in E. destruct IH as [(c' & Hin & He) | [Hn He]].
      * left. eauto.
      * right. split; [|exact He]. intros [H|H]; [congruence | contradiction].
Qed.

(** One pass of [revertEscapedBytes]: on a string escaped with the rows
    [(r, c) :: rows] it undoes the row [(r, c)], provided a raw [0x7D]
    is never followed by the code [c]. *)
Lemma revert_pass r c rows x :
  c <> 0x7d ->
  Forall (fun rc => snd rc <> c /\ snd rc <> 0x7d /\ fst rc <> r) rows ->
  r = 0x7d \/ In 0x7d (map fst rows) \/ follows 0x7d c x = false ->
  replace2 0x7d c [r] (flat_map (esc_with ((r, c) :: rows)) x) =
  flat_map (esc_with rows) x.
Proof.
  intros Hc Hrows.
  set (E := esc_with ((r, c) :: rows)).
  assert (HE : forall b, E b = if b =? r then [0x7d; c] else esc_with rows b)
    by reflexivity.
  induction x as [|b x IH]; intros Hsafe; [reflexivity|].
  assert (Hsafe' : r = 0x7d \/ In 0x7d (map fst rows) \/ follows 0x7d c x = false).
  { destruct Hsafe as [H|[H|H]]; auto. right. right.
    destruct x as [|b' x]; [reflexivity|].
    cbn [follows] in H. apply orb_false_elim in H as [_ H]. exact H. }
  specialize (IH Hsafe'). cbn [flat_map]. rewrite HE.
  destruct (b =? r) eqn:Er.
  - apply Z.eqb_eq in Er. subst b. cbn [app].
    rewrite replace2_hit, IH.
    destruct (esc_with_cases rows r) as [(c' & Hin & _) | [_ ->]]; [|reflexivity].
    rewrite Forall_forall in Hrows. apply list_elem_of_In in Hin.
    destruct (Hrows _ Hin) as (_ & _ & H). cbn in H. congruence.
  - apply Z.eqb_neq in Er.
    destruct (esc_with_cases rows b) as [(c' & Hin & ->) | [Hnot ->]].
    + rewrite Forall_forall in Hrows. apply list_elem_of_In in Hin.
      destruct (Hrows _ Hin) as (H1 & H2 & _). cbn in H1, H2. cbn [app].
      rewrite replace2_miss, replace2_skip, IH by assumption. reflexivity.
    + cbn [app]. destruct (Z.eq_dec b 0x7d) as [->|Hb].
      * (* a raw 0x7D: what follows must not start with the code *)
        destruct Hsafe as [H|[H|H]]; [congruence | contradiction |].
        destruct x as [|b' x]; [reflexivity|].
        cbn [follows] in H. apply orb_false_elim in H as [H _].
        rewrite Z.eqb_refl in H. cbn in H. apply Z.eqb_neq in H.
        rewrite <- IH. cbn [flat_map]. rewrite HE.
        destruct (b' =? r); [cbn [app]; now rewrite replace2_miss|].
        destruct (esc_with_cases rows b') as [(c' & _ & ->) | [_ ->]];
          cbn [app]; now rewrite replace2_miss.
      * rewrite replace2_skip, IH by assumption. reflexivity.
Qed.

Lemma flat_map_singleton (x : bytes) : flat_map (esc_with []) x = x.
Proof.
  induction x as [|b x IH]; [reflexivity|].
  cbn [flat_map]. rewrite IH. reflexivity.
Qed.

(** The round trip of C1 on the byte strings where it holds: those in
    which no [0x7D] is directly followed by [5E], [31], [33], [38] or
    [3A] - in particular every string without [0x7D]. *)
Lemma revert_replace_unambiguous x :
  ambiguous x = false ->
  Ash.revertEscapedBytes (Ash.replaceReservedBytes x) = x.
Proof.
  unfold ambiguous. intros H.
  repeat (apply orb_false_elim in H as [H ?]).
  rewrite replaceReservedBytes_esc.
  change esc with (esc_with ash_table).
  unfold Ash.revertEscapedBytes, ash_table.
  rewrite revert_pass; [| lia | repeat constructor; cbn; lia | auto].
  rewrite revert_pass; [| lia | repeat constructor; cbn; lia | auto].
  rewrite revert_pass; [| lia | repeat constructor; cbn; lia | auto].
  rewrite revert_pass; [| lia | repeat constructor; cbn; lia | auto].
  rewrite revert_pass; [| lia | repeat constructor; cbn; lia | auto].
  rewrite revert_pass; [| lia | repeat constructor; cbn; lia | auto].
  apply flat_map_singleton.
Qed.

(** C1. Un-stuffing does not invert stuffing.  The frame [7D 5E] is
    stuffed to [7D 5D 5E]; [revertEscapedBytes] first turns [7D 5D] into
    [7D] and then takes the [7D 5E] it has just created for an escaped
    flag: it returns [7E].  (The other half of the claim holds: see
    [replaceReservedBytes_no_flag].) *)
Theorem revertEscapedBytes_not_inverse :
  Ash.replaceReservedBytes [0x7D; 0x5E] = [0x7D; 0x5D; 0x5E] /\
  Ash.revertEscapedBytes (Ash.replaceReservedBytes [0x7D; 0x5E]) = [0x7E] /\
  Ash.revertEscapedBytes (Ash.replaceReservedBytes [0x7D; 0x5E]) <> [0x7D; 0x5E].
Proof. repeat split. vm_compute. discriminate. Qed.

End Stuffing.

(** ** Spinel variable-length integers *)

Section Varint.

Local Arguments Z.testbit : simpl never.
Local Arguments Z.land : simpl never.
Local Arguments Z.lor : simpl never.
Local Arguments Z.shiftr : simpl never.
Local Arguments Z.shiftl : simpl never.

Lemma encode_i_loop_unfold fuel data acc :
  Spinel.encode_i_loop (S fuel) data acc =
  if negb (data =? 0) then
    Spinel.encode_i_loop fuel (Z.shiftr data 7)
      (acc ++ [if negb (Z.shiftr data 7 =? 0)
               then Z.lor (Z.land data 0x7F) 0x80 else Z.land data 0x7F])
  else Some acc.
Proof. reflexivity. Qed.

(** On a negative argument the loop of [encode_i] never ends: no amount
    of fuel lets it return. *)
Lemma encode_i_loop_negative fuel : forall data acc,
  data < 0 -> Spinel.encode_i_loop fuel data acc = None.
Proof.
  induction fuel as [|fuel IH]; intros data acc H; [reflexivity|].
  rewrite encode_i_loop_unfold.
  destruct (data =? 0) eqn:E; [lia|]. simpl negb. cbv iota.
  apply IH. apply Z.shiftr_neg. exact H.
Qed.

Lemma land_127_range d : 0 <= Z.land d 0x7F < 128.
Proof.
  change 127 with (Z.ones 7). rewrite Z.land_ones by lia.
  change (2 ^ 7) with 128. apply Z.mod_pos_bound. lia.
Qed.

Lemma lor_byte a b : byte_ok a -> byte_ok b -> byte_ok (Z.lor a b).
Proof.
  intros Ha Hb.
  pose proof (log2_byte a Ha). pose proof (log2_byte b Hb).
  unfold byte_ok in *.
  assert (Hnn : 0 <= Z.lor a b) by (apply Z.lor_nonneg; lia).
  split; [exact Hnn|].
  destruct (Z.eq_dec (Z.lor a b) 0) as [->|Hne]; [lia|].
  change 256 with (2 ^ 8). apply Z.log2_lt_pow2; [lia|].
  rewrite Z.log2_lor by lia. lia.
Qed.

Lemma small_bit7 v : 0 <= v < 128 -> Z.testbit v 7 = false.
Proof.
  intros H. destruct (Z.eq_dec v 0) as [->|Hne]; [reflexivity|].
  apply Z.bits_above_log2; [lia|].
  apply Z.log2_lt_pow2; [lia|]. change (2 ^ 7) with 128. lia.
Qed.

Lemma split_groups d : Z.land d 0x7F + Z.shiftl (Z.shiftr d 7) 7 = d.
Proof.
  change 127 with (Z.ones 7). rewrite Z.land_ones by lia.
  rewrite Z.shiftr_div_pow2, Z.shiftl_mul_pow2 by lia.
  change (2 ^ 7) with 128. pose proof (Z.div_mod d 128). lia.
Qed.

Lemma continuation_low v : Z.land (Z.lor (Z.land v 0x7F) 0x80) 0x7F = Z.land v 0x7F.
Proof.
  rewrite Z.land_lor_distr_l, <- Z.land_assoc.
  change (Z.land 127 127) with 127. change (Z.land 128 127) with 0.
  apply Z.lor_0_r.
Qed.

Lemma continuation_bit v : Z.testbit (Z.lor (Z.land v 0x7F) 0x80) 7 = true.
Proof. rewrite Z.lor_spec. change (Z.testbit 128 7) with true. apply orb_true_r. Qed.

(** With enough fuel the loop returns on every positive argument, and
    what it returns decodes to that argument, whatever follows. *)
Lemma encode_i_loop_positive fuel : forall data acc,
  0 < data < 2 ^ Z.of_nat fuel ->
  exists bs,
    Spinel.encode_i_loop (S fuel) data acc = Some (acc ++ bs) /\
    bs <> [] /\ bytes_ok bs /\
    forall rest, decode_varint (bs ++ rest) = Some (data, rest).
Proof.
  induction fuel as [|fuel IH]; intros data acc H.
  - simpl in H. lia.
  - rewrite encode_i_loop_unfold.
    destruct (data =? 0) eqn:E0; [lia|]. simpl negb. cbv iota.
    pose proof (land_127_range data) as Hlow.
    assert (Hsh : 0 <= Z.shiftr data 7) by (apply Z.shiftr_nonneg; lia).
    destruct (Z.shiftr data 7 =? 0) eqn:E1; simpl negb; cbv iota.
    + apply Z.eqb_eq in E1. rewrite E1.
      exists [Z.land data 127]. rewrite encode_i_loop_unfold. simpl.
      pose proof (split_groups data) as Hs. rewrite E1 in Hs. simpl in Hs.
      rewrite Z.add_0_r in Hs.
      repeat split; try discriminate.
      * constructor; [unfold byte_ok; lia | constructor].
      * intros rest. cbn [decode_varint app].
        rewrite (small_bit7 _ Hlow). now rewrite Hs.
    + apply Z.eqb_neq in E1.
      assert (Hb : Z.shiftr data 7 < 2 ^ Z.of_nat fuel).
      { rewrite Z.shiftr_div_pow2 by lia. change (2 ^ 7) with 128.
        apply Z.div_lt_upper_bound; [lia|].
        rewrite Nat2Z.inj_succ, Z.pow_succ_r in H by lia. lia. }
      destruct (IH (Z.shiftr data 7)
                  (acc ++ [Z.lor (Z.land data 127) 128])) as (bs & He & Hne & Hok & Hd);
        [lia|].
      exists (Z.lor (Z.land data 127) 128 :: bs).
      rewrite He, <- app_assoc. repeat split; try discriminate.
      * constructor; [|exact Hok].
        apply lor_byte; unfold byte_ok; lia.
      * intros rest. cbn [decode_varint app].
        rewrite continuation_bit, Hd, continuation_low.
        now rewrite split_groups.
Qed.

Lemma encode_i_positive n :
  0 < n ->
  exists bs,
    Spinel.encode_i n = Ok bs /\ bs <> [] /\ bytes_ok bs /\
    forall rest, decode_varint (bs ++ rest) = Some (n, rest).
Proof.
  intros H. unfold Spinel.encode_i.
  replace (Z.to_nat (Z.log2 n) + 2)%nat with (S (Z.to_nat (Z.log2 n) + 1)) by lia.
  destruct (encode_i_loop_positive (Z.to_nat (Z.log2 n) + 1) n [])
    as (bs & He & Hne & Hok & Hd).
  - pose proof (Z.log2_spec n H). pose proof (Z.log2_nonneg n).
    replace (Z.of_nat (Z.to_nat (Z.log2 n) + 1)) with (Z.succ (Z.log2 n)) by lia.
    lia.
  - exists bs. rewrite He. auto.
Qed.

(** The round trip of the claim, on the arguments where it holds: every
    positive integer, hence all of [1, 2^32). *)
Lemma varint_roundtrip_positive n rest :
  0 < n ->
  exists bs, Spinel.encode_i n = Ok bs /\ decode_varint (bs ++ rest) = Some (n, rest).
Proof.
  intros H. destruct (encode_i_positive n H) as (bs & He & _ & _ & Hd).
  exists bs. auto.
Qed.

Lemma encode_i_15360 : Spinel.encode_i 15360 = Ok [0x80; 0x78].
Proof. reflexivity. Qed.

Lemma decode_varint_shorter bs : forall v rest,
  decode_varint bs = Some (v, rest) -> (length rest < length bs)%nat.
Proof.
  induction bs as [|b bs IH]; intros v rest H; simpl in H; [discriminate|].
  destruct (Z.testbit b 7).
  - destruct (decode_varint bs) as [[v' r']|] eqn:E; [|discriminate].
    injection H as _ <-. specialize (IH _ _ eq_refl). simpl. lia.
  - injection H as _ <-. simpl. lia.
Qed.

(** C5. The round trip fails at [n = 0]: the loop of [encode_i] is not
    entered and the encoding is the empty byte string, not the byte
    [0x00].  A decoder has nothing to read, and inside a packet it takes
    the bytes that follow for the integer: whatever follows, it does not
    give back [0] and leave those bytes in place. *)
Theorem encode_i_zero_is_empty :
  Spinel.encode_i 0 = Ok [] /\
  decode_varint [] = None /\
  forall rest, decode_varint ([] ++ rest) <> Some (0, rest).
Proof.
  repeat split.
  intros rest Hd. simpl in Hd.
  apply decode_varint_shorter in Hd. lia.
Qed.

End Varint.

(** ** EZSP header and the counters *)

Section Counters.

Local Arguments Z.land : simpl never.
Local Arguments Z.shiftr : simpl never.

Lemma bytearray1_ok v : byte_ok v -> bytearray1 v = Ok [v].
Proof.
  unfold byte_ok, bytearray1, is_byte. intros H.
  destruct (0 <=? v) eqn:E1; [|lia]. destruct (v <? 256) eqn:E2; [|lia].
  reflexivity.
Qed.

Lemma is_byte_ok v : byte_ok v -> is_byte v = true.
Proof.
  unfold byte_ok, is_byte. intros H.
  destruct (0 <=? v) eqn:E1; [|lia]. destruct (v <? 256) eqn:E2; [|lia].
  reflexivity.
Qed.

Lemma setitem_ok i v (l : bytes) :
  (i < length l)%nat -> byte_ok v -> setitem i v l = Ok (<[i:=v]> l).
Proof.
  intros Hi Hv. unfold setitem.
  destruct (i <? length l)%nat eqn:E; [|apply Nat.ltb_ge in E; lia].
  now rewrite (is_byte_ok _ Hv).
Qed.

Lemma land_255_byte c : byte_ok c -> Z.land c 0xFF = c.
Proof.
  unfold byte_ok. intros H. change 255 with (Z.ones 8).
  rewrite Z.land_ones by lia. apply Z.mod_small. exact H.
Qed.

Lemma shiftr_8_byte c : byte_ok c -> Z.shiftr c 8 = 0.
Proof.
  unfold byte_ok. intros H. rewrite Z.shiftr_div_pow2 by lia.
  apply Z.div_small. exact H.
Qed.

(** What [ezspFrameBuilder] returns on a non-empty command body. *)
Lemma ezspFrameBuilder_spec (self : Ezsp.state) (cmd_id : Z) (args : bytes) :
  byte_ok (Ezsp.sequenceNum self) ->
  byte_ok cmd_id ->
  Ezsp.ezspFrameBuilder self (cmd_id :: args) =
    Ok ((if 8 <=? Ezsp.ezspVersion self
         then [Ezsp.sequenceNum self; 0x00; 0x01; cmd_id; 0x00]
         else if 5 <=? Ezsp.ezspVersion self
              then [Ezsp.sequenceNum self; 0x00; 0xFF; 0x00; cmd_id]
              else [Ezsp.sequenceNum self; 0x00; cmd_id]) ++ args,
        Ezsp.set_sequenceNum ((Ezsp.sequenceNum self + 1) mod 255) self).
Proof.
  intros Hseq Hcmd. unfold Ezsp.ezspFrameBuilder.
  rewrite (bytearray1_ok _ Hseq). cbn [rbind].
  cbn [Ezsp.ezspVersion Ezsp.set_sequenceNum].
  destruct (5 <=? Ezsp.ezspVersion self) eqn:E5;
    destruct (8 <=? Ezsp.ezspVersion self) eqn:E8; try lia; try reflexivity.
  cbn [app].
  rewrite setitem_ok by (simpl; unfold byte_ok; lia).
  cbn [rbind getitem lookup list_lookup].
  rewrite (land_255_byte _ Hcmd), (shiftr_8_byte _ Hcmd).
  rewrite setitem_ok by (simpl; unfold byte_ok in *; lia).
  cbn [rbind].
  rewrite setitem_ok by (simpl; unfold byte_ok; lia).
  reflexivity.
Qed.

(** C6. The EZSP header follows the negotiated version: for a command
    body [cmd_id :: args] the frame is [seq, 00, cmd_id, args...] up to
    version 4, [seq, 00, FF, 00, cmd_id, args...] for versions 5 to 7,
    and [seq, 00, 01, low, high, args...] from version 8 on, where
    [low] and [high] are the two little-endian bytes of the command
    ID; [seq] is the sequence number before the call. *)
Theorem ezspFrameBuilder_layout (self : Ezsp.state) (cmd_id : Z) (args : bytes) :
  byte_ok (Ezsp.sequenceNum self) ->
  byte_ok cmd_id ->
  exists frame self',
    Ezsp.ezspFrameBuilder self (cmd_id :: args) = Ok (frame, self') /\
    (Ezsp.ezspVersion self <= 4 ->
       frame = [Ezsp.sequenceNum self; 0x00; cmd_id] ++ args) /\
    (5 <= Ezsp.ezspVersion self <= 7 ->
       frame = [Ezsp.sequenceNum self; 0x00; 0xFF; 0x00; cmd_id] ++ args) /\
    (8 <= Ezsp.ezspVersion self ->
       frame = [Ezsp.sequenceNum self; 0x00; 0x01;
                Z.land cmd_id 0xFF; Z.shiftr cmd_id 8] ++ args /\
       Z.land cmd_id 0xFF + 256 * Z.shiftr cmd_id 8 = cmd_id).
Proof.
  intros Hseq Hcmd. eexists _, _.
  split; [apply ezspFrameBuilder_spec; assumption|].
  rewrite (land_255_byte _ Hcmd), (shiftr_8_byte _ Hcmd).
  destruct (5 <=? Ezsp.ezspVersion self) eqn:E5;
    destruct (8 <=? Ezsp.ezspVersion self) eqn:E8;
    repeat split; intros; first [lia | reflexivity].
Qed.

Lemma ezspFrameBuilder_layout_witness :
  exists frame self',
    Ezsp.ezspFrameBuilder (Ezsp.set_ezspVersion 8 (Ezsp.init 0)) [0xAA; 0x11]
      = Ok (frame, self') /\
    frame = [0x00; 0x00; 0x01; 0xAA; 0x00; 0x11].
Proof.
  destruct (ezspFrameBuilder_layout (Ezsp.set_ezspVersion 8 (Ezsp.init 0))
              0xAA [0x11]) as (frame & self' & He & _ & _ & H8).
  - unfold byte_ok. simpl. lia.
  - unfold byte_ok. lia.
  - exists frame, self'. split; [exact He|].
    destruct H8 as [-> _]; [simpl; lia | reflexivity].
Defined.

Lemma ashFrameBuilder_state self f :
  snd (Ash.ashFrameBuilder self f) =
    {| Ash.serial := Ash.serial self;
       Ash.ackNum := (Ash.ackNum self + 1) mod 8;
       Ash.frmNum := (Ash.frmNum self + 1) mod 8 |}.
Proof. reflexivity. Qed.

(** One request / response / ACK exchange leaves the counters where the
    DATA frame put them: the ACK that answers the response moves
    neither. *)
Lemma sendAshCommand_state self f w status resp self' w' :
  Ash.sendAshCommand self f w = (Ok (status, resp, self'), w') ->
  self' = snd (Ash.ashFrameBuilder self f).
Proof.
  unfold Ash.sendAshCommand.
  destruct (Ash.ashFrameBuilder self f) as [ash_frame s1]. cbn [snd].
  unfold bind.
  destruct (Serial.flushInput _ w) as [[[]|e|] w1]; try discriminate.
  destruct (Serial.write _ _ w1) as [[[]|e|] w2]; try discriminate.
  destruct (Ash.getResponse s1 true w2) as [[[[st ar] er]|e|] w3]; try discriminate.
  destruct (negb (st =? 0)).
  - unfold ret. congruence.
  - destruct ar as [ar|]; [|discriminate].
    destruct (lift (getitem ar 0) w3) as [[c|e|] w4]; try discriminate.
    destruct (Ash.sendAck s1 c w4) as [[[]|e|] w5]; try discriminate.
    unfold ret. congruence.
Qed.

Lemma data_frames_frmNum frames : forall self,
  0 <= Ash.frmNum self < 8 ->
  Ash.frmNum (data_frames self frames) =
    (Ash.frmNum self + Z.of_nat (length frames)) mod 8.
Proof.
  induction frames as [|f frames IH]; intros self H.
  - simpl. rewrite Z.add_0_r, Z.mod_small; auto.
  - change (data_frames self (f :: frames))
      with (data_frames (snd (Ash.ashFrameBuilder self f)) frames).
    rewrite IH; rewrite ashFrameBuilder_state; cbn [Ash.frmNum].
    + rewrite Zplus_mod_idemp_l. f_equal. cbn [length]. lia.
    + apply Z.mod_pos_bound. lia.
Qed.

Lemma ezsp_commands_sequenceNum (cmds : list bytes) : forall self,
  0 <= Ezsp.sequenceNum self < 255 ->
  Forall (fun c => c <> [] /\ bytes_ok c) cmds ->
  exists self',
    ezsp_commands self cmds = Ok self' /\
    Ezsp.sequenceNum self' =
      (Ezsp.sequenceNum self + Z.of_nat (length cmds)) mod 255.
Proof.
  induction cmds as [|c cmds IH]; intros self H Hc.
  - exists self. split; [reflexivity|].
    simpl. rewrite Z.add_0_r, Z.mod_small; auto.
  - inversion Hc as [|? ? [Hne Hok] Hrest]; subst.
    destruct c as [|cmd_id args]; [congruence|].
    inversion Hok; subst.
    cbn [ezsp_commands].
    rewrite ezspFrameBuilder_spec by (unfold byte_ok in *; lia || assumption).
    cbn [rbind snd].
    destruct (IH (Ezsp.set_sequenceNum ((Ezsp.sequenceNum self + 1) mod 255) self))
      as (self' & He & Hs); [cbn; apply Z.mod_pos_bound; lia | assumption |].
    exists self'. split; [exact He|].
    rewrite Hs. cbn [Ezsp.sequenceNum Ezsp.set_sequenceNum].
    rewrite Zplus_mod_idemp_l. f_equal. cbn [length]. lia.
Qed.

(** Whenever [ezspFrameBuilder] returns, it has advanced the sequence
    number by one modulo 255, whatever the version and the command. *)
Lemma ezspFrameBuilder_advances (self : Ezsp.state) (command : bytes) frame self' :
  Ezsp.ezspFrameBuilder self command = Ok (frame, self') ->
  Ezsp.sequenceNum self' = (Ezsp.sequenceNum self + 1) mod 255.
Proof.
  unfold Ezsp.ezspFrameBuilder. intros H.
  destruct (bytearray1 (Ezsp.sequenceNum self)); cbn [rbind] in H;
    try discriminate H.
  match type of H with
  | (if ?c then _ else _) = _ => destruct c
  end.
  - repeat match type of H with
           | rbind ?r _ = _ => destruct r; cbn [rbind] in H; try discriminate H
           end.
    injection H as _ <-. reflexivity.
  - injection H as _ <-. reflexivity.
Qed.

(** C7. The ASH counters start at 0; building a DATA frame advances
    [ackNum] and [frmNum] by one modulo 8 each, and a whole exchange
    (DATA frame out, response in, ACK out) leaves them exactly there: the
    ACK moves neither ([sendAck] is handed the object and assigns none of
    its attributes).  After 8 DATA frames [frmNum] is 0 again.  Likewise
    every call of [ezspFrameBuilder] on a command [cmd_id :: args] of
    bytes returns and advances [sequenceNum] by one modulo 255, no call
    that returns does anything else to it, and after 255 EZSP commands
    [sequenceNum] is 0 again. *)
Theorem counters_advance_and_wrap
    (h : nat) (self : Ash.state) (frame : bytes) (w : world)
    (frames : list bytes) (ezsp : Ezsp.state) (cmds : list bytes) :
  length frames = 8%nat ->
  Ezsp.sequenceNum ezsp = 0 ->
  length cmds = 255%nat ->
  Forall (fun c => c <> [] /\ bytes_ok c) cmds ->
  (Ash.ackNum (Ash.init h) = 0 /\ Ash.frmNum (Ash.init h) = 0) /\
  (Ash.ackNum (snd (Ash.ashFrameBuilder self frame)) = (Ash.ackNum self + 1) mod 8 /\
   Ash.frmNum (snd (Ash.ashFrameBuilder self frame)) = (Ash.frmNum self + 1) mod 8) /\
  (forall status resp self' w',
     Ash.sendAshCommand self frame w = (Ok (status, resp, self'), w') ->
     Ash.ackNum self' = (Ash.ackNum self + 1) mod 8 /\
     Ash.frmNum self' = (Ash.frmNum self + 1) mod 8) /\
  Ash.frmNum (data_frames (Ash.init h) frames) = 0 /\
  (forall (e : Ezsp.state) (cmd_id : Z) (args : bytes),
     byte_ok (Ezsp.sequenceNum e) -> byte_ok cmd_id ->
     exists ezsp_frame e',
       Ezsp.ezspFrameBuilder e (cmd_id :: args) = Ok (ezsp_frame, e') /\
       Ezsp.sequenceNum e' = (Ezsp.sequenceNum e + 1) mod 255) /\
  (forall (e : Ezsp.state) (command ezsp_frame : bytes) (e' : Ezsp.state),
     Ezsp.ezspFrameBuilder e command = Ok (ezsp_frame, e') ->
     Ezsp.sequenceNum e' = (Ezsp.sequenceNum e + 1) mod 255) /\
  exists ezsp',
    ezsp_commands ezsp cmds = Ok ezsp' /\ Ezsp.sequenceNum ezsp' = 0.
Proof.
  intros Hf Hs Hc Hok.
  split; [split; reflexivity|]. split; [split; reflexivity|].
  split; [|split; [|split; [|split]]].
  - intros status resp self' w' H.
    apply sendAshCommand_state in H. subst self'. split; reflexivity.
  - rewrite data_frames_frmNum by (simpl; lia). rewrite Hf. reflexivity.
  - intros e cmd_id args He Hcmd. eexists _, _.
    split; [apply (ezspFrameBuilder_spec e cmd_id args He Hcmd) | reflexivity].
  - intros e command ezsp_frame e'. apply ezspFrameBuilder_advances.
  - destruct (ezsp_commands_sequenceNum cmds ezsp) as (e' & He & Hq);
      [lia | assumption |].
    exists e'. split; [exact He|]. rewrite Hq, Hs, Hc. reflexivity.
Qed.

Lemma counters_advance_and_wrap_witness :
  Ash.frmNum (data_frames (Ash.init 0) (repeat [0x00; 0x04] 8)) = 0 /\
  (exists ezsp_frame e',
     Ezsp.ezspFrameBuilder (Ezsp.set_sequenceNum 254 (Ezsp.init 0)) [0xAA; 0x11]
       = Ok (ezsp_frame, e') /\
     Ezsp.sequenceNum e' = 0) /\
  exists ezsp',
    ezsp_commands (Ezsp.init 0) (repeat [0xAA; 0x11] 255) = Ok ezsp' /\
    Ezsp.sequenceNum ezsp' = 0.
Proof.
  destruct (counters_advance_and_wrap 0 (Ash.init 0) [] silent
              (repeat [0x00; 0x04] 8) (Ezsp.init 0) (repeat [0xAA; 0x11] 255))
    as (_ & _ & _ & H8 & Hcall & _ & H255).
  - reflexivity.
  - reflexivity.
  - reflexivity.
  - apply Forall_forall. intros c Hin.
    apply list_elem_of_In, repeat_spec in Hin. subst c.
    split; [discriminate|]. repeat constructor; unfold byte_ok; lia.
  - split; [exact H8|]. split; [|exact H255].
    apply (Hcall (Ezsp.set_sequenceNum 254 (Ezsp.init 0)) 0xAA [0x11]);
      unfold byte_ok; simpl; lia.
Defined.

End Counters.

(** ** HDLC-Lite reception *)

Section HdlcReceive.

Local Arguments Z.lxor : simpl never.
Local Arguments Hdlc.fcs16 : simpl never.

Lemma int_from_bytes_one b : Hdlc.int_from_bytes [b] = b.
Proof. unfold Hdlc.int_from_bytes. simpl. lia. Qed.

Lemma read_item h w t b r :
  Serial.is_open h w = true ->
  rx w = (t, b) :: r ->
  t <= now w + 3000 ->
  Serial.read h 1 w = (Ok [b], consume w).
Proof.
  intros Ho Hr Ht. unfold Serial.read, consume. rewrite Ho.
  cbn [Serial.read_until]. rewrite Hr. unfold Serial.READ_TIMEOUT.
  destruct (t <=? now w + 3000) eqn:E; [reflexivity | lia].
Qed.

Lemma inflight_consume h timeout it items rest w :
  inflight h timeout (it :: items) rest w ->
  Serial.read h 1 w = (Ok [snd it], consume w) /\
  inflight h timeout items rest (consume w).
Proof.
  intros (Ho & Hr & Hall & Hnow). destruct it as [t b].
  inversion Hall as [|? ? Ht Hall']; subst. cbn [fst] in Ht.
  split.
  - apply (read_item h w t b (items ++ rest)); [assumption..|lia].
  - unfold inflight, consume. rewrite Hr. cbn.
    repeat split; try assumption; lia.
Qed.

Lemma hdlc_loop_unfold fuel self timeout fcs packet w :
  Hdlc.read_loop (S fuel) self timeout fcs packet w =
  if now w <? timeout then
    match Serial.read (Hdlc.serial self) 1 w with
    | (Ok b, w1) =>
        if Hdlc.int_from_bytes b =? 0x7e then
          if (length packet =? 0)%nat
          then Hdlc.read_loop fuel self timeout fcs packet w1
          else (Ok (fcs, packet), w1)
        else if Hdlc.int_from_bytes b =? 0x7d then
          match Serial.read (Hdlc.serial self) 1 w1 with
          | (Ok b2, w2) =>
              Hdlc.read_loop fuel self timeout
                (Hdlc.fcs16 (Z.lxor (Hdlc.int_from_bytes b2) 0x20) fcs)
                (packet ++ [Z.lxor (Hdlc.int_from_bytes b2) 0x20]) w2
          | (Exc e, w2) => (Exc e, w2)
          | (Hang, w2) => (Hang, w2)
          end
        else
          Hdlc.read_loop fuel self timeout
            (Hdlc.fcs16 (Hdlc.int_from_bytes b) fcs)
            (packet ++ [Hdlc.int_from_bytes b]) w1
    | (Exc e, w1) => (Exc e, w1)
    | (Hang, w1) => (Hang, w1)
    end
  else (Ok (fcs, packet), w).
Proof.
  cbn [Hdlc.read_loop]. unfold bind at 1. unfold time_time at 1.
  destruct (now w <? timeout); [|reflexivity].
  unfold bind at 1.
  destruct (Serial.read (Hdlc.serial self) 1 w) as [[b|e|] w1]; try reflexivity.
  unfold Hdlc.HDLC_FLAG, Hdlc.HDLC_ESCAPE.
  destruct (Hdlc.int_from_bytes b =? 126);
    [destruct (length packet =? 0)%nat; reflexivity|].
  destruct (Hdlc.int_from_bytes b =? 125); [|reflexivity].
  unfold bind.
  destruct (Serial.read (Hdlc.serial self) 1 w1) as [[b2|e|] w2]; reflexivity.
Qed.

Lemma inflight_now h timeout items rest w :
  inflight h timeout items rest w -> (now w <? timeout) = true.
Proof. intros (_ & _ & _ & H). apply Z.ltb_lt. lia. Qed.

(** Flags met while the packet is empty are skipped. *)
Lemma hdlc_skip_flags self timeout rest flags : forall k items w,
  map snd flags = repeat 0x7E k ->
  inflight (Hdlc.serial self) timeout (flags ++ items) rest w ->
  exists w',
    inflight (Hdlc.serial self) timeout items rest w' /\
    forall fuel fcs,
      Hdlc.read_loop (k + fuel) self timeout fcs [] w =
      Hdlc.read_loop fuel self timeout fcs [] w'.
Proof.
  induction flags as [|[t b] flags IH]; intros k items w Hm Hin.
  - destruct k; [|discriminate]. exists w. split; [exact Hin | reflexivity].
  - destruct k as [|k]; [discriminate|]. cbn in Hm.
    injection Hm as -> Hm.
    rewrite <- app_comm_cons in Hin.
    destruct (inflight_consume _ _ _ _ _ _ Hin) as [Hread Hin'].
    destruct (IH k items (consume w) Hm Hin') as (w' & Hw' & Hloop).
    exists w'. split; [exact Hw'|]. intros fuel fcs.
    cbn [Nat.add]. rewrite hdlc_loop_unfold.
    rewrite (inflight_now _ _ _ _ _ Hin), Hread. cbn [snd].
    rewrite int_from_bytes_one. cbn. apply Hloop.
Qed.

Lemma escaped_cons b p :
  escaped (b :: p) = Hdlc.encode_byte b [] ++ escaped p.
Proof. reflexivity. Qed.

(** Each escaped byte of the frame is appended to the packet and taken
    into the FCS, un-escaped. *)
Lemma hdlc_collect self timeout rest p : forall enc items fcs packet w,
  map snd enc = escaped p ->
  inflight (Hdlc.serial self) timeout (enc ++ items) rest w ->
  exists w',
    inflight (Hdlc.serial self) timeout items rest w' /\
    forall fuel,
      Hdlc.read_loop (length p + fuel) self timeout fcs packet w =
      Hdlc.read_loop fuel self timeout
        (fold_left (fun fcs b => Hdlc.fcs16 b fcs) p fcs) (packet ++ p) w'.
Proof.
  induction p as [|b p IH]; intros enc items fcs packet w Hm Hin.
  - destruct enc; [|discriminate]. exists w. split; [exact Hin|].
    intros fuel. now rewrite app_nil_r.
  - rewrite escaped_cons in Hm. unfold Hdlc.encode_byte in Hm.
    unfold Hdlc.HDLC_ESCAPE, Hdlc.HDLC_FLAG in Hm.
    destruct ((b =? 125) || (b =? 126)) eqn:E.
    + (* an escaped byte: two reads *)
      destruct enc as [|[t1 e1] [|[t2 e2] enc]]; try discriminate.
      cbn in Hm. injection Hm as -> -> Hm.
      rewrite <- !app_comm_cons in Hin.
      destruct (inflight_consume _ _ _ _ _ _ Hin) as [Hread1 Hin1].
      destruct (inflight_consume _ _ _ _ _ _ Hin1) as [Hread2 Hin2].
      cbn [snd] in Hread1, Hread2.
      destruct (IH enc items (Hdlc.fcs16 b fcs) (packet ++ [b])
                  (consume (consume w)) Hm Hin2) as (w' & Hw' & Hloop).
      exists w'. split; [exact Hw'|]. intros fuel.
      cbn [length Nat.add]. rewrite hdlc_loop_unfold.
      rewrite (inflight_now _ _ _ _ _ Hin), Hread1.
      rewrite int_from_bytes_one. cbn [Z.eqb Pos.eqb].
      rewrite Hread2, int_from_bytes_one.
      rewrite Z.lxor_assoc, Z.lxor_nilpotent, Z.lxor_0_r.
      rewrite Hloop, <- app_assoc. reflexivity.
    + apply orb_false_elim in E as [E1 E2].
      destruct enc as [|[t1 e1] enc]; try discriminate.
      cbn in Hm. injection Hm as -> Hm.
      rewrite <- app_comm_cons in Hin.
      destruct (inflight_consume _ _ _ _ _ _ Hin) as [Hread1 Hin1].
      cbn [snd] in Hread1.
      destruct (IH enc items (Hdlc.fcs16 b fcs) (packet ++ [b])
                  (consume w) Hm Hin1) as (w' & Hw' & Hloop).
      exists w'. split; [exact Hw'|]. intros fuel.
      cbn [length Nat.add]. rewrite hdlc_loop_unfold.
      rewrite (inflight_now _ _ _ _ _ Hin), Hread1.
      rewrite int_from_bytes_one, E1, E2.
      rewrite Hloop, <- app_assoc. reflexivity.
Qed.

Lemma escaped_length p : (length p <= length (escaped p))%nat.
Proof.
  induction p as [|b p IH]; [simpl; lia|].
  rewrite escaped_cons, length_app. cbn [length].
  unfold Hdlc.encode_byte.
  destruct ((b =? Hdlc.HDLC_ESCAPE) || (b =? Hdlc.HDLC_FLAG)); cbn [length app]; lia.
Qed.

(** C4, as stated, fails: bytes that precede the first flag are not
    discarded.  Three bytes that form a valid frame body, put before
    the flag that opens another frame, are returned as the packet. *)
Lemma hdlc_leading_bytes_are_kept :
  ~ (forall pre rest : bytes,
       ~ In 0x7E pre ->
       hdlc_receive (pre ++ 0x7E :: rest) = hdlc_receive (0x7E :: rest)).
Proof.
  intros H.
  specialize (H [0x41; 0xF5; 0xA3] [0x42; 0x6E; 0x91; 0x7E]).
  assert (Hpre : ~ In 0x7E [0x41; 0xF5; 0xA3]) by (simpl; lia).
  specialize (H Hpre). vm_compute in H. discriminate H.
Qed.

(** C4, amended. [getResponse] skips [0x7E] flags only while no packet
    byte has been collected.  On a stream made of any number of flags,
    the escaped form of a non-empty byte sequence [p], a flag, and
    anything after it, all arriving within the timeout, the result is
    computed from [p] alone: [p] without its last two bytes when the FCS
    over [p] is [0xF0B8], and failure otherwise. *)
Theorem hdlc_getResponse_frame
    (self : Hdlc.state) (w : world) (k : nat) (p : bytes)
    (items rest : list (Z * Z)) :
  Serial.is_open (Hdlc.serial self) w = true ->
  p <> [] ->
  rx w = items ++ rest ->
  map snd items = repeat 0x7E k ++ escaped p ++ [0x7E] ->
  Forall (fun it => fst it < now w + 3000) items ->
  fst (Hdlc.getResponse self w) =
    Ok (if fcs_of p =? 0xF0B8 then (0, Some (slice_to_neg 2 p)) else (-1, None)).
Proof.
  intros Ho Hp Hr Hm Hall.
  apply map_eq_app in Hm as (flags & items1 & -> & Hflags & Hm).
  apply map_eq_app in Hm as (enc & last & -> & Henc & Hlast).
  destruct last as [|[t e] [|]]; try discriminate.
  cbn in Hlast. injection Hlast as ->.
  assert (Hin : inflight (Hdlc.serial self) (now w + 3000)
                  (flags ++ enc ++ [(t, 126)]) rest w).
  { unfold inflight. repeat split; try assumption; lia. }
  destruct (hdlc_skip_flags _ _ _ _ _ _ _ Hflags Hin) as (w1 & Hin1 & Hloop1).
  destruct (hdlc_collect self _ rest p enc [(t, 126)] Hdlc.HDLC_FCS_INIT [] w1
              Henc Hin1) as (w2 & Hin2 & Hloop2).
  destruct (inflight_consume _ _ _ _ _ _ Hin2) as [Hread _].
  cbn [snd] in Hread.
  unfold Hdlc.getResponse. unfold bind at 1. unfold time_time at 1.
  unfold bind at 1. unfold get_world at 1.
  rewrite Hr, !length_app. cbn [length].
  pose proof (escaped_length p) as Hlen.
  rewrite <- Henc, length_map in Hlen.
  apply (f_equal (@length Z)) in Hflags.
  rewrite length_map, repeat_length in Hflags.
  replace (length flags + (length enc + 1) + length rest + 2)%nat
    with (k + (length p + S (length enc - length p + length rest + 2)))%nat by lia.
  unfold bind at 1.
  rewrite Hloop1, Hloop2, hdlc_loop_unfold.
  rewrite (inflight_now _ _ _ _ _ Hin2), Hread, int_from_bytes_one.
  cbn [Z.eqb Pos.eqb app].
  destruct p as [|b p]; [congruence|]. cbn [length Nat.eqb].
  unfold fcs_of, Hdlc.HDLC_FCS_GOOD.
  destruct (fold_left _ (b :: p) Hdlc.HDLC_FCS_INIT =? 61624); reflexivity.
Qed.

Lemma hdlc_getResponse_frame_witness :
  hdlc_receive ([0x7E; 0x7E] ++ [0x7D; 0x5E; 0x81; 0x6A] ++ [0x7E; 0x99])
    = Ok (0, Some [0x7E]).
Proof.
  unfold hdlc_receive.
  rewrite (hdlc_getResponse_frame (Hdlc.init 0)
             (incoming ([0x7E; 0x7E] ++ [0x7D; 0x5E; 0x81; 0x6A] ++ [0x7E; 0x99]))
             2 [0x7E; 0x81; 0x6A]
             (map (fun b => (1, b)) [0x7E; 0x7E; 0x7D; 0x5E; 0x81; 0x6A; 0x7E])
             [(1, 0x99)]).
  - vm_compute. reflexivity.
  - reflexivity.
  - discriminate.
  - reflexivity.
  - reflexivity.
  - vm_compute. repeat constructor.
Defined.

End HdlcReceive.

(** ** Spinel property requests *)

Section PropValueGet.

Local Arguments Z.lxor : simpl never.
Local Arguments Hdlc.fcs16 : simpl never.

Lemma is_open_same h w w' :
  open_handles w' = open_handles w -> Serial.is_open h w' = Serial.is_open h w.
Proof. unfold Serial.is_open. now intros ->. Qed.

(** A read on an open session returns, leaves the trace alone, and
    either takes a byte from [rx] or lets the 3 s read timeout pass. *)
Lemma read1_open h w :
  Serial.is_open h w = true ->
  exists b w',
    Serial.read h 1 w = (Ok b, w') /\
    Serial.is_open h w' = true /\
    trace w' = trace w /\
    now w <= now w' /\
    ((length (rx w') < length (rx w))%nat \/ now w' = now w + 3000).
Proof.
  intros Ho. unfold Serial.read. rewrite Ho. cbn [Serial.read_until].
  unfold Serial.READ_TIMEOUT.
  destruct (rx w) as [|[t b] r] eqn:Hr.
  - eexists _, _. split; [reflexivity|]. cbn. repeat split; auto; lia.
  - destruct (t <=? now w + 3000) eqn:E.
    + eexists _, _. split; [reflexivity|]. cbn. repeat split; auto; lia.
    + eexists _, _. split; [reflexivity|]. cbn. repeat split; auto; lia.
Qed.

(** The receive loop of [getResponse] always returns: every turn either
    takes a byte from [rx] or sees a read time out, after which the
    deadline has passed. *)
Lemma hdlc_loop_returns self timeout fuel : forall w fcs packet,
  Serial.is_open (Hdlc.serial self) w = true ->
  (timeout <= now w + 3000 /\ (length (rx w) + 2 <= fuel)%nat) \/
  (timeout <= now w /\ (1 <= fuel)%nat) ->
  exists fcs' packet' w',
    Hdlc.read_loop fuel self timeout fcs packet w = (Ok (fcs', packet'), w') /\
    Serial.is_open (Hdlc.serial self) w' = true /\
    trace w' = trace w.
Proof.
  induction fuel as [|fuel IH]; intros w fcs packet Ho Hm; [lia|].
  rewrite hdlc_loop_unfold.
  destruct (now w <? timeout) eqn:Et.
  2:{ eexists _, _, _. split; [reflexivity|]. auto. }
  apply Z.ltb_lt in Et.
  destruct (read1_open _ _ Ho) as (b & w1 & Hr1 & Ho1 & Ht1 & Hn1 & Hc1).
  rewrite Hr1.
  destruct (Hdlc.int_from_bytes b =? 126).
  { destruct (length packet =? 0)%nat.
    - destruct (IH w1 fcs packet Ho1) as (f' & p' & w' & He & Ho' & Ht'); [lia|].
      eexists _, _, _. split; [exact He|]. split; [exact Ho'|]. congruence.
    - eexists _, _, _. split; [reflexivity|]. auto. }
  destruct (Hdlc.int_from_bytes b =? 125).
  - destruct (read1_open _ _ Ho1) as (b2 & w2 & Hr2 & Ho2 & Ht2 & Hn2 & Hc2).
    rewrite Hr2.
    match goal with
    | |- context [Hdlc.read_loop fuel self timeout ?f ?p w2] =>
        destruct (IH w2 f p Ho2) as (f' & p' & w' & He & Ho' & Ht'); [lia|]
    end.
    eexists _, _, _. split; [exact He|]. split; [exact Ho'|]. congruence.
  - match goal with
    | |- context [Hdlc.read_loop fuel self timeout ?f ?p w1] =>
        destruct (IH w1 f p Ho1) as (f' & p' & w' & He & Ho' & Ht'); [lia|]
    end.
    eexists _, _, _. split; [exact He|]. split; [exact Ho'|]. congruence.
Qed.

(** On an open session [getResponse] returns a status, 0 with a packet
    or -1 without, and writes nothing. *)
Lemma hdlc_getResponse_returns self w :
  Serial.is_open (Hdlc.serial self) w = true ->
  exists status response w',
    Hdlc.getResponse self w = (Ok (status, response), w') /\
    ((status = 0 /\ response <> None) \/ (status = -1 /\ response = None)) /\
    trace w' = trace w.
Proof.
  intros Ho. unfold Hdlc.getResponse.
  unfold bind at 1. unfold time_time at 1.
  unfold bind at 1. unfold get_world at 1.
  unfold bind at 1.
  destruct (hdlc_loop_returns self (now w + 3000) (length (rx w) + 2) w
              Hdlc.HDLC_FCS_INIT [] Ho) as (f & p & w' & He & Ho' & Ht); [lia|].
  rewrite He.
  destruct (length p =? 0)%nat.
  { eexists _, _, _. split; [reflexivity|]. auto. }
  destruct (negb (f =? Hdlc.HDLC_FCS_GOOD)).
  { eexists _, _, _. split; [reflexivity|]. auto. }
  eexists _, _, _. split; [reflexivity|]. split; [left; split; congruence | auto].
Qed.

Lemma written_app tr1 tr2 : written (tr1 ++ tr2) = written tr1 ++ written tr2.
Proof.
  induction tr1 as [|e tr1 IH]; [reflexivity|].
  destruct e; cbn; rewrite ?IH; reflexivity.
Qed.




End PropValueGet.

(** ** The controller: image names and serial sessions *)

Section Controller.

Lemma prefix_refl s : String.prefix s s = true.
Proof.
  induction s as [|a s IH]; [reflexivity|].
  cbn. destruct (ascii_dec a a); [exact IH | congruence].
Qed.

(** A name that ends in a suffix contains it: every name the wording of
    the specification lets through also passes the test [flash] makes. *)
Lemma ends_with_contains suffix s :
  ends_with suffix s = true -> contains suffix s = true.
Proof.
  induction s as [|a s IH]; cbn [ends_with contains]; intros H.
  - apply orb_true_iff in H as [H|H]; [|discriminate].
    apply String.eqb_eq in H. subst suffix. reflexivity.
  - apply orb_true_iff in H as [H|H].
    + apply String.eqb_eq in H. subst suffix.
      now rewrite prefix_refl.
    + rewrite (IH H). apply orb_true_r.
Qed.

(** C8, as stated, fails: ["fw.gbl.txt"] ends in neither [".gbl"] nor
    [".ebl"], yet [flash] goes on to probe the port and to open it. *)
Lemma flash_accepts_inner_extension :
  ~ (forall (self : config) (filename : string) (w : world),
       ends_with ".gbl" filename = false ->
       ends_with ".ebl" filename = false ->
       Utilities.flash self filename w =
         (Ok tt, emit (EvLog CRITICAL ABORTED []) w)).
Proof.
  intros H.
  specialize (H default_config "fw.gbl.txt"%string silent eq_refl eq_refl).
  apply (f_equal (fun r => next_handle (snd r))) in H.
  vm_compute in H. discriminate H.
Qed.

(** C8, amended. For every filename that contains neither [".gbl"] nor
    [".ebl"], [flash] logs the abort and returns at once: the world is
    left as it was but for that one log line, so no bootloader entry was
    attempted, no port opened and nothing transferred. *)
Theorem flash_rejects_other_names (self : config) (filename : string) (w : world) :
  contains ".gbl" filename = false ->
  contains ".ebl" filename = false ->
  Utilities.flash self filename w =
    (Ok tt, emit (EvLog CRITICAL ABORTED []) w).
Proof.
  intros Hg He. unfold Utilities.flash. rewrite Hg, He. reflexivity.
Qed.

Lemma flash_rejects_other_names_witness :
  Utilities.flash default_config "fw.hex" silent =
    (Ok tt, emit (EvLog CRITICAL ABORTED []) silent).
Proof.
  apply flash_rejects_other_names; reflexivity.
Defined.

(** When the name passes the test, the first thing [flash] does is to
    probe, that is to open the port. *)
Lemma flash_accepted_opens_port (self : config) (filename : string) (w : world) :
  contains ".gbl" filename || contains ".ebl" filename = true ->
  port_present w = false ->
  Utilities.flash self filename w =
    (Exc PortError, emit (EvOpenFailed (baudrate self)) w).
Proof.
  intros Hc Hp. unfold Utilities.flash.
  apply orb_true_iff in Hc.
  replace (negb (contains ".gbl" filename) && negb (contains ".ebl" filename))
    with false by (destruct Hc as [-> | ->]; [reflexivity | apply eq_sym, andb_false_r]).
  unfold Utilities.restart, Utilities.probe, bind, Serial.open.
  rewrite Hp. reflexivity.
Qed.

(** C9. Not every session is closed.  On a port where nothing answers,
    [flash] gives up waiting for the bootloader's 'C' and returns with
    the session it opened still open; against a bootloader that lets the
    transfer fail it returns after the upload failure in the same way;
    and [restart] returns -1 for a Thread device of another vendor
    without closing the session it opened. *)
Theorem flash_leaves_session_open :
  (fst (Utilities.flash default_config "fw.gbl" silent) = Ok tt /\
   open_handles (snd (Utilities.flash default_config "fw.gbl" silent)) = [1%nat]) /\
  (fst (Utilities.flash default_config "fw.gbl" bootloader_refusing_upload) = Ok tt /\
   open_handles
     (snd (Utilities.flash default_config "fw.gbl" bootloader_refusing_upload))
     = [1%nat]) /\
  (fst (Utilities.restart default_config "btl" thread_generic) = Ok (Some (-1)) /\
   open_handles (snd (Utilities.restart default_config "btl" thread_generic))
     = [1%nat]).
Proof. vm_compute. repeat split. Qed.

End Controller.

(** ** Sessions opened and closed by [probe] *)

Section Sessions.

Lemma keeps_ret {A} (a : A) : keeps_sessions (ret a).
Proof. intros w r w' H. injection H as _ <-. auto. Qed.

Lemma keeps_raise {A} e : keeps_sessions (@raise A e).
Proof. intros w r w' H. injection H as _ <-. auto. Qed.

Lemma keeps_hang {A} : keeps_sessions (@hang A).
Proof. intros w r w' H. injection H as _ <-. auto. Qed.

Lemma keeps_lift {A} (x : result A) : keeps_sessions (lift x).
Proof. intros w r w' H. injection H as _ <-. auto. Qed.

Lemma keeps_get_world : keeps_sessions get_world.
Proof. intros w r w' H. injection H as _ <-. auto. Qed.

Lemma keeps_time_time : keeps_sessions time_time.
Proof. intros w r w' H. injection H as _ <-. auto. Qed.

Lemma keeps_sleep ms : keeps_sessions (sleep ms).
Proof. intros w r w' H. injection H as _ <-. auto. Qed.

Lemma keeps_do_event e : keeps_sessions (do_event e).
Proof. intros w r w' H. injection H as _ <-. auto. Qed.

Lemma keeps_log_info fmt args : keeps_sessions (log_info fmt args).
Proof. apply keeps_do_event. Qed.

Lemma keeps_log_critical fmt args : keeps_sessions (log_critical fmt args).
Proof. apply keeps_do_event. Qed.

Lemma keeps_bind {A B} (m : M A) (k : A -> M B) :
  keeps_sessions m -> (forall a, keeps_sessions (k a)) ->
  keeps_sessions (bind m k).
Proof.
  intros Hm Hk w r w' H. unfold bind in H.
  destruct (m w) as [[a|e|] w1] eqn:E; destruct (Hm _ _ _ E) as [H1 H2].
  - destruct (Hk a _ _ _ H) as [H3 H4]. split; congruence.
  - injection H as _ <-. auto.
  - injection H as _ <-. auto.
Qed.

Lemma read_until_sessions deadline size : forall w data w',
  Serial.read_until deadline size w = (data, w') ->
  open_handles w' = open_handles w /\ next_handle w' = next_handle w.
Proof.
  induction size as [|size IH]; intros w data w' H; cbn [Serial.read_until] in H.
  - injection H as _ <-. auto.
  - destruct (rx w) as [|[t b] r].
    + injection H as _ <-. auto.
    + destruct (t <=? deadline).
      * destruct (Serial.read_until deadline size _) as [more w1] eqn:E.
        injection H as _ <-. apply IH in E. exact E.
      * injection H as _ <-. auto.
Qed.

Lemma keeps_read h size : keeps_sessions (Serial.read h size).
Proof.
  intros w r w' H. unfold Serial.read in H.
  destruct (Serial.is_open h w).
  - destruct (Serial.read_until _ size w) as [data w1] eqn:E.
    injection H as _ <-. exact (read_until_sessions _ _ _ _ _ E).
  - injection H as _ <-. auto.
Qed.

Lemma keeps_write h data : keeps_sessions (Serial.write h data).
Proof.
  intros w r w' H. unfold Serial.write in H.
  destruct (Serial.is_open h w); injection H as _ <-; auto.
Qed.

Lemma keeps_flushInput h : keeps_sessions (Serial.flushInput h).
Proof.
  intros w r w' H. unfold Serial.flushInput in H.
  destruct (Serial.is_open h w); injection H as _ <-; auto.
Qed.

Create HintDb keeps.
Hint Resolve keeps_ret keeps_raise keeps_hang keeps_lift keeps_get_world
  keeps_time_time keeps_sleep keeps_do_event keeps_log_info keeps_log_critical
  keeps_read keeps_write keeps_flushInput : keeps.

(** Decompose a program along its binds and branches, closing the leaves
    with the lemmas collected so far. *)
Ltac keeps :=
  repeat first
    [ solve [auto 1 with keeps]
    | apply keeps_bind; [|intros]
    | match goal with
      | |- keeps_sessions (if ?c then _ else _) => destruct c
      | |- keeps_sessions (match ?x with _ => _ end) => destruct x
      end ].

Lemma keeps_readline_loop fuel : forall h line,
  keeps_sessions (Serial.readline_loop fuel h line).
Proof. induction fuel; intros; cbn [Serial.readline_loop]; keeps. Qed.
Hint Resolve keeps_readline_loop : keeps.

Lemma keeps_readline h : keeps_sessions (Serial.readline h).
Proof. unfold Serial.readline. keeps. Qed.
Hint Resolve keeps_readline : keeps.

Lemma keeps_ash_read_loop fuel : forall self timeout rb msg,
  keeps_sessions (Ash.read_loop fuel self timeout rb msg).
Proof. induction fuel; intros; cbn [Ash.read_loop]; keeps. Qed.
Hint Resolve keeps_ash_read_loop : keeps.

Lemma keeps_ash_getResponse self r : keeps_sessions (Ash.getResponse self r).
Proof. unfold Ash.getResponse. keeps. Qed.
Hint Resolve keeps_ash_getResponse : keeps.

Lemma keeps_sendResetFrame self : keeps_sessions (Ash.sendResetFrame self).
Proof. unfold Ash.sendResetFrame. keeps. Qed.

Lemma keeps_sendAck self n : keeps_sessions (Ash.sendAck self n).
Proof. unfold Ash.sendAck. keeps. Qed.
Hint Resolve keeps_sendResetFrame keeps_sendAck : keeps.

Lemma keeps_sendAshCommand self f : keeps_sessions (Ash.sendAshCommand self f).
Proof.
  unfold Ash.sendAshCommand. destruct (Ash.ashFrameBuilder self f). keeps.
Qed.
Hint Resolve keeps_sendAshCommand : keeps.

Lemma keeps_sendEzspCommand self c : keeps_sessions (Ezsp.sendEzspCommand self c).
Proof. unfold Ezsp.sendEzspCommand. keeps. Qed.
Hint Resolve keeps_sendEzspCommand : keeps.

Lemma keeps_sendVersion self v : keeps_sessions (Ezsp.sendVersion self v).
Proof. unfold Ezsp.sendVersion. keeps. Qed.

Lemma keeps_getValue self v : keeps_sessions (Ezsp.getValue self v).
Proof. unfold Ezsp.getValue. keeps. Qed.

Lemma keeps_getMfgToken self v : keeps_sessions (Ezsp.getMfgToken self v).
Proof. unfold Ezsp.getMfgToken. keeps. Qed.

Lemma keeps_launchStandaloneBootloader self v :
  keeps_sessions (Ezsp.launchStandaloneBootloader self v).
Proof. unfold Ezsp.launchStandaloneBootloader. keeps. Qed.
Hint Resolve keeps_sendVersion keeps_getValue keeps_getMfgToken
  keeps_launchStandaloneBootloader : keeps.

Lemma keeps_initEzspProtocol self : keeps_sessions (Ezsp.initEzspProtocol self).
Proof. unfold Ezsp.initEzspProtocol. keeps. Qed.
Hint Resolve keeps_initEzspProtocol : keeps.

Lemma keeps_hdlc_read_loop fuel : forall self timeout fcs packet,
  keeps_sessions (Hdlc.read_loop fuel self timeout fcs packet).
Proof. induction fuel; intros; cbn [Hdlc.read_loop]; keeps. Qed.
Hint Resolve keeps_hdlc_read_loop : keeps.

Lemma keeps_hdlc_getResponse self : keeps_sessions (Hdlc.getResponse self).
Proof. unfold Hdlc.getResponse. keeps. Qed.
Hint Resolve keeps_hdlc_getResponse : keeps.

Lemma keeps_sendHdlcPacket self d : keeps_sessions (Hdlc.sendHdlcPacket self d).
Proof. unfold Hdlc.sendHdlcPacket. keeps. Qed.
Hint Resolve keeps_sendHdlcPacket : keeps.

Lemma keeps_sendSpinelCommand self c p :
  keeps_sessions (Spinel.sendSpinelCommand self c p).
Proof. unfold Spinel.sendSpinelCommand. keeps. Qed.
Hint Resolve keeps_sendSpinelCommand : keeps.

Lemma keeps_propValueGet self p : keeps_sessions (Spinel.propValueGet self p).
Proof. unfold Spinel.propValueGet. keeps. Qed.

Lemma keeps_eleLaunchBtl self : keeps_sessions (Spinel.eleLaunchBtl self).
Proof. unfold Spinel.eleLaunchBtl. keeps. Qed.

Lemma keeps_version_loop fuel : forall self counter,
  keeps_sessions (Spinel.version_loop fuel self counter).
Proof. induction fuel; intros; cbn [Spinel.version_loop]; keeps. Qed.
Hint Resolve keeps_propValueGet keeps_eleLaunchBtl keeps_version_loop : keeps.

Lemma keeps_initSpinelProtocol self :
  keeps_sessions (Spinel.initSpinelProtocol self).
Proof. unfold Spinel.initSpinelProtocol. keeps. Qed.
Hint Resolve keeps_initSpinelProtocol : keeps.

Lemma ensures_bind {A B} (m : M A) (k : A -> M B) P Q R :
  ensures m P Q -> (forall a, ensures (k a) (Q a) R) -> ensures (bind m k) P R.
Proof.
  intros Hm Hk w r w' HP H. unfold bind in H.
  destruct (m w) as [[a|e|] w1] eqn:E.
  - exact (Hk a w1 r w' (Hm _ _ _ HP E) H).
  - injection H as <- _. exact I.
  - injection H as <- _. exact I.
Qed.

Lemma ensures_ret {A} (a : A) (P : world -> Prop) Q :
  (forall w, P w -> Q a w) -> ensures (ret a) P Q.
Proof. intros HQ w r w' HP H. injection H as <- <-. auto. Qed.

Lemma ensures_raise {A} e P (Q : A -> world -> Prop) : ensures (raise e) P Q.
Proof. intros w r w' HP H. injection H as <- _. exact I. Qed.

Lemma ensures_pure {A} (m : M A) (phi : Prop) P Q :
  (phi -> ensures m P Q) -> ensures m (fun w => phi /\ P w) Q.
Proof. intros H w r w' [Hphi HP]. now apply H. Qed.

Lemma ensures_keeps {A} (m : M A) hs :
  keeps_sessions m -> ensures m (holds hs) (fun _ => holds hs).
Proof.
  intros Hk w r w' [Ho Hf] H. destruct (Hk _ _ _ H) as [H1 H2].
  destruct r; [|exact I..]. unfold holds. rewrite H1, H2. auto.
Qed.

(** [open] hands out a handle that is not among the open ones. *)
Lemma ensures_open b hs :
  ensures (Serial.open b) (holds hs)
    (fun h w => ~ In h hs /\ holds (h :: hs) w).
Proof.
  intros w r w' [Ho Hf] H. unfold Serial.open in H.
  destruct (port_present w); injection H as <- <-; [|exact I].
  rewrite List.Forall_forall in Hf. split.
  - intros Hin. apply Hf in Hin. lia.
  - unfold holds. cbn. split; [now rewrite Ho|].
    constructor; [lia|]. apply List.Forall_forall.
    intros h Hin. apply Hf in Hin. lia.
Qed.

Lemma filter_other h (hs : list nat) :
  ~ In h hs -> List.filter (fun h' => negb (Nat.eqb h h')) hs = hs.
Proof.
  induction hs as [|a hs IH]; intros Hn; [reflexivity|].
  cbn [List.filter]. destruct (Nat.eqb h a) eqn:E.
  - apply Nat.eqb_eq in E. subst. exfalso. apply Hn. now left.
  - cbn. rewrite IH; [reflexivity|]. intros Hin. apply Hn. now right.
Qed.

(** [close] takes that handle out again. *)
Lemma ensures_close h hs :
  ~ In h hs ->
  ensures (Serial.close h) (holds (h :: hs)) (fun _ => holds hs).
Proof.
  intros Hn w r w' [Ho Hf] H. unfold Serial.close in H.
  injection H as <- <-. unfold holds. cbn. rewrite Ho.
  cbn [List.filter]. rewrite Nat.eqb_refl. cbn [negb].
  split; [now apply filter_other|]. now inversion Hf.
Qed.

Ltac hoare :=
  repeat first
    [ apply ensures_raise
    | eapply ensures_bind; [apply ensures_keeps; solve [keeps] | intros]
    | eapply ensures_bind; [apply ensures_close; assumption | intros]
    | match goal with
      | |- ensures (if ?c then _ else _) _ _ => destruct c
      | |- ensures (match ?x with _ => _ end) _ _ => destruct x
      end
    | apply ensures_ret; intros; assumption ].

(** Whenever [probe] returns, the sessions open are those that were open
    before the call: it has closed each session it opened.  (A run of
    [probe] that ends in an exception closes nothing: the source has no
    handler.) *)
Lemma probe_closes_its_sessions self hs :
  ensures (Utilities.probe self) (holds hs) (fun _ => holds hs).
Proof.
  unfold Utilities.probe.
  eapply ensures_bind; [apply ensures_open|]. intros h.
  apply ensures_pure. intros Hfresh.
  hoare.
  eapply ensures_bind
    with (Q := fun h' w => ~ In h' hs /\ holds (h' :: hs) w).
  - destruct (baud_differs (baudrate self)).
    + hoare. apply ensures_open.
    + apply ensures_ret. auto.
  - intros h'. apply ensures_pure. intros Hfresh'. hoare.
Qed.

(** X22. From a world whose handles are in order, a [probe] that
    returns leaves the open sessions as they were: on each of its five
    ways out ([ZIGBEE], [THREAD], [BOOTLOADER], [ERROR], with or without
    the change of baud rate) it has closed every session it opened. *)
Lemma probe_returns_closed self w r w' :
  Forall (fun h => (h < next_handle w)%nat) (open_handles w) ->
  Utilities.probe self w = (Ok r, w') ->
  open_handles w' = open_handles w.
Proof.
  intros Hf H.
  pose proof (probe_closes_its_sessions self (open_handles w) w (Ok r) w'
                (conj eq_refl Hf) H) as [Ho _].
  exact Ho.
Qed.

Lemma probe_returns_closed_witness :
  open_handles (snd (Utilities.probe default_config bootloader_refusing_upload))
  = [].
Proof.
  apply (probe_returns_closed default_config bootloader_refusing_upload
           (BOOTLOADER, None)).
  - constructor.
  - vm_compute. reflexivity.
Defined.

(** [restart]: when what it returns counts as success for [flash] (0, or
    [None] after a failed probe), the open sessions are those there were
    before the call. *)
Lemma restart_sessions self mode hs :
  ensures (Utilities.restart self mode) (holds hs)
    (fun r w => truthy r = false -> holds hs w).
Proof.
  unfold Utilities.restart, Utilities.restart_btl_finish.
  eapply ensures_bind; [apply probe_closes_its_sessions|]. intros [status name].
  destruct status; destruct (String.eqb mode "btl");
    repeat first
      [ apply ensures_raise
      | eapply ensures_bind; [apply ensures_keeps; solve [keeps] | intros]
      | eapply ensures_bind; [apply ensures_close; assumption | intros]
      | eapply ensures_bind; [apply probe_closes_its_sessions | intros]
      | eapply ensures_bind; [apply ensures_open|]; intros ?h;
        apply ensures_pure; intros ?Hfresh
      | match goal with
        | |- ensures (if ?c then _ else _) _ _ => destruct c
        | |- ensures (match ?x with _ => _ end) _ _ => destruct x
        end
      | apply ensures_ret; intros ? ? Hr;
        first [ assumption | cbv in Hr; discriminate Hr ] ].
Qed.

(** X23. When [restart] returns what [flash] takes for success (0, or
    [None] after a failed probe), the open sessions are those there
    were before the call: every session it opened is closed again.  The
    session [restart] can leave open goes with the return value -1
    only. *)
Theorem restart_success_closes_sessions self mode w r w' :
  Forall (fun h => (h < next_handle w)%nat) (open_handles w) ->
  Utilities.restart self mode w = (Ok r, w') ->
  truthy r = false ->
  open_handles w' = open_handles w.
Proof.
  intros Hf H Ht.
  pose proof (restart_sessions self mode (open_handles w) w (Ok r) w'
                (conj eq_refl Hf) H Ht) as [Ho _].
  exact Ho.
Qed.

Lemma restart_success_closes_sessions_witness :
  open_handles (snd (Utilities.restart default_config "btl"
                       bootloader_refusing_upload)) = [].
Proof.
  apply (restart_success_closes_sessions default_config "btl"
           bootloader_refusing_upload (Some 0)).
  - constructor.
  - vm_compute. reflexivity.
  - reflexivity.
Defined.

End Sessions.

(** ** Further properties of the framers *)

Section FramingFacts.

Local Arguments Z.testbit : simpl never.
Local Arguments Z.land : simpl never.
Local Arguments Z.lor : simpl never.
Local Arguments Z.lxor : simpl never.
Local Arguments Z.shiftr : simpl never.
Local Arguments Z.shiftl : simpl never.

Lemma esc_not_reserved b : Forall (fun c => reserved_on_wire c = false) (esc b).
Proof.
  unfold esc.
  repeat match goal with
         | |- context [if ?c then _ else _] => destruct c eqn:?
         end; repeat constructor.
  unfold reserved_on_wire.
  repeat match goal with
         | H : (b =? _) = false |- _ => rewrite H; clear H
         end.
  reflexivity.
Qed.

Lemma replaceReservedBytes_clean x :
  Forall (fun c => reserved_on_wire c = false) (Ash.replaceReservedBytes x).
Proof.
  rewrite replaceReservedBytes_esc.
  induction x as [|b x IH]; [constructor|].
  cbn [flat_map]. apply Forall_app. split; [apply esc_not_reserved | exact IH].
Qed.

(** X1. Every DATA frame [ashFrameBuilder] builds and every ACK frame
    [sendAck] builds is a body free of the bytes 7E, 11, 13, 18 and 1A
    followed by exactly one flag byte.  The one other frame the ASH layer
    writes, the constant reset frame of [sendResetFrame], is not stuffed:
    it is such a body and flag behind a leading cancel byte 1A, which is
    itself one of the reserved bytes. *)
Theorem ash_frames_are_clean (self : Ash.state) (ezsp_frame : bytes) (ackNum : Z) :
  (exists body,
     fst (Ash.ashFrameBuilder self ezsp_frame) = body ++ [0x7E] /\
     Forall (fun c => reserved_on_wire c = false) body) /\
  (exists body,
     Ash.ack_frame ackNum = body ++ [0x7E] /\
     Forall (fun c => reserved_on_wire c = false) body) /\
  (exists body,
     Ash.RSTACK_FRAME_CMD = 0x1A :: body ++ [0x7E] /\
     Forall (fun c => reserved_on_wire c = false) body /\
     reserved_on_wire 0x1A = true).
Proof.
  split; [|split].
  - eexists. split; [reflexivity | apply replaceReservedBytes_clean].
  - eexists. split; [reflexivity | apply replaceReservedBytes_clean].
  - exists [0xC0; 0x38; 0xBC]. split; [reflexivity|].
    split; [repeat constructor | reflexivity].
Qed.

(** X2. Whitening maps a byte string to a byte string of the same
    length: no value handed to [bytearray] leaves the range of a byte. *)
Theorem dataRandomize_keeps_bytes (frame : bytes) :
  bytes_ok frame ->
  bytes_ok (Ash.dataRandomize frame) /\
  length (Ash.dataRandomize frame) = length frame.
Proof.
  intros H. split; [now apply dataRandomize_bytes_ok|].
  rewrite dataRandomize_whiten. apply whiten_length.
Qed.

Lemma dataRandomize_keeps_bytes_witness :
  bytes_ok (Ash.dataRandomize [0x00; 0x00; 0x00; 0x04]) /\
  length (Ash.dataRandomize [0x00; 0x00; 0x00; 0x04]) = 4%nat.
Proof.
  apply (dataRandomize_keeps_bytes [0x00; 0x00; 0x00; 0x04]).
  repeat constructor; unfold byte_ok; lia.
Defined.

(** X3. On an empty command body [ezspFrameBuilder] raises [IndexError]
    once the negotiated version is 8 or more; below that it returns the
    bare header. *)
Theorem ezspFrameBuilder_empty_command (self : Ezsp.state) :
  byte_ok (Ezsp.sequenceNum self) ->
  Ezsp.ezspFrameBuilder self [] =
    if 8 <=? Ezsp.ezspVersion self then Exc IndexError
    else Ok (if 5 <=? Ezsp.ezspVersion self
             then [Ezsp.sequenceNum self; 0x00; 0xFF; 0x00]
             else [Ezsp.sequenceNum self; 0x00],
             Ezsp.set_sequenceNum ((Ezsp.sequenceNum self + 1) mod 255) self).
Proof.
  intros Hseq. unfold Ezsp.ezspFrameBuilder.
  rewrite (bytearray1_ok _ Hseq). cbn [rbind].
  cbn [Ezsp.ezspVersion Ezsp.set_sequenceNum].
  destruct (5 <=? Ezsp.ezspVersion self) eqn:E5;
    destruct (8 <=? Ezsp.ezspVersion self) eqn:E8; first [lia | reflexivity].
Qed.

Lemma ezspFrameBuilder_empty_command_witness :
  Ezsp.ezspFrameBuilder (Ezsp.set_ezspVersion 8 (Ezsp.init 0)) [] = Exc IndexError.
Proof.
  apply (ezspFrameBuilder_empty_command (Ezsp.set_ezspVersion 8 (Ezsp.init 0))).
  unfold byte_ok. simpl. lia.
Defined.

Lemma data_frames_ackNum frames : forall self,
  0 <= Ash.ackNum self < 8 ->
  Ash.ackNum (data_frames self frames) =
    (Ash.ackNum self + Z.of_nat (length frames)) mod 8.
Proof.
  induction frames as [|f frames IH]; intros self H.
  - simpl. rewrite Z.add_0_r, Z.mod_small; auto.
  - change (data_frames self (f :: frames))
      with (data_frames (snd (Ash.ashFrameBuilder self f)) frames).
    rewrite IH; rewrite ashFrameBuilder_state; cbn [Ash.ackNum].
    + rewrite Zplus_mod_idemp_l. f_equal. cbn [length]. lia.
    + apply Z.mod_pos_bound. lia.
Qed.

(** X4. After any number [n] of DATA frames built by a fresh ASH object,
    [ackNum] and [frmNum] are both [n mod 8]: the two counters never
    part. *)
Theorem ash_counters_after (h : nat) (frames : list bytes) :
  Ash.ackNum (data_frames (Ash.init h) frames) = Z.of_nat (length frames) mod 8 /\
  Ash.frmNum (data_frames (Ash.init h) frames) = Z.of_nat (length frames) mod 8.
Proof.
  split.
  - rewrite data_frames_ackNum by (simpl; lia). reflexivity.
  - rewrite data_frames_frmNum by (simpl; lia). reflexivity.
Qed.

(** X5. A fresh EZSP object builds any number [n] of frames for
    non-empty byte commands without error, and its sequence number is
    then [n mod 255]: the sequence byte 0xFF is never used. *)
Theorem ezsp_sequence_after (serial : nat) (cmds : list bytes) :
  Forall (fun c => c <> [] /\ bytes_ok c) cmds ->
  exists self',
    ezsp_commands (Ezsp.init serial) cmds = Ok self' /\
    Ezsp.sequenceNum self' = Z.of_nat (length cmds) mod 255 /\
    0 <= Ezsp.sequenceNum self' < 255.
Proof.
  intros H.
  destruct (ezsp_commands_sequenceNum cmds (Ezsp.init serial)) as (s & He & Hs);
    [simpl; lia | exact H |].
  exists s. split; [exact He|]. cbn in Hs. rewrite Hs.
  split; [reflexivity | apply Z.mod_pos_bound; lia].
Qed.

Lemma ezsp_sequence_after_witness :
  exists self',
    ezsp_commands (Ezsp.init 0) (repeat [0x00; 0x04] 300) = Ok self' /\
    Ezsp.sequenceNum self' = 45 /\
    0 <= Ezsp.sequenceNum self' < 255.
Proof.
  apply (ezsp_sequence_after 0 (repeat [0x00; 0x04] 300)).
  apply Forall_forall. intros c Hin.
  apply list_elem_of_In, repeat_spec in Hin. subst c.
  split; [discriminate|]. repeat constructor; unfold byte_ok; lia.
Defined.

(** X6. On a negative argument the loop of [encode_i] never ends: no
    number of turns makes it return, and the call hangs. *)
Theorem encode_i_negative_hangs (data : Z) :
  data < 0 ->
  (forall fuel acc, Spinel.encode_i_loop fuel data acc = None) /\
  Spinel.encode_i data = Hang.
Proof.
  intros H. split.
  - intros fuel acc. now apply encode_i_loop_negative.
  - unfold Spinel.encode_i. now rewrite encode_i_loop_negative.
Qed.

Lemma encode_i_negative_hangs_witness :
  (forall fuel acc, Spinel.encode_i_loop fuel (-1) acc = None) /\
  Spinel.encode_i (-1) = Hang.
Proof. apply (encode_i_negative_hangs (-1)). lia. Defined.

End FramingFacts.

(** ** The shape and size of Spinel integers *)

Section VarintShape.

Local Arguments Z.testbit : simpl never.
Local Arguments Z.land : simpl never.
Local Arguments Z.lor : simpl never.
Local Arguments Z.shiftr : simpl never.
Local Arguments Z.shiftl : simpl never.
Local Arguments Z.pow : simpl never.
Local Arguments Z.mul : simpl never.

Lemma continuation_value d : Z.lor (Z.land d 0x7F) 0x80 = Z.land d 0x7F + 128.
Proof.
  assert (H : Z.land (Z.land d 0x7F) 0x80 = 0).
  { rewrite <- Z.land_assoc. change (Z.land 127 128) with 0. apply Z.land_0_r. }
  rewrite <- (Z.lxor_lor _ _ H). symmetry. now apply Z.add_nocarry_lxor.
Qed.

Lemma groups_value_app bs last :
  groups_value (bs ++ [last]) =
  groups_value bs + 128 ^ Z.of_nat (length bs) * Z.land last 0x7F.
Proof.
  induction bs as [|b bs IH].
  - cbn [app length groups_value fold_right]. change (128 ^ Z.of_nat 0) with 1. lia.
  - cbn [app length]. change (groups_value (b :: bs ++ [last]))
      with (Z.land b 0x7F + 128 * groups_value (bs ++ [last])).
    change (groups_value (b :: bs)) with (Z.land b 0x7F + 128 * groups_value bs).
    rewrite IH, Nat2Z.inj_succ, Z.pow_succ_r by lia. lia.
Qed.

(** The loop of [encode_i] on a positive argument: every byte but the
    last carries the continuation bit, the last does not and is not
    zero, and the 7-bit groups spell the argument. *)
Lemma encode_i_loop_shape fuel : forall data acc,
  0 < data < 2 ^ Z.of_nat fuel ->
  exists bs last,
    Spinel.encode_i_loop (S fuel) data acc = Some (acc ++ bs ++ [last]) /\
    Forall (fun b => 0x80 <= b < 0x100) bs /\
    0 < last < 0x80 /\
    groups_value (bs ++ [last]) = data.
Proof.
  induction fuel as [|fuel IH]; intros data acc H.
  - change (2 ^ Z.of_nat 0) with 1 in H. lia.
  - rewrite encode_i_loop_unfold.
    destruct (data =? 0) eqn:E0; [lia|]. cbn [negb].
    pose proof (land_127_range data) as Hlow.
    assert (Hsh : 0 <= Z.shiftr data 7) by (apply Z.shiftr_nonneg; lia).
    pose proof (split_groups data) as Hs.
    rewrite Z.shiftl_mul_pow2 in Hs by lia. change (2 ^ 7) with 128 in Hs.
    destruct (Z.shiftr data 7 =? 0) eqn:E1; cbn [negb].
    + apply Z.eqb_eq in E1. rewrite E1 in *.
      exists [], (Z.land data 127). rewrite encode_i_loop_unfold. cbn [Z.eqb negb app].
      repeat split; try constructor; try lia.
      cbn [groups_value fold_right].
      change 127 with (Z.ones 7). rewrite !Z.land_ones by lia.
      rewrite Z.mod_mod by lia. change 127 with (Z.ones 7) in Hs.
      rewrite Z.land_ones in Hs by lia. lia.
    + apply Z.eqb_neq in E1.
      assert (Hb : Z.shiftr data 7 < 2 ^ Z.of_nat fuel).
      { rewrite Z.shiftr_div_pow2 by lia. change (2 ^ 7) with 128.
        apply Z.div_lt_upper_bound; [lia|].
        rewrite Nat2Z.inj_succ, Z.pow_succ_r in H by lia. lia. }
      destruct (IH (Z.shiftr data 7)
                  (acc ++ [Z.lor (Z.land data 127) 128]))
        as (bs & last & He & Hbs & Hlast & Hv); [lia|].
      exists (Z.lor (Z.land data 127) 128 :: bs), last.
      rewrite He, <- app_assoc. repeat split; try lia.
      * constructor; [rewrite continuation_value; lia | exact Hbs].
      * cbn [app]. change (groups_value (?b :: ?l))
          with (Z.land b 0x7F + 128 * groups_value l).
        rewrite continuation_low, Hv. lia.
Qed.

(** The bytes [encode_i] returns on a positive argument. *)
Lemma encode_i_groups (n : Z) :
  0 < n ->
  exists bs last,
    Spinel.encode_i n = Ok (bs ++ [last]) /\
    Forall (fun b => 0x80 <= b < 0x100) bs /\
    0 < last < 0x80 /\
    groups_value (bs ++ [last]) = n.
Proof.
  intros H. unfold Spinel.encode_i.
  replace (Z.to_nat (Z.log2 n) + 2)%nat with (S (Z.to_nat (Z.log2 n) + 1)) by lia.
  destruct (encode_i_loop_shape (Z.to_nat (Z.log2 n) + 1) n [])
    as (bs & last & He & Hbs & Hlast & Hv).
  - pose proof (Z.log2_spec n H). pose proof (Z.log2_nonneg n).
    replace (Z.of_nat (Z.to_nat (Z.log2 n) + 1)) with (Z.succ (Z.log2 n)) by lia.
    lia.
  - exists bs, last. rewrite He. auto.
Qed.

(** X7. For every [n >= 1], [encode_i(n)] returns a non-empty byte
    string in which every byte but the last has the continuation bit
    (it lies in [0x80, 0xFF]), the last byte lies in [1, 0x7F], and the
    7-bit groups, least significant first, add up to [n]. *)
Theorem encode_i_shape (n : Z) :
  0 < n ->
  exists bs last,
    Spinel.encode_i n = Ok (bs ++ [last]) /\
    Forall (fun b => 0x80 <= b < 0x100) bs /\
    0 < last < 0x80 /\
    groups_value (bs ++ [last]) = n.
Proof.
  intros H. exact (encode_i_groups n H).
Qed.

Lemma encode_i_shape_witness :
  exists bs last,
    Spinel.encode_i 0x3C01 = Ok (bs ++ [last]) /\
    Forall (fun b => 0x80 <= b < 0x100) bs /\
    0 < last < 0x80 /\
    groups_value (bs ++ [last]) = 0x3C01.
Proof. apply (encode_i_shape 0x3C01). lia. Defined.

Lemma groups_value_bounds bs :
  Forall (fun b => 0x80 <= b < 0x100) bs ->
  0 <= groups_value bs < 128 ^ Z.of_nat (length bs).
Proof.
  induction bs as [|b bs IH]; intros H.
  - cbn. change (128 ^ Z.of_nat 0) with 1. lia.
  - inversion H; subst.
    change (groups_value (b :: bs)) with (Z.land b 0x7F + 128 * groups_value bs).
    cbn [length]. rewrite Nat2Z.inj_succ, Z.pow_succ_r by lia.
    pose proof (land_127_range b). specialize (IH ltac:(assumption)). lia.
Qed.

(** X8. For every [n >= 1] the length [k] of [encode_i(n)] is the number
    of 7-bit groups of [n]: [128^(k-1) <= n < 128^k].  One byte up to 127,
    two bytes from 128 to 16383, and so on. *)
Theorem encode_i_size (n : Z) (out : bytes) :
  0 < n ->
  Spinel.encode_i n = Ok out ->
  128 ^ (Z.of_nat (length out) - 1) <= n < 128 ^ Z.of_nat (length out).
Proof.
  intros H He.
  destruct (encode_i_groups n H) as (bs & last & He' & Hbs & Hlast & Hv).
  rewrite He' in He. injection He as <-.
  rewrite length_app. cbn [length].
  replace (Z.of_nat (length bs + 1) - 1) with (Z.of_nat (length bs)) by lia.
  replace (Z.of_nat (length bs + 1)) with (Z.succ (Z.of_nat (length bs))) by lia.
  rewrite Z.pow_succ_r by lia.
  rewrite groups_value_app in Hv.
  pose proof (groups_value_bounds bs Hbs) as Hb.
  assert (Hl : Z.land last 0x7F = last).
  { change 127 with (Z.ones 7). rewrite Z.land_ones by lia.
    apply Z.mod_small. lia. }
  rewrite Hl in Hv.
  assert (0 < 128 ^ Z.of_nat (length bs)) by (apply Z.pow_pos_nonneg; lia).
  nia.
Qed.

Lemma encode_i_size_witness :
  128 ^ (Z.of_nat (length [0x81; 0x78]) - 1) <= 0x3C01
    < 128 ^ Z.of_nat (length [0x81; 0x78]).
Proof. apply (encode_i_size 0x3C01 [0x81; 0x78]); [lia | reflexivity]. Defined.

End VarintShape.

(** ** HDLC-Lite: table, encoding and round trip *)

Section HdlcTable.

Local Arguments Z.lxor : simpl never.
Local Arguments Z.land : simpl never.
Local Arguments Z.shiftr : simpl never.
Local Arguments Hdlc.fcs16 : simpl never.

Lemma fcstab_is_mkfcstab : Hdlc.fcstab = Hdlc.mkfcstab.
Proof. vm_compute. reflexivity. Qed.

Lemma fcstab_length : length Hdlc.fcstab = 256%nat.
Proof. reflexivity. Qed.

Lemma fcstab_entries :
  forallb (fun e => (0 <=? e) && (e <? 65536)) Hdlc.fcstab = true.
Proof. vm_compute. reflexivity. Qed.

Lemma fcstab_entry i : 0 <= nth i Hdlc.fcstab 0 < 65536.
Proof.
  destruct (Nat.lt_ge_cases i (length Hdlc.fcstab)) as [Hlt|Hge].
  - pose proof fcstab_entries as H. rewrite forallb_forall in H.
    specialize (H _ (nth_In _ 0 Hlt)). lia.
  - rewrite nth_overflow by exact Hge. lia.
Qed.

Lemma lxor_bound n a b :
  0 < n -> 0 <= a < 2 ^ n -> 0 <= b < 2 ^ n -> 0 <= Z.lxor a b < 2 ^ n.
Proof.
  intros Hn Ha Hb.
  assert (Hnn : 0 <= Z.lxor a b) by (apply Z.lxor_nonneg; lia).
  split; [exact Hnn|].
  destruct (Z.eq_dec (Z.lxor a b) 0) as [->|Hne]; [apply Z.pow_pos_nonneg; lia|].
  apply Z.log2_lt_pow2; [lia|].
  pose proof (Z.log2_lxor a b ltac:(lia) ltac:(lia)).
  assert (Z.log2 a < n).
  { destruct (Z.eq_dec a 0) as [->|]; [simpl; lia | apply Z.log2_lt_pow2; lia]. }
  assert (Z.log2 b < n).
  { destruct (Z.eq_dec b 0) as [->|]; [simpl; lia | apply Z.log2_lt_pow2; lia]. }
  lia.
Qed.

Lemma land_255_range x : 0 <= Z.land x 0xff < 256.
Proof.
  change 255 with (Z.ones 8). rewrite Z.land_ones by lia.
  apply Z.mod_pos_bound. lia.
Qed.

Lemma fcs16_range_16 byte fcs :
  0 <= fcs < 65536 -> 0 <= Hdlc.fcs16 byte fcs < 65536.
Proof.
  intros H. unfold Hdlc.fcs16. change 65536 with (2 ^ 16).
  apply lxor_bound; [lia | | apply fcstab_entry].
  rewrite Z.shiftr_div_pow2 by lia. change (2 ^ 8) with 256.
  split; [apply Z.div_pos; lia|].
  apply Z.div_lt_upper_bound; lia.
Qed.

(** X9. The FCS table is the one [mkfcstab] builds.  For a 16-bit
    running FCS and any byte, the index [fcs16] computes lies inside the
    table, so the lookup cannot fail, and the new FCS is again a 16-bit
    value. *)
Theorem fcs16_in_bounds (byte fcs : Z) :
  0 <= fcs < 65536 ->
  Hdlc.fcstab = Hdlc.mkfcstab /\
  (Z.to_nat (Z.land (Z.lxor fcs byte) 0xff) < length Hdlc.fcstab)%nat /\
  0 <= Hdlc.fcs16 byte fcs < 65536.
Proof.
  intros H. split; [apply fcstab_is_mkfcstab|]. split.
  - rewrite fcstab_length. pose proof (land_255_range (Z.lxor fcs byte)). lia.
  - now apply fcs16_range_16.
Qed.

Lemma fcs16_in_bounds_witness :
  Hdlc.fcstab = Hdlc.mkfcstab /\
  (Z.to_nat (Z.land (Z.lxor 0xffff 0x81) 0xff) < length Hdlc.fcstab)%nat /\
  0 <= Hdlc.fcs16 0x81 0xffff < 65536.
Proof.
  apply (fcs16_in_bounds 0x81 0xffff). lia.
Defined.

Lemma fcs_fold_range p : forall f,
  0 <= f < 65536 ->
  0 <= fold_left (fun fcs b => Hdlc.fcs16 b fcs) p f < 65536.
Proof.
  induction p as [|b p IH]; intros f H; [exact H|].
  cbn [fold_left]. apply IH. now apply fcs16_range_16.
Qed.

Lemma fcs_of_range p : 0 <= fcs_of p < 65536.
Proof. unfold fcs_of. apply fcs_fold_range. unfold Hdlc.HDLC_FCS_INIT. lia. Qed.

Lemma residual_all :
  forallb (fun hi => forallb (fun lo => residual_ok (256 * hi + lo)) byte_values)
          byte_values = true.
Proof. vm_compute. reflexivity. Qed.

Lemma byte_values_in v : 0 <= v < 256 -> In v byte_values.
Proof.
  intros H. unfold byte_values. rewrite <- (Z2Nat.id v) by lia.
  apply in_map, in_seq. lia.
Qed.

(** Whatever the FCS of the payload, feeding its complemented bytes
    brings the receiver to the residual [0xF0B8]. *)
Lemma residual_good f : 0 <= f < 65536 -> residual_ok f = true.
Proof.
  intros H. pose proof residual_all as Hall. rewrite forallb_forall in Hall.
  specialize (Hall (f / 256)
    (byte_values_in _ (conj (Z.div_pos f 256 ltac:(lia) ltac:(lia))
                            (Z.div_lt_upper_bound f 256 256 ltac:(lia) ltac:(lia))))).
  rewrite forallb_forall in Hall.
  specialize (Hall (f mod 256) (byte_values_in _ (Z.mod_pos_bound f 256 ltac:(lia)))).
  rewrite <- Z.div_mod in Hall by lia. exact Hall.
Qed.

Lemma encode_byte_app b packet :
  Hdlc.encode_byte b packet = packet ++ Hdlc.encode_byte b [].
Proof.
  unfold Hdlc.encode_byte.
  destruct ((b =? Hdlc.HDLC_ESCAPE) || (b =? Hdlc.HDLC_FLAG));
    cbn [app]; rewrite <- ?app_assoc; reflexivity.
Qed.

Lemma escaped_app p q : escaped (p ++ q) = escaped p ++ escaped q.
Proof. unfold escaped. apply flat_map_app. Qed.

Lemma encode_fold payload : forall fcs packet,
  fold_left Hdlc.encode_step payload (fcs, packet) =
  (fold_left (fun f b => Hdlc.fcs16 b f) payload fcs, packet ++ escaped payload).
Proof.
  induction payload as [|b payload IH]; intros fcs packet.
  - cbn. now rewrite app_nil_r.
  - cbn [fold_left Hdlc.encode_step]. rewrite IH, escaped_cons.
    rewrite (encode_byte_app b packet), <- app_assoc. reflexivity.
Qed.

(** [encode] writes a flag, the escaped payload and FCS trailer, and a
    flag. *)
Lemma encode_frame payload :
  Hdlc.encode payload =
  [0x7E] ++ escaped (payload ++ fcs_trailer payload) ++ [0x7E].
Proof.
  unfold Hdlc.encode. rewrite encode_fold.
  rewrite (encode_byte_app (Z.shiftr _ 8)), (encode_byte_app (Z.land _ 255)).
  rewrite escaped_app. unfold fcs_trailer, fcs_of, Hdlc.HDLC_FLAG.
  cbn [escaped flat_map]. rewrite app_nil_r, <- !app_assoc. reflexivity.
Qed.

Lemma escaped_no_flag p : ~ In 0x7E (escaped p).
Proof.
  unfold escaped. rewrite in_flat_map. intros (b & _ & H).
  unfold Hdlc.encode_byte, Hdlc.HDLC_ESCAPE, Hdlc.HDLC_FLAG in H.
  destruct (b =? 125) eqn:E1; [apply Z.eqb_eq in E1; subst b; vm_compute in H; intuition lia|].
  destruct (b =? 126) eqn:E2; [apply Z.eqb_eq in E2; subst b; vm_compute in H; intuition lia|].
  cbn in H. apply Z.eqb_neq in E2. intuition lia.
Qed.

(** X10. An encoded HDLC-Lite frame carries the flag [0x7E] at its two
    ends and nowhere in between, whatever the payload. *)
Theorem encode_flags_only_at_ends (payload : bytes) :
  exists body,
    Hdlc.encode payload = 0x7E :: body ++ [0x7E] /\ ~ In 0x7E body.
Proof.
  exists (escaped (payload ++ fcs_trailer payload)).
  split; [apply encode_frame | apply escaped_no_flag].
Qed.

End HdlcTable.

(** ** Receiving: time bounds, timeouts and the HDLC-Lite round trip *)

Section ReceiveBounds.

Local Arguments Z.lxor : simpl never.
Local Arguments Z.land : simpl never.
Local Arguments Z.shiftr : simpl never.
Local Arguments Hdlc.fcs16 : simpl never.

(** A read on an open session returns within the read timeout; it
    either takes a byte from [rx] or comes back empty-handed after
    exactly 3 s. *)
Lemma read1_bounds h w :
  Serial.is_open h w = true ->
  exists b w',
    Serial.read h 1 w = (Ok b, w') /\
    Serial.is_open h w' = true /\
    trace w' = trace w /\
    now w <= now w' <= now w + 3000 /\
    ((length (rx w') < length (rx w))%nat \/ (now w' = now w + 3000 /\ b = [])).
Proof.
  intros Ho. unfold Serial.read. rewrite Ho. cbn [Serial.read_until].
  unfold Serial.READ_TIMEOUT.
  destruct (rx w) as [|[t b] r] eqn:Hr.
  - eexists _, _. split; [reflexivity|]. cbn. repeat split; auto; lia.
  - destruct (t <=? now w + 3000) eqn:E.
    + eexists _, _. split; [reflexivity|]. cbn. repeat split; auto; lia.
    + eexists _, _. split; [reflexivity|]. cbn. repeat split; auto; lia.
Qed.

Lemma read1_quiet h w :
  Serial.is_open h w = true -> quiet w ->
  Serial.read h 1 w = (Ok [], set_now (now w + 3000) w).
Proof.
  intros Ho Hq. unfold Serial.read, quiet in *. rewrite Ho.
  cbn [Serial.read_until]. unfold Serial.READ_TIMEOUT.
  destruct (rx w) as [|[t b] r]; [reflexivity|].
  destruct (t <=? now w + 3000) eqn:E; [lia | reflexivity].
Qed.

Lemma ash_loop_unfold fuel self timeout rb msg w :
  Ash.read_loop (S fuel) self timeout rb msg w =
  if (now w <? timeout) && negb (Ash.is_flag rb) then
    match Serial.read (Ash.serial self) 1 w with
    | (Ok b, w1) => Ash.read_loop fuel self timeout (Some b) (msg ++ b) w1
    | (Exc e, w1) => (Exc e, w1)
    | (Hang, w1) => (Hang, w1)
    end
  else (Ok msg, w).
Proof.
  cbn [Ash.read_loop]. unfold bind at 1. unfold time_time at 1.
  destruct ((now w <? timeout) && negb (Ash.is_flag rb)); reflexivity.
Qed.

(** The receive loop of the ASH framer always returns, and no later than
    one read timeout after its deadline. *)
Lemma ash_loop_bounded self timeout fuel : forall w rb msg,
  Serial.is_open (Ash.serial self) w = true ->
  (timeout <= now w + 3000 /\ (length (rx w) + 2 <= fuel)%nat) \/
  (timeout <= now w /\ (1 <= fuel)%nat) ->
  exists msg' w',
    Ash.read_loop fuel self timeout rb msg w = (Ok msg', w') /\
    Serial.is_open (Ash.serial self) w' = true /\
    trace w' = trace w /\
    now w <= now w' /\
    (now w' = now w \/ now w' < timeout + 3000).
Proof.
  induction fuel as [|fuel IH]; intros w rb msg Ho Hm; [lia|].
  rewrite ash_loop_unfold.
  destruct ((now w <? timeout) && negb (Ash.is_flag rb)) eqn:Ec.
  2:{ eexists _, _. split; [reflexivity|]. repeat split; auto; lia. }
  apply andb_true_iff in Ec as [Et _]. apply Z.ltb_lt in Et.
  destruct (read1_bounds _ _ Ho) as (b & w1 & Hr1 & Ho1 & Ht1 & Hn1 & Hc1).
  rewrite Hr1.
  destruct (IH w1 (Some b) (msg ++ b) Ho1) as (m' & w' & He & Ho' & Ht' & Hn' & Hb');
    [lia|].
  eexists _, _. split; [exact He|].
  repeat split; [exact Ho' | congruence | lia | lia].
Qed.

Lemma replace2_nonempty o1 o2 r msg :
  msg <> [] -> replace2 o1 o2 [r] msg <> [].
Proof.
  destruct msg as [|a [|b tl]]; [congruence | discriminate |].
  intros _. cbn [replace2]. destruct ((a =? o1) && (b =? o2)); discriminate.
Qed.

Lemma revertEscapedBytes_nonempty msg :
  msg <> [] -> Ash.revertEscapedBytes msg <> [].
Proof.
  intros H. unfold Ash.revertEscapedBytes.
  repeat apply replace2_nonempty. exact H.
Qed.

(** The ASH [getResponse] on an open session: it returns, with status -1
    and nothing else or with status 0 and a non-empty message, and
    writes nothing. *)
Lemma ash_getResponse_outcome (self : Ash.state) (applyRandomize : bool) (w : world) :
  Serial.is_open (Ash.serial self) w = true ->
  exists status msg parsed w',
    Ash.getResponse self applyRandomize w = (Ok (status, msg, parsed), w') /\
    ((status = -1 /\ msg = None /\ parsed = None) \/
     (status = 0 /\ exists m, msg = Some m /\ m <> [])) /\
    trace w' = trace w /\
    now w <= now w' < now w + 6000.
Proof.
  intros Ho. unfold Ash.getResponse.
  unfold bind at 1. unfold time_time at 1.
  unfold bind at 1. unfold get_world at 1.
  unfold bind at 1.
  destruct (ash_loop_bounded self (now w + 3000) (length (rx w) + 2) w None [] Ho)
    as (m & w' & He & Ho' & Ht & Hn & Hb); [lia|].
  rewrite He.
  destruct m as [|a m].
  - cbn [length Nat.eqb]. eexists _, _, _, _. split; [reflexivity|].
    repeat split; auto; lia.
  - cbn [length Nat.eqb].
    destruct applyRandomize; eexists _, _, _, _; (split; [reflexivity|]);
      (split; [right; split; [reflexivity|]; eexists; split; [reflexivity|];
               apply revertEscapedBytes_nonempty; discriminate
              | split; [exact Ht | lia]]).
Qed.

(** A read of one byte on an open session: either nothing reaches the
    host within the read timeout and the read comes back empty-handed
    3 s later, or it takes the first byte off the line. *)
Lemma read1_cases h w :
  Serial.is_open h w = true ->
  (quiet w /\ Serial.read h 1 w = (Ok [], set_now (now w + 3000) w)) \/
  (exists t b r,
     rx w = (t, b) :: r /\ t <= now w + 3000 /\
     Serial.read h 1 w = (Ok [b], set_rx r (set_now (Z.max (now w) t) w))).
Proof.
  intros Ho. unfold Serial.read, quiet. rewrite Ho. cbn [Serial.read_until].
  unfold Serial.READ_TIMEOUT.
  destruct (rx w) as [|[t b] r]; [left; split; [exact I | reflexivity]|].
  destruct (t <=? now w + 3000) eqn:E.
  - right. exists t, b, r. repeat split. lia.
  - left. split; [lia | reflexivity].
Qed.

(** The receive loop of the ASH framer takes a run [taken] of bytes off
    the line and appends them to the message: none at all exactly when
    it does not turn or nothing reaches the host in time, and no byte
    after a flag. *)
Lemma ash_loop_takes self timeout fuel : forall w rb msg,
  Serial.is_open (Ash.serial self) w = true ->
  (timeout <= now w + 3000 /\ (length (rx w) + 2 <= fuel)%nat) \/
  (timeout <= now w /\ (1 <= fuel)%nat) ->
  exists taken w',
    Ash.read_loop fuel self timeout rb msg w = (Ok (msg ++ map snd taken), w') /\
    rx w = taken ++ rx w' /\
    (taken = [] <->
     (now w <? timeout) && negb (Ash.is_flag rb) = false \/ quiet w) /\
    Forall (fun it => snd it <> 0x7E) (removelast taken) /\
    trace w' = trace w /\
    now w <= now w' /\
    (now w' = now w \/ now w' < timeout + 3000).
Proof.
  induction fuel as [|fuel IH]; intros w rb msg Ho Hm; [lia|].
  rewrite ash_loop_unfold.
  destruct ((now w <? timeout) && negb (Ash.is_flag rb)) eqn:Ec.
  2:{ exists [], w. rewrite app_nil_r. repeat split; auto; lia. }
  apply andb_true_iff in Ec as [Et _]. apply Z.ltb_lt in Et.
  destruct (read1_cases _ _ Ho) as [[Hq Hr]|(t & b & r & Hrx & Htb & Hr)];
    rewrite Hr.
  - rewrite (app_nil_r msg).
    destruct (IH (set_now (now w + 3000) w) (Some []) msg Ho)
      as (taken & w' & He & Hx & Hi & Hf & Ht & Hn & Hb);
      [right; cbn; lia|].
    cbn in Hx, Ht, Hn, Hb, Hi.
    exists taken, w'. split; [exact He|]. split; [exact Hx|].
    split; [|split; [exact Hf | split; [exact Ht | split; lia]]].
    split; [intros _; right; exact Hq|].
    intros _. apply Hi. left.
    replace (now w + 3000 <? timeout) with false
      by (symmetry; apply Z.ltb_ge; lia).
    reflexivity.
  - destruct (IH (set_rx r (set_now (Z.max (now w) t) w)) (Some [b])
                (msg ++ [b]) Ho)
      as (taken & w' & He & Hx & Hi & Hf & Ht & Hn & Hb);
      [left; rewrite Hrx in Hm; cbn in *; lia|].
    cbn [rx trace now set_rx set_now] in Hx, Ht, Hn, Hb, Hi.
    rewrite <- app_assoc in He.
    exists ((t, b) :: taken), w'. split; [exact He|].
    split; [rewrite Hrx, Hx; reflexivity|].
    split; [|split; [|split; [exact Ht | split; lia]]].
    + split; [discriminate|].
      intros [Hc|Hq]; [discriminate Hc|].
      unfold quiet in Hq. rewrite Hrx in Hq. lia.
    + destruct (b =? 0x7E) eqn:Eb.
      * assert (taken = []) as ->; [|constructor].
        apply Hi. left. unfold Ash.is_flag. rewrite Eb. apply andb_false_r.
      * apply Z.eqb_neq in Eb. destruct taken as [|it taken]; [constructor|].
        change (removelast ((t, b) :: it :: taken))
          with ((t, b) :: removelast (it :: taken)).
        constructor; [exact Eb | exact Hf].
Qed.

(** X11. On an open session the ASH [getResponse] always returns, within
    6 s of the call and without writing, and what it returns is fixed by
    the run [taken] of bytes it took off the line, which holds no byte
    after a flag.  The run is empty exactly when nothing reached the
    host within the 3 s read timeout, and then the result is status -1
    and nothing else.  Otherwise the result is status 0 with the bytes
    taken, un-stuffed (a non-empty message, whether or not a flag ends
    it), and on request bytes [1..-3] of that message de-whitened. *)
Theorem ash_getResponse_bounded (self : Ash.state) (applyRandomize : bool) (w : world) :
  Serial.is_open (Ash.serial self) w = true ->
  exists taken w',
    rx w = taken ++ rx w' /\
    (taken = [] <-> quiet w) /\
    Forall (fun it => snd it <> 0x7E) (removelast taken) /\
    Ash.getResponse self applyRandomize w =
      (Ok match taken with
          | [] => (-1, None, None)
          | _ :: _ =>
              let msg := Ash.revertEscapedBytes (map snd taken) in
              (0, Some msg,
               if applyRandomize
               then Some (Ash.dataRandomize (slice_from_to_neg 1 3 msg))
               else None)
          end, w') /\
    (taken <> [] -> Ash.revertEscapedBytes (map snd taken) <> []) /\
    trace w' = trace w /\
    now w <= now w' < now w + 6000.
Proof.
  intros Ho. unfold Ash.getResponse.
  unfold bind at 1. unfold time_time at 1.
  unfold bind at 1. unfold get_world at 1.
  unfold bind at 1.
  destruct (ash_loop_takes self (now w + 3000) (length (rx w) + 2) w None [] Ho)
    as (taken & w' & He & Hx & Hi & Hf & Ht & Hn & Hb); [lia|].
  rewrite He. exists taken, w'.
  split; [exact Hx|]. split.
  { rewrite Hi. split; [|auto]. intros [Hc|Hq]; [|exact Hq].
    cbn [Ash.is_flag negb] in Hc. rewrite andb_true_r in Hc.
    apply Z.ltb_ge in Hc. lia. }
  split; [exact Hf|]. split.
  { destruct taken as [|[t b] taken]; [reflexivity|].
    cbn [app map snd length Nat.eqb]. destruct applyRandomize; reflexivity. }
  split.
  { intros Hne. apply revertEscapedBytes_nonempty.
    destruct taken; [congruence | discriminate]. }
  split; [exact Ht | lia].
Qed.

Lemma ash_getResponse_bounded_witness :
  exists taken w',
    rx (incoming [0x1A; 0xC1; 0x02; 0x7E; 0x52]) = taken ++ rx w' /\
    (taken = [] <-> quiet (incoming [0x1A; 0xC1; 0x02; 0x7E; 0x52])) /\
    Forall (fun it => snd it <> 0x7E) (removelast taken) /\
    Ash.getResponse (Ash.init 0) true (incoming [0x1A; 0xC1; 0x02; 0x7E; 0x52]) =
      (Ok match taken with
          | [] => (-1, None, None)
          | _ :: _ =>
              let msg := Ash.revertEscapedBytes (map snd taken) in
              (0, Some msg, Some (Ash.dataRandomize (slice_from_to_neg 1 3 msg)))
          end, w') /\
    (taken <> [] -> Ash.revertEscapedBytes (map snd taken) <> []) /\
    trace w' = trace (incoming [0x1A; 0xC1; 0x02; 0x7E; 0x52]) /\
    now (incoming [0x1A; 0xC1; 0x02; 0x7E; 0x52]) <= now w'
      < now (incoming [0x1A; 0xC1; 0x02; 0x7E; 0x52]) + 6000.
Proof.
  apply (ash_getResponse_bounded (Ash.init 0) true
           (incoming [0x1A; 0xC1; 0x02; 0x7E; 0x52])).
  reflexivity.
Defined.

(** The receive loop of the HDLC-Lite framer: an escape makes it read
    twice in one turn, so it may overrun its deadline by two read
    timeouts. *)
Lemma hdlc_loop_bounded self timeout fuel : forall w fcs packet,
  Serial.is_open (Hdlc.serial self) w = true ->
  (timeout <= now w + 3000 /\ (length (rx w) + 2 <= fuel)%nat) \/
  (timeout <= now w /\ (1 <= fuel)%nat) ->
  exists fcs' packet' w',
    Hdlc.read_loop fuel self timeout fcs packet w = (Ok (fcs', packet'), w') /\
    now w <= now w' /\
    (now w' = now w \/ now w' < timeout + 6000).
Proof.
  induction fuel as [|fuel IH]; intros w fcs packet Ho Hm; [lia|].
  rewrite hdlc_loop_unfold.
  destruct (now w <? timeout) eqn:Et.
  2:{ eexists _, _, _. split; [reflexivity|]. split; auto; lia. }
  apply Z.ltb_lt in Et.
  destruct (read1_bounds _ _ Ho) as (b & w1 & Hr1 & Ho1 & Ht1 & Hn1 & Hc1).
  rewrite Hr1.
  destruct (Hdlc.int_from_bytes b =? 126).
  { destruct (length packet =? 0)%nat.
    - destruct (IH w1 fcs packet Ho1) as (f' & p' & w' & He & Hn' & Hb'); [lia|].
      eexists _, _, _. split; [exact He|]. split; lia.
    - eexists _, _, _. split; [reflexivity|]. split; lia. }
  destruct (Hdlc.int_from_bytes b =? 125).
  - destruct (read1_bounds _ _ Ho1) as (b2 & w2 & Hr2 & Ho2 & Ht2 & Hn2 & Hc2).
    rewrite Hr2.
    match goal with
    | |- context [Hdlc.read_loop fuel self timeout ?f ?p w2] =>
        destruct (IH w2 f p Ho2) as (f' & p' & w' & He & Hn' & Hb'); [lia|]
    end.
    eexists _, _, _. split; [exact He|]. split; lia.
  - match goal with
    | |- context [Hdlc.read_loop fuel self timeout ?f ?p w1] =>
        destruct (IH w1 f p Ho1) as (f' & p' & w' & He & Hn' & Hb'); [lia|]
    end.
    eexists _, _, _. split; [exact He|]. split; lia.
Qed.

(** X12. On an open session the HDLC-Lite [getResponse] always returns,
    within 9 s of the call, with status 0 and a packet or status -1 and
    none; it writes nothing. *)
Theorem hdlc_getResponse_bounded (self : Hdlc.state) (w : world) :
  Serial.is_open (Hdlc.serial self) w = true ->
  exists status response w',
    Hdlc.getResponse self w = (Ok (status, response), w') /\
    ((status = 0 /\ response <> None) \/ (status = -1 /\ response = None)) /\
    trace w' = trace w /\
    now w <= now w' < now w + 9000.
Proof.
  intros Ho.
  destruct (hdlc_getResponse_returns self w Ho) as (st & resp & w' & He & Hst & Ht).
  exists st, resp, w'. repeat split; try assumption.
  - revert He. unfold Hdlc.getResponse.
    unfold bind at 1. unfold time_time at 1.
    unfold bind at 1. unfold get_world at 1.
    unfold bind at 1.
    destruct (hdlc_loop_bounded self (now w + 3000) (length (rx w) + 2) w
                Hdlc.HDLC_FCS_INIT [] Ho) as (f & p & w1 & He1 & Hn & Hb); [lia|].
    rewrite He1.
    destruct (length p =? 0)%nat; [intros H; injection H as _ _ <-; lia|].
    destruct (negb (f =? Hdlc.HDLC_FCS_GOOD)); intros H; injection H as _ _ <-; lia.
  - revert He. unfold Hdlc.getResponse.
    unfold bind at 1. unfold time_time at 1.
    unfold bind at 1. unfold get_world at 1.
    unfold bind at 1.
    destruct (hdlc_loop_bounded self (now w + 3000) (length (rx w) + 2) w
                Hdlc.HDLC_FCS_INIT [] Ho) as (f & p & w1 & He1 & Hn & Hb); [lia|].
    rewrite He1.
    destruct (length p =? 0)%nat; [intros H; injection H as _ _ <-; lia|].
    destruct (negb (f =? Hdlc.HDLC_FCS_GOOD)); intros H; injection H as _ _ <-; lia.
Qed.

Lemma hdlc_getResponse_bounded_witness :
  exists status response w',
    Hdlc.getResponse (Hdlc.init 0) (incoming [0x7E; 0x7D]) = (Ok (status, response), w') /\
    ((status = 0 /\ response <> None) \/ (status = -1 /\ response = None)) /\
    trace w' = trace (incoming [0x7E; 0x7D]) /\
    now (incoming [0x7E; 0x7D]) <= now w' < now (incoming [0x7E; 0x7D]) + 9000.
Proof.
  apply (hdlc_getResponse_bounded (Hdlc.init 0) (incoming [0x7E; 0x7D])).
  reflexivity.
Defined.

(** X13. When nothing arrives within 3 s of the call, both receivers
    give up with status -1 exactly 3 s later: the ASH one because no
    byte was collected, the HDLC-Lite one because the timed-out read is
    taken for a zero byte and the FCS check then fails. *)
Theorem receivers_time_out (ash : Ash.state) (hdlc : Hdlc.state)
    (applyRandomize : bool) (w : world) :
  Serial.is_open (Ash.serial ash) w = true ->
  Serial.is_open (Hdlc.serial hdlc) w = true ->
  quiet w ->
  Ash.getResponse ash applyRandomize w =
    (Ok (-1, None, None), set_now (now w + 3000) w) /\
  Hdlc.getResponse hdlc w = (Ok (-1, None), set_now (now w + 3000) w).
Proof.
  intros Ha Hh Hq. split.
  - unfold Ash.getResponse.
    unfold bind at 1. unfold time_time at 1.
    unfold bind at 1. unfold get_world at 1.
    replace (length (rx w) + 2)%nat with (S (S (length (rx w)))) by lia.
    unfold bind at 1. rewrite ash_loop_unfold.
    replace (now w <? now w + 3000) with true by (symmetry; apply Z.ltb_lt; lia).
    cbn [Ash.is_flag negb andb].
    rewrite (read1_quiet _ _ Ha Hq), ash_loop_unfold.
    cbn [now set_now]. rewrite Z.ltb_irrefl. reflexivity.
  - unfold Hdlc.getResponse.
    unfold bind at 1. unfold time_time at 1.
    unfold bind at 1. unfold get_world at 1.
    replace (length (rx w) + 2)%nat with (S (S (length (rx w)))) by lia.
    unfold bind at 1. rewrite hdlc_loop_unfold.
    replace (now w <? now w + 3000) with true by (symmetry; apply Z.ltb_lt; lia).
    rewrite (read1_quiet _ _ Hh Hq).
    change (Hdlc.int_from_bytes []) with 0. cbn [Z.eqb app].
    rewrite hdlc_loop_unfold.
    cbn [now set_now]. rewrite Z.ltb_irrefl. reflexivity.
Qed.

Lemma receivers_time_out_witness :
  Ash.getResponse (Ash.init 0) true (incoming []) =
    (Ok (-1, None, None), set_now 3000 (incoming [])) /\
  Hdlc.getResponse (Hdlc.init 0) (incoming []) =
    (Ok (-1, None), set_now 3000 (incoming [])).
Proof.
  apply (receivers_time_out (Ash.init 0) (Hdlc.init 0) true (incoming []));
    reflexivity || exact I.
Defined.

End ReceiveBounds.

(** ** HDLC-Lite round trip *)

Section HdlcRoundTrip.

Local Arguments Z.lxor : simpl never.
Local Arguments Z.land : simpl never.
Local Arguments Z.shiftr : simpl never.
Local Arguments Hdlc.fcs16 : simpl never.

Lemma inflight_rx h timeout rest w :
  inflight h timeout [] rest w -> rx w = rest.
Proof. intros (_ & H & _). exact H. Qed.

(** The whole outcome of [getResponse] on a stream of flags, an escaped
    non-empty byte sequence and a flag: the result, and the world it
    leaves, in which what followed the closing flag is still to be
    read. *)
Lemma hdlc_frame_outcome self w k p items rest :
  Serial.is_open (Hdlc.serial self) w = true ->
  p <> [] ->
  rx w = items ++ rest ->
  map snd items = repeat 0x7E k ++ escaped p ++ [0x7E] ->
  Forall (fun it => fst it < now w + 3000) items ->
  exists w',
    Hdlc.getResponse self w =
      (Ok (if fcs_of p =? 0xF0B8 then (0, Some (slice_to_neg 2 p)) else (-1, None)),
       w') /\
    rx w' = rest /\
    trace w' = trace w.
Proof.
  intros Ho Hp Hr Hm Hall.
  destruct (hdlc_getResponse_returns self w Ho) as (st & resp & w' & He & _ & Ht).
  exists w'. rewrite He.
  apply map_eq_app in Hm as (flags & items1 & -> & Hflags & Hm).
  apply map_eq_app in Hm as (enc & last & -> & Henc & Hlast).
  destruct last as [|[t e] [|]]; try discriminate.
  cbn in Hlast. injection Hlast as ->.
  assert (Hin : inflight (Hdlc.serial self) (now w + 3000)
                  (flags ++ enc ++ [(t, 126)]) rest w).
  { unfold inflight. repeat split; try assumption; lia. }
  destruct (hdlc_skip_flags _ _ _ _ _ _ _ Hflags Hin) as (w1 & Hin1 & Hloop1).
  destruct (hdlc_collect self _ rest p enc [(t, 126)] Hdlc.HDLC_FCS_INIT [] w1
              Henc Hin1) as (w2 & Hin2 & Hloop2).
  destruct (inflight_consume _ _ _ _ _ _ Hin2) as [Hread Hin3].
  cbn [snd] in Hread. apply inflight_rx in Hin3.
  revert He. unfold Hdlc.getResponse. unfold bind at 1. unfold time_time at 1.
  unfold bind at 1. unfold get_world at 1.
  rewrite Hr, !length_app. cbn [length].
  pose proof (escaped_length p) as Hlen.
  rewrite <- Henc, length_map in Hlen.
  apply (f_equal (@length Z)) in Hflags.
  rewrite length_map, repeat_length in Hflags.
  replace (length flags + (length enc + 1) + length rest + 2)%nat
    with (k + (length p + S (length enc - length p + length rest + 2)))%nat by lia.
  unfold bind at 1.
  rewrite Hloop1, Hloop2, hdlc_loop_unfold.
  rewrite (inflight_now _ _ _ _ _ Hin2), Hread, int_from_bytes_one.
  cbn [Z.eqb Pos.eqb app].
  destruct p as [|b p]; [congruence|]. cbn [length Nat.eqb].
  unfold fcs_of, Hdlc.HDLC_FCS_GOOD.
  destruct (fold_left _ (b :: p) Hdlc.HDLC_FCS_INIT =? 61624);
    cbn [negb]; intros H; injection H as <- <- <-; auto.
Qed.

Lemma fcs_of_with_trailer payload :
  fcs_of (payload ++ fcs_trailer payload) = Hdlc.HDLC_FCS_GOOD.
Proof.
  pose proof (residual_good _ (fcs_of_range payload)) as H.
  unfold residual_ok in H. apply Z.eqb_eq in H.
  unfold fcs_of at 1. rewrite fold_left_app. exact H.
Qed.

Lemma slice_off_trailer (payload : bytes) a b :
  slice_to_neg 2 (payload ++ [a; b]) = payload.
Proof.
  unfold slice_to_neg. rewrite length_app. cbn [length].
  replace (length payload + 2 - 2)%nat with (length payload) by lia.
  rewrite take_app_length. reflexivity.
Qed.

(** A frame built by [encode] is received as its payload. *)
Lemma hdlc_encode_received (self : Hdlc.state) (w : world) (payload : bytes)
    (items rest : list (Z * Z)) :
  Serial.is_open (Hdlc.serial self) w = true ->
  rx w = items ++ rest ->
  map snd items = Hdlc.encode payload ->
  Forall (fun it => fst it < now w + 3000) items ->
  exists w',
    Hdlc.getResponse self w = (Ok (0, Some payload), w') /\
    rx w' = rest /\
    trace w' = trace w.
Proof.
  intros Ho Hr Hm Hall. rewrite encode_frame in Hm.
  destruct (hdlc_frame_outcome self w 1 (payload ++ fcs_trailer payload) items rest
              Ho) as (w' & He & Hrx & Ht); try assumption.
  - destruct payload; discriminate.
  - exists w'. rewrite He, fcs_of_with_trailer. unfold Hdlc.HDLC_FCS_GOOD.
    cbn [Z.eqb Pos.eqb]. unfold fcs_trailer. rewrite slice_off_trailer. auto.
Qed.

(** X14. HDLC-Lite round trip: when the frame [encode] builds for a
    payload comes in on an open session within the timeout,
    [getResponse] returns status 0 and that payload, whatever the
    payload (empty included), and leaves what follows the frame
    unread. *)
Theorem hdlc_roundtrip (self : Hdlc.state) (w : world) (payload : bytes)
    (items rest : list (Z * Z)) :
  Serial.is_open (Hdlc.serial self) w = true ->
  rx w = items ++ rest ->
  map snd items = Hdlc.encode payload ->
  Forall (fun it => fst it < now w + 3000) items ->
  exists w',
    Hdlc.getResponse self w = (Ok (0, Some payload), w') /\
    rx w' = rest /\
    trace w' = trace w.
Proof.
  intros Ho Hr Hm Hall.
  exact (hdlc_encode_received self w payload items rest Ho Hr Hm Hall).
Qed.

Lemma hdlc_roundtrip_witness :
  exists w',
    Hdlc.getResponse (Hdlc.init 0)
      (incoming (Hdlc.encode [0x7D; 0x7E; 0x00] ++ [0x55]))
      = (Ok (0, Some [0x7D; 0x7E; 0x00]), w') /\
    rx w' = [(1, 0x55)] /\
    trace w' = trace (incoming (Hdlc.encode [0x7D; 0x7E; 0x00] ++ [0x55])).
Proof.
  apply (hdlc_roundtrip (Hdlc.init 0)
           (incoming (Hdlc.encode [0x7D; 0x7E; 0x00] ++ [0x55]))
           [0x7D; 0x7E; 0x00]
           (map (fun b => (1, b)) (Hdlc.encode [0x7D; 0x7E; 0x00]))
           [(1, 0x55)]).
  - reflexivity.
  - vm_compute. reflexivity.
  - vm_compute. reflexivity.
  - vm_compute. repeat constructor.
Defined.

(** X15. Bootloader echo: when the device sends the Spinel reset frame
    back byte for byte, [initSpinelProtocol] returns -1 and sends
    nothing after the reset. *)
Theorem initSpinelProtocol_echo (self : Spinel.state) (w : world)
    (items rest : list (Z * Z)) :
  Serial.is_open (Hdlc.serial (Spinel.hdlc self)) w = true ->
  rx w = items ++ rest ->
  map snd items = Hdlc.encode [0x80; 0x01] ->
  Forall (fun it => fst it < now w + 3000) items ->
  exists w',
    Spinel.initSpinelProtocol self w =
      (Ok (-1, Spinel.set_spinelVersion None self), w') /\
    written (trace w') = written (trace w) ++ [Hdlc.encode [0x80; 0x01]].
Proof.
  intros Ho Hr Hm Hall. unfold Spinel.initSpinelProtocol.
  change (Spinel.encode_i Spinel.CMD_RESET) with (@Ok bytes [0x01]).
  unfold bind at 1. unfold lift at 1.
  unfold bind at 1. unfold Hdlc.sendHdlcPacket.
  unfold bind at 1. unfold Serial.write at 1.
  cbn [Spinel.hdlc Spinel.set_spinelVersion]. rewrite Ho.
  set (w1 := emit _ w).
  destruct (hdlc_encode_received (Spinel.hdlc self) w1 [0x80; 0x01] items rest)
    as (w' & He & _ & Ht); try assumption.
  change ([Spinel.HEADER_ASYNC] ++ [1]) with [0x80; 0x01].
  rewrite He. cbn [Z.eqb negb].
  rewrite bool_decide_eq_true_2 by reflexivity.
  exists w'. split; [reflexivity|].
  rewrite Ht. unfold w1. cbn [trace emit]. now rewrite written_app.
Qed.

Lemma initSpinelProtocol_echo_witness :
  exists w',
    Spinel.initSpinelProtocol (Spinel.init 0) (incoming (Hdlc.encode [0x80; 0x01])) =
      (Ok (-1, Spinel.set_spinelVersion None (Spinel.init 0)), w') /\
    written (trace w') =
      written (trace (incoming (Hdlc.encode [0x80; 0x01]))) ++ [Hdlc.encode [0x80; 0x01]].
Proof.
  apply (initSpinelProtocol_echo (Spinel.init 0)
           (incoming (Hdlc.encode [0x80; 0x01]))
           (map (fun b => (1, b)) (Hdlc.encode [0x80; 0x01])) []).
  - reflexivity.
  - vm_compute. reflexivity.
  - vm_compute. reflexivity.
  - vm_compute. repeat constructor.
Defined.

End HdlcRoundTrip.

(** ** The ASH receiver and the request / response / ACK exchange *)

Section AshExchange.

Local Arguments Z.lxor : simpl never.
Local Arguments Z.land : simpl never.
Local Arguments Z.lor : simpl never.
Local Arguments Z.shiftr : simpl never.

(** The ASH loop collects every byte up to the first flag. *)
Lemma ash_collect self timeout rest body : forall enc last rb msg w,
  Ash.is_flag rb = false ->
  map snd enc = body ->
  ~ In 0x7E body ->
  snd last = 0x7E ->
  inflight (Ash.serial self) timeout (enc ++ [last]) rest w ->
  forall fuel,
    (length body + 2 <= fuel)%nat ->
    exists w',
      Ash.read_loop fuel self timeout rb msg w = (Ok (msg ++ body ++ [0x7E]), w') /\
      rx w' = rest /\
      trace w' = trace w.
Proof.
  induction body as [|b body IH]; intros enc last rb msg w Hrb Hm Hnf Hl Hin fuel Hf.
  - destruct enc; [|discriminate]. cbn [app] in Hin.
    destruct (inflight_consume _ _ _ _ _ _ Hin) as [Hread Hin'].
    destruct fuel as [|[|fuel]]; try (cbn in Hf; lia).
    rewrite ash_loop_unfold, (inflight_now _ _ _ _ _ Hin), Hrb, Hread, Hl.
    cbn [andb negb]. rewrite ash_loop_unfold. cbn [Ash.is_flag Z.eqb Pos.eqb negb].
    rewrite andb_false_r.
    exists (consume w). split; [reflexivity|]. split.
    + destruct Hin' as (_ & H & _). exact H.
    + unfold consume. destruct (rx w) as [|[t x] r]; reflexivity.
  - destruct enc as [|[t e] enc]; [discriminate|].
    cbn in Hm. injection Hm as -> Hm.
    rewrite <- app_comm_cons in Hin.
    destruct (inflight_consume _ _ _ _ _ _ Hin) as [Hread Hin'].
    cbn [snd] in Hread.
    destruct fuel as [|fuel]; [cbn in Hf; lia|].
    assert (Hb : b <> 126) by (intros ->; apply Hnf; now left).
    destruct (IH enc last (Some [b]) (msg ++ [b]) (consume w)) with (fuel := fuel)
      as (w' & He & Hrx & Ht); try assumption.
    + cbn [Ash.is_flag]. now apply Z.eqb_neq.
    + intros H. apply Hnf. now right.
    + cbn [length] in Hf. lia.
    + exists w'. rewrite ash_loop_unfold, (inflight_now _ _ _ _ _ Hin), Hrb, Hread.
      cbn [andb negb]. rewrite <- app_assoc in He. split; [exact He|].
      split; [exact Hrx|]. rewrite Ht.
      unfold consume. destruct (rx w) as [|[t' x] r]; reflexivity.
Qed.

(** A flag-free body and its flag are received as one message. *)
Lemma ash_frame_received (self : Ash.state) (applyRandomize : bool)
    (w : world) (body : bytes) (items rest : list (Z * Z)) :
  Serial.is_open (Ash.serial self) w = true ->
  rx w = items ++ rest ->
  map snd items = body ++ [0x7E] ->
  ~ In 0x7E body ->
  Forall (fun it => fst it < now w + 3000) items ->
  exists w',
    Ash.getResponse self applyRandomize w =
      (Ok (0, Some (Ash.revertEscapedBytes (body ++ [0x7E])),
           if applyRandomize
           then Some (Ash.dataRandomize
                        (slice_from_to_neg 1 3
                           (Ash.revertEscapedBytes (body ++ [0x7E]))))
           else None), w') /\
    rx w' = rest /\
    trace w' = trace w.
Proof.
  intros Ho Hr Hm Hnf Hall.
  apply map_eq_app in Hm as (enc & last & -> & Henc & Hlast).
  destruct last as [|last [|]]; try discriminate.
  cbn in Hlast. injection Hlast as Hlast.
  assert (Hin : inflight (Ash.serial self) (now w + 3000) (enc ++ [last]) rest w).
  { unfold inflight. repeat split; try assumption; lia. }
  destruct (ash_collect self (now w + 3000) rest body enc last None [] w
              eq_refl Henc Hnf Hlast Hin (length (rx w) + 2)) as (w' & He & Hrx & Ht).
  { rewrite Hr, !length_app, <- Henc, length_map. lia. }
  exists w'. unfold Ash.getResponse.
  unfold bind at 1. unfold time_time at 1.
  unfold bind at 1. unfold get_world at 1.
  unfold bind at 1. rewrite He. cbn [app].
  destruct (length (body ++ [0x7E%Z]) =? 0)%nat eqn:El.
  { apply Nat.eqb_eq in El. rewrite length_app in El. cbn in El. lia. }
  destruct applyRandomize; auto.
Qed.

(** X16. The ASH receiver returns the bytes up to and including the
    first flag, un-stuffed: when [body], free of [0x7E], then a flag
    come in within the timeout, [getResponse] returns status 0 with
    [revertEscapedBytes (body ++ [0x7E])] and, on request, bytes
    [1..-3] of it de-whitened; what follows the flag stays unread. *)
Theorem ash_getResponse_frame (self : Ash.state) (applyRandomize : bool)
    (w : world) (body : bytes) (items rest : list (Z * Z)) :
  Serial.is_open (Ash.serial self) w = true ->
  rx w = items ++ rest ->
  map snd items = body ++ [0x7E] ->
  ~ In 0x7E body ->
  Forall (fun it => fst it < now w + 3000) items ->
  exists w',
    Ash.getResponse self applyRandomize w =
      (Ok (0, Some (Ash.revertEscapedBytes (body ++ [0x7E])),
           if applyRandomize
           then Some (Ash.dataRandomize
                        (slice_from_to_neg 1 3
                           (Ash.revertEscapedBytes (body ++ [0x7E]))))
           else None), w') /\
    rx w' = rest /\
    trace w' = trace w.
Proof.
  intros Ho Hr Hm Hnf Hall.
  exact (ash_frame_received self applyRandomize w body items rest
           Ho Hr Hm Hnf Hall).
Qed.

Lemma ash_getResponse_frame_witness :
  exists w',
    Ash.getResponse (Ash.init 0) false
      (incoming ([0x1A; 0xC1; 0x02; 0x0B; 0x0A; 0x52] ++ [0x7E])) =
      (Ok (0, Some (Ash.revertEscapedBytes
                      ([0x1A; 0xC1; 0x02; 0x0B; 0x0A; 0x52] ++ [0x7E])), None), w') /\
    rx w' = [] /\
    trace w' = trace (incoming ([0x1A; 0xC1; 0x02; 0x0B; 0x0A; 0x52] ++ [0x7E])).
Proof.
  apply (ash_getResponse_frame (Ash.init 0) false
           (incoming ([0x1A; 0xC1; 0x02; 0x0B; 0x0A; 0x52] ++ [0x7E]))
           [0x1A; 0xC1; 0x02; 0x0B; 0x0A; 0x52]
           (map (fun b => (1, b)) ([0x1A; 0xC1; 0x02; 0x0B; 0x0A; 0x52] ++ [0x7E]))
           []).
  - reflexivity.
  - reflexivity.
  - reflexivity.
  - simpl. lia.
  - vm_compute. repeat constructor.
Defined.

End AshExchange.

(** ** ASH loopback and the acknowledged exchange *)

Section AshLoopback.

Local Arguments Z.lxor : simpl never.
Local Arguments Z.land : simpl never.
Local Arguments Z.lor : simpl never.
Local Arguments Z.shiftr : simpl never.
Local Arguments Z.shiftl : simpl never.
Local Arguments crc_hqx : simpl never.

Lemma replace2_cons2 o1 o2 new a b rest :
  replace2 o1 o2 new (a :: b :: rest) =
  if (a =? o1) && (b =? o2) then new ++ replace2 o1 o2 new rest
  else a :: replace2 o1 o2 new (b :: rest).
Proof. reflexivity. Qed.

Lemma replace2_snoc_both o1 o2 new z :
  z <> o1 -> z <> o2 ->
  forall s,
    replace2 o1 o2 new (s ++ [z]) = replace2 o1 o2 new s ++ [z] /\
    forall a, replace2 o1 o2 new ((a :: s) ++ [z]) = replace2 o1 o2 new (a :: s) ++ [z].
Proof.
  intros H1 H2. induction s as [|b s [IH1 IH2]].
  - split; [reflexivity|]. intros a. cbn [app replace2].
    destruct (z =? o2) eqn:E; [lia|]. rewrite andb_false_r. reflexivity.
  - split; [apply IH2|]. intros a.
    cbn [app]. rewrite !replace2_cons2.
    destruct ((a =? o1) && (b =? o2)).
    + rewrite IH1, app_assoc. reflexivity.
    + specialize (IH2 b). cbn [app] in IH2. rewrite IH2. reflexivity.
Qed.

Lemma replace2_snoc o1 o2 new z s :
  z <> o1 -> z <> o2 ->
  replace2 o1 o2 new (s ++ [z]) = replace2 o1 o2 new s ++ [z].
Proof. intros H1 H2. apply (replace2_snoc_both o1 o2 new z H1 H2 s). Qed.

(** The closing flag passes through un-stuffing untouched. *)
Lemma revertEscapedBytes_flag s :
  Ash.revertEscapedBytes (s ++ [0x7E]) = Ash.revertEscapedBytes s ++ [0x7E].
Proof.
  unfold Ash.revertEscapedBytes.
  rewrite !replace2_snoc by lia. reflexivity.
Qed.

Lemma ashFrameBuilder_frame self ezsp_frame :
  fst (Ash.ashFrameBuilder self ezsp_frame) =
  Ash.replaceReservedBytes (ash_body self ezsp_frame) ++ [0x7E].
Proof. reflexivity. Qed.

Lemma payload_of_body c (wh : bytes) h l :
  slice_from_to_neg 1 3 ((([c] ++ wh) ++ [h; l]) ++ [0x7E]) = wh.
Proof.
  unfold slice_from_to_neg. rewrite !length_app. cbn [length].
  replace (1 + length wh + 2 + 1 - 3)%nat with (length ([c] ++ wh)) by (cbn; lia).
  rewrite <- app_assoc, take_app_length. reflexivity.
Qed.

(** X17. ASH loopback: when the DATA frame [ashFrameBuilder] builds for a
    payload comes in on an open session within the timeout, and its
    body before stuffing holds no [0x7D] directly followed by [5E],
    [31], [33], [38] or [3A], [getResponse(True)] returns status 0, the
    frame before stuffing with its flag, and the payload itself. *)
Theorem ash_loopback (sender reader : Ash.state) (payload : bytes) (w : world)
    (items rest : list (Z * Z)) :
  Serial.is_open (Ash.serial reader) w = true ->
  ambiguous (ash_body sender payload) = false ->
  rx w = items ++ rest ->
  map snd items = fst (Ash.ashFrameBuilder sender payload) ->
  Forall (fun it => fst it < now w + 3000) items ->
  exists w',
    Ash.getResponse reader true w =
      (Ok (0, Some (ash_body sender payload ++ [0x7E]), Some payload), w') /\
    rx w' = rest /\
    trace w' = trace w.
Proof.
  intros Ho Hamb Hr Hm Hall. rewrite ashFrameBuilder_frame in Hm.
  destruct (ash_frame_received reader true w
              (Ash.replaceReservedBytes (ash_body sender payload)) items rest)
    as (w' & He & Hrx & Ht); try assumption.
  { apply replaceReservedBytes_no_flag. }
  exists w'. rewrite He, revertEscapedBytes_flag.
  rewrite (revert_replace_unambiguous _ Hamb).
  unfold ash_body at 2. cbv zeta. rewrite payload_of_body.
  rewrite !dataRandomize_whiten, whiten_whiten. auto.
Qed.

Lemma ash_loopback_witness :
  exists w',
    Ash.getResponse (Ash.init 0) true
      (incoming (fst (Ash.ashFrameBuilder (Ash.init 0) [0x00; 0x00; 0x00; 0x04]))) =
      (Ok (0, Some (ash_body (Ash.init 0) [0x00; 0x00; 0x00; 0x04] ++ [0x7E]),
           Some [0x00; 0x00; 0x00; 0x04]), w') /\
    rx w' = [] /\
    trace w' =
      trace (incoming (fst (Ash.ashFrameBuilder (Ash.init 0) [0x00; 0x00; 0x00; 0x04]))).
Proof.
  apply (ash_loopback (Ash.init 0) (Ash.init 0) [0x00; 0x00; 0x00; 0x04]
           (incoming (fst (Ash.ashFrameBuilder (Ash.init 0) [0x00; 0x00; 0x00; 0x04])))
           (map (fun b => (1, b))
                (fst (Ash.ashFrameBuilder (Ash.init 0) [0x00; 0x00; 0x00; 0x04])))
           []).
  - reflexivity.
  - vm_compute. reflexivity.
  - vm_compute. reflexivity.
  - vm_compute. reflexivity.
  - vm_compute. repeat constructor.
Defined.

(** X18. One exchange on an open session always returns.  It writes the
    DATA frame; then, if no response came (status -1), nothing more;
    and if one came (status 0), exactly one ACK frame, built from the
    first byte of the un-stuffed response. *)
Theorem sendAshCommand_exchange (self : Ash.state) (ezspFrame : bytes) (w : world) :
  Serial.is_open (Ash.serial self) w = true ->
  exists status msg parsed w2 w3,
    written (trace w2) =
      written (trace w) ++ [fst (Ash.ashFrameBuilder self ezspFrame)] /\
    Ash.getResponse (snd (Ash.ashFrameBuilder self ezspFrame)) true w2
      = (Ok (status, msg, parsed), w3) /\
    ((status = -1 /\
      Ash.sendAshCommand self ezspFrame w =
        (Ok (-1, None, snd (Ash.ashFrameBuilder self ezspFrame)), w3)) \/
     (status = 0 /\
      exists control m,
        msg = Some (control :: m) /\
        Ash.sendAshCommand self ezspFrame w =
          (Ok (0, parsed, snd (Ash.ashFrameBuilder self ezspFrame)),
           emit (EvWrite (Ash.serial self) (Ash.ack_frame control)) w3))).
Proof.
  intros Ho. unfold Ash.sendAshCommand.
  destruct (Ash.ashFrameBuilder self ezspFrame) as [frame s1] eqn:Eb.
  assert (Hs1 : Ash.serial s1 = Ash.serial self).
  { pose proof (ashFrameBuilder_state self ezspFrame) as H.
    rewrite Eb in H. cbn [snd] in H. now rewrite H. }
  cbn [fst snd]. rewrite <- Hs1 in *.
  set (w1 := emit (EvFlushInput (Ash.serial s1))
               (set_rx (Serial.drop_arrived (now w) (rx w)) w)).
  set (w2 := emit (EvWrite (Ash.serial s1) frame) w1).
  assert (Hflush : Serial.flushInput (Ash.serial s1) w = (Ok tt, w1)).
  { unfold Serial.flushInput. now rewrite Ho. }
  assert (Hwrite : Serial.write (Ash.serial s1) frame w1 = (Ok tt, w2)).
  { unfold Serial.write.
    replace (Serial.is_open (Ash.serial s1) w1) with true by (symmetry; exact Ho).
    reflexivity. }
  assert (Ho2 : Serial.is_open (Ash.serial s1) w2 = true) by exact Ho.
  destruct (ash_getResponse_outcome s1 true w2 Ho2)
    as (st & msg & parsed & w3 & He & Hst & Ht & _).
  exists st, msg, parsed, w2, w3.
  split. { unfold w2, w1. cbn [trace emit set_rx]. now rewrite !written_app, app_nil_r. }
  split; [exact He|].
  unfold bind. rewrite Hflush, Hwrite, He.
  destruct Hst as [(-> & -> & ->) | (-> & m & -> & Hm)].
  - left. split; reflexivity.
  - right. split; [reflexivity|].
    destruct m as [|control m]; [congruence|].
    exists control, m. split; [reflexivity|].
    cbn [Z.eqb negb]. unfold lift, getitem. cbn [lookup list_lookup].
    unfold Ash.sendAck, Serial.write.
    assert (Ho3 : Serial.is_open (Ash.serial s1) w3 = true).
    { rewrite (is_open_same _ w2 w3); [exact Ho2|].
      apply (keeps_ash_getResponse s1 true _ _ _ He). }
    rewrite Ho3. reflexivity.
Qed.

Lemma sendAshCommand_exchange_witness :
  exists status msg parsed w2 w3,
    written (trace w2) =
      written (trace (incoming [0x00; 0x42; 0x7E]))
        ++ [fst (Ash.ashFrameBuilder (Ash.init 0) [0x00; 0x00; 0x00; 0x04])] /\
    Ash.getResponse (snd (Ash.ashFrameBuilder (Ash.init 0) [0x00; 0x00; 0x00; 0x04]))
      true w2 = (Ok (status, msg, parsed), w3) /\
    ((status = -1 /\
      Ash.sendAshCommand (Ash.init 0) [0x00; 0x00; 0x00; 0x04] (incoming [0x00; 0x42; 0x7E]) =
        (Ok (-1, None, snd (Ash.ashFrameBuilder (Ash.init 0) [0x00; 0x00; 0x00; 0x04])), w3)) \/
     (status = 0 /\
      exists control m,
        msg = Some (control :: m) /\
        Ash.sendAshCommand (Ash.init 0) [0x00; 0x00; 0x00; 0x04] (incoming [0x00; 0x42; 0x7E]) =
          (Ok (0, parsed, snd (Ash.ashFrameBuilder (Ash.init 0) [0x00; 0x00; 0x00; 0x04])),
           emit (EvWrite (Ash.serial (Ash.init 0)) (Ash.ack_frame control)) w3))).
Proof.
  apply (sendAshCommand_exchange (Ash.init 0) [0x00; 0x00; 0x00; 0x04]
           (incoming [0x00; 0x42; 0x7E])).
  reflexivity.
Defined.

End AshLoopback.

(** ** What the operations add to the trace *)

Lemma adds_mono {A} (phi psi : event -> bool) (m : M A) :
  covers phi psi -> adds phi m -> adds psi m.
Proof.
  intros Hi Hm w r w' H. destruct (Hm _ _ _ H) as (tr & Ht & Hf).
  exists tr. split; [exact Ht|].
  rewrite forallb_forall in *. intros e He. apply Hi, Hf, He.
Qed.

Lemma adds_nothing {A} phi (m : M A) :
  (forall w r w', m w = (r, w') -> trace w' = trace w) -> adds phi m.
Proof.
  intros Hm w r w' H. exists []. rewrite app_nil_r.
  split; [exact (Hm _ _ _ H) | reflexivity].
Qed.

Lemma adds_ret {A} phi (a : A) : adds phi (ret a).
Proof. apply adds_nothing. intros w r w' H. now injection H as _ <-. Qed.

Lemma adds_raise {A} phi e : adds phi (@raise A e).
Proof. apply adds_nothing. intros w r w' H. now injection H as _ <-. Qed.

Lemma adds_hang {A} phi : adds phi (@hang A).
Proof. apply adds_nothing. intros w r w' H. now injection H as _ <-. Qed.

Lemma adds_lift {A} phi (x : result A) : adds phi (lift x).
Proof. apply adds_nothing. intros w r w' H. now injection H as _ <-. Qed.

Lemma adds_get_world phi : adds phi get_world.
Proof. apply adds_nothing. intros w r w' H. now injection H as _ <-. Qed.

Lemma adds_time_time phi : adds phi time_time.
Proof. apply adds_nothing. intros w r w' H. now injection H as _ <-. Qed.

Lemma adds_one {A} phi (m : M A) e :
  phi e = true ->
  (forall w r w', m w = (r, w') -> trace w' = trace w ++ [e]) -> adds phi m.
Proof.
  intros He Hm w r w' H. exists [e].
  split; [exact (Hm _ _ _ H) | cbn; now rewrite He].
Qed.

Lemma adds_do_event phi e :
  covers ordinary phi -> ordinary e = true -> adds phi (do_event e).
Proof.
  intros Hc He. apply adds_one with e; [now apply Hc|].
  intros w r w' H. now injection H as _ <-.
Qed.

Lemma adds_sleep phi ms : covers ordinary phi -> adds phi (sleep ms).
Proof.
  intros Hc. apply adds_one with (EvSleep ms); [now apply Hc|].
  intros w r w' H. now injection H as _ <-.
Qed.

Lemma adds_log_info phi fmt args :
  covers ordinary phi -> adds phi (log_info fmt args).
Proof. intros Hc. now apply adds_do_event. Qed.

Lemma adds_log_critical phi fmt args :
  covers ordinary phi -> adds phi (log_critical fmt args).
Proof. intros Hc. now apply adds_do_event. Qed.

Lemma adds_bind {A B} phi (m : M A) (k : A -> M B) :
  adds phi m -> (forall a, adds phi (k a)) -> adds phi (bind m k).
Proof.
  intros Hm Hk w r w' H. unfold bind in H.
  destruct (m w) as [[a|e|] w1] eqn:E; destruct (Hm _ _ _ E) as (t1 & H1 & F1).
  - destruct (Hk a _ _ _ H) as (t2 & H2 & F2). exists (t1 ++ t2). split.
    + rewrite H2, H1, <- app_assoc. reflexivity.
    + rewrite forallb_app, F1, F2. reflexivity.
  - injection H as _ <-. eauto.
  - injection H as _ <-. eauto.
Qed.

Lemma read_until_trace deadline size : forall w data w',
  Serial.read_until deadline size w = (data, w') -> trace w' = trace w.
Proof.
  induction size as [|size IH]; intros w data w' H; cbn [Serial.read_until] in H.
  - now injection H as _ <-.
  - destruct (rx w) as [|[t b] r].
    + now injection H as _ <-.
    + destruct (t <=? deadline).
      * destruct (Serial.read_until deadline size _) as [more w1] eqn:E.
        injection H as _ <-. apply IH in E. exact E.
      * now injection H as _ <-.
Qed.

Lemma adds_read phi h size : adds phi (Serial.read h size).
Proof.
  apply adds_nothing. intros w r w' H. unfold Serial.read in H.
  destruct (Serial.is_open h w).
  - destruct (Serial.read_until _ size w) as [data w1] eqn:E.
    injection H as _ <-. exact (read_until_trace _ _ _ _ _ E).
  - now injection H as _ <-.
Qed.

Lemma adds_write phi h data : covers ordinary phi -> adds phi (Serial.write h data).
Proof.
  intros Hc w r w' H. unfold Serial.write in H.
  destruct (Serial.is_open h w); injection H as _ <-.
  - exists [EvWrite h data]. split; [reflexivity|].
    cbn. now rewrite (Hc (EvWrite h data) eq_refl).
  - exists []. now rewrite app_nil_r.
Qed.

Lemma adds_flushInput phi h : covers ordinary phi -> adds phi (Serial.flushInput h).
Proof.
  intros Hc w r w' H. unfold Serial.flushInput in H.
  destruct (Serial.is_open h w); injection H as _ <-.
  - exists [EvFlushInput h]. split; [reflexivity|].
    cbn. now rewrite (Hc (EvFlushInput h) eq_refl).
  - exists []. now rewrite app_nil_r.
Qed.

Lemma adds_open phi b : covers routine phi -> adds phi (Serial.open b).
Proof.
  intros Hc w r w' H. unfold Serial.open in H.
  destruct (port_present w); injection H as _ <-.
  - exists [EvOpen (next_handle w) b]. split; [reflexivity|].
    cbn. now rewrite (Hc (EvOpen (next_handle w) b) eq_refl).
  - exists [EvOpenFailed b]. split; [reflexivity|].
    cbn. now rewrite (Hc (EvOpenFailed b) eq_refl).
Qed.

Lemma adds_close phi h : covers routine phi -> adds phi (Serial.close h).
Proof.
  intros Hc. apply adds_one with (EvClose h); [now apply Hc|].
  intros w r w' H. now injection H as _ <-.
Qed.

Lemma covers_ordinary_routine phi : covers routine phi -> covers ordinary phi.
Proof. intros Hc e He. apply Hc. destruct e; (reflexivity || discriminate). Qed.

Lemma covers_quiet : covers ordinary (fun e => negb (session_event e)).
Proof. intros e He. destruct e; (reflexivity || discriminate). Qed.

Lemma covers_routine_self : covers routine routine.
Proof. intros e He. exact He. Qed.

Lemma covers_uploads files : covers routine (uploads_only files).
Proof. intros e He. destruct e; (reflexivity || discriminate). Qed.

Create HintDb adds.
#[local] Hint Resolve adds_ret adds_raise adds_hang adds_lift adds_get_world
  adds_time_time adds_sleep adds_log_info adds_log_critical adds_read
  adds_write adds_flushInput covers_quiet covers_ordinary_routine
  covers_uploads covers_routine_self : adds.

(** Decompose a program along its binds and branches; the leaves are
    closed by the lemmas collected so far. *)
Ltac grow :=
  repeat first
    [ solve [auto 3 with adds]
    | solve [apply adds_do_event; [auto 2 with adds | reflexivity]]
    | apply adds_bind; [|intros]
    | match goal with
      | |- adds _ (if ?c then _ else _) => destruct c
      | |- adds _ (match ?x with _ => _ end) => destruct x
      end ].

Lemma adds_readline_loop phi fuel : covers ordinary phi -> forall h line,
  adds phi (Serial.readline_loop fuel h line).
Proof. intros Hc. induction fuel; intros; cbn [Serial.readline_loop]; grow. Qed.
#[local] Hint Resolve adds_readline_loop : adds.

Lemma adds_readline phi h : covers ordinary phi -> adds phi (Serial.readline h).
Proof. intros Hc. unfold Serial.readline. grow. Qed.
#[local] Hint Resolve adds_readline : adds.

Lemma adds_ash_read_loop phi fuel :
  forall self timeout rb msg, adds phi (Ash.read_loop fuel self timeout rb msg).
Proof. induction fuel; intros; cbn [Ash.read_loop]; grow. Qed.
#[local] Hint Resolve adds_ash_read_loop : adds.

Lemma adds_ash_getResponse phi self r : adds phi (Ash.getResponse self r).
Proof. unfold Ash.getResponse. grow. Qed.
#[local] Hint Resolve adds_ash_getResponse : adds.

Lemma adds_sendResetFrame phi self :
  covers ordinary phi -> adds phi (Ash.sendResetFrame self).
Proof. intros Hc. unfold Ash.sendResetFrame. grow. Qed.

Lemma adds_sendAck phi self n :
  covers ordinary phi -> adds phi (Ash.sendAck self n).
Proof. intros Hc. unfold Ash.sendAck. grow. Qed.
#[local] Hint Resolve adds_sendResetFrame adds_sendAck : adds.

Lemma adds_sendAshCommand phi self f :
  covers ordinary phi -> adds phi (Ash.sendAshCommand self f).
Proof.
  intros Hc. unfold Ash.sendAshCommand. destruct (Ash.ashFrameBuilder self f). grow.
Qed.
#[local] Hint Resolve adds_sendAshCommand : adds.

Lemma adds_sendEzspCommand phi self c :
  covers ordinary phi -> adds phi (Ezsp.sendEzspCommand self c).
Proof. intros Hc. unfold Ezsp.sendEzspCommand. grow. Qed.
#[local] Hint Resolve adds_sendEzspCommand : adds.

Lemma adds_sendVersion phi self v :
  covers ordinary phi -> adds phi (Ezsp.sendVersion self v).
Proof. intros Hc. unfold Ezsp.sendVersion. grow. Qed.

Lemma adds_getValue phi self v :
  covers ordinary phi -> adds phi (Ezsp.getValue self v).
Proof. intros Hc. unfold Ezsp.getValue. grow. Qed.

Lemma adds_getMfgToken phi self v :
  covers ordinary phi -> adds phi (Ezsp.getMfgToken self v).
Proof. intros Hc. unfold Ezsp.getMfgToken. grow. Qed.

Lemma adds_launchStandaloneBootloader phi self v :
  covers ordinary phi -> adds phi (Ezsp.launchStandaloneBootloader self v).
Proof. intros Hc. unfold Ezsp.launchStandaloneBootloader. grow. Qed.
#[local] Hint Resolve adds_sendVersion adds_getValue adds_getMfgToken
  adds_launchStandaloneBootloader : adds.

Lemma adds_initEzspProtocol phi self :
  covers ordinary phi -> adds phi (Ezsp.initEzspProtocol self).
Proof. intros Hc. unfold Ezsp.initEzspProtocol. grow. Qed.
#[local] Hint Resolve adds_initEzspProtocol : adds.

Lemma adds_hdlc_read_loop phi fuel : forall self timeout fcs packet,
  adds phi (Hdlc.read_loop fuel self timeout fcs packet).
Proof. induction fuel; intros; cbn [Hdlc.read_loop]; grow. Qed.
#[local] Hint Resolve adds_hdlc_read_loop : adds.

Lemma adds_hdlc_getResponse phi self : adds phi (Hdlc.getResponse self).
Proof. unfold Hdlc.getResponse. grow. Qed.
#[local] Hint Resolve adds_hdlc_getResponse : adds.

Lemma adds_sendHdlcPacket phi self d :
  covers ordinary phi -> adds phi (Hdlc.sendHdlcPacket self d).
Proof. intros Hc. unfold Hdlc.sendHdlcPacket. grow. Qed.
#[local] Hint Resolve adds_sendHdlcPacket : adds.

Lemma adds_sendSpinelCommand phi self c p :
  covers ordinary phi -> adds phi (Spinel.sendSpinelCommand self c p).
Proof. intros Hc. unfold Spinel.sendSpinelCommand. grow. Qed.
#[local] Hint Resolve adds_sendSpinelCommand : adds.

Lemma adds_propValueGet phi self p :
  covers ordinary phi -> adds phi (Spinel.propValueGet self p).
Proof. intros Hc. unfold Spinel.propValueGet. grow. Qed.

Lemma adds_eleLaunchBtl phi self :
  covers ordinary phi -> adds phi (Spinel.eleLaunchBtl self).
Proof. intros Hc. unfold Spinel.eleLaunchBtl. grow. Qed.

Lemma adds_version_loop phi fuel : covers ordinary phi -> forall self counter,
  adds phi (Spinel.version_loop fuel self counter).
Proof. intros Hc. induction fuel; intros; cbn [Spinel.version_loop]; grow. Qed.
#[local] Hint Resolve adds_propValueGet adds_eleLaunchBtl adds_version_loop : adds.

Lemma adds_initSpinelProtocol phi self :
  covers ordinary phi -> adds phi (Spinel.initSpinelProtocol self).
Proof. intros Hc. unfold Spinel.initSpinelProtocol. grow. Qed.
#[local] Hint Resolve adds_initSpinelProtocol : adds.

Lemma adds_getc phi h size : adds phi (Utilities.getc h size).
Proof. unfold Utilities.getc. grow. Qed.

Lemma adds_putc phi h n data :
  covers ordinary phi -> adds phi (Utilities.putc h n data).
Proof. intros Hc. unfold Utilities.putc. grow. Qed.
#[local] Hint Resolve adds_getc adds_putc : adds.

Lemma adds_xmodem_calls phi script : covers ordinary phi -> forall h n,
  adds phi (Utilities.xmodem_calls script h n).
Proof.
  intros Hc. induction script as [|[size|data] script IH]; intros;
    cbn [Utilities.xmodem_calls]; grow.
Qed.
#[local] Hint Resolve adds_xmodem_calls : adds.

Lemma adds_xmodem_send phi h filename :
  covers ordinary phi -> phi (EvXmodemSend filename) = true ->
  adds phi (Utilities.xmodem_send h filename).
Proof.
  intros Hc Hf. unfold Utilities.xmodem_send.
  apply adds_bind; [grow|]. intros w. destruct (image_readable w); [|grow].
  apply adds_bind; [|intros; grow].
  apply adds_one with (EvXmodemSend filename); [exact Hf|].
  intros w0 r w' H. now injection H as _ <-.
Qed.

Lemma adds_wait_ready phi fuel : forall h start success,
  adds phi (Utilities.wait_ready fuel h start success).
Proof. induction fuel; intros; cbn [Utilities.wait_ready]; grow. Qed.
#[local] Hint Resolve adds_wait_ready : adds.

(** [probe] and [restart] add routine events only: they start no
    upload. *)
Lemma adds_probe phi self : covers routine phi -> adds phi (Utilities.probe self).
Proof.
  intros Hc. pose proof (covers_ordinary_routine _ Hc) as Ho.
  pose proof (adds_open phi) as Hopen. pose proof (adds_close phi) as Hclose.
  unfold Utilities.probe. grow.
Qed.
#[local] Hint Resolve adds_probe adds_open adds_close : adds.

Lemma adds_restart phi self mode :
  covers routine phi -> adds phi (Utilities.restart self mode).
Proof.
  intros Hc. pose proof (covers_ordinary_routine _ Hc) as Ho.
  unfold Utilities.restart, Utilities.restart_btl_finish. grow.
Qed.
#[local] Hint Resolve adds_restart : adds.

(** [flash] adds routine events and at most the upload of the file it
    was given. *)
Lemma adds_flash phi self filename :
  covers routine phi -> phi (EvXmodemSend filename) = true ->
  adds phi (Utilities.flash self filename).
Proof.
  intros Hc Hf. pose proof (covers_ordinary_routine _ Hc) as Ho.
  pose proof (adds_xmodem_send phi) as Hx.
  unfold Utilities.flash. grow.
Qed.

Lemma adds_ele_update self new_version :
  adds (uploads_only shipped_images) (Utilities.ele_update self new_version).
Proof.
  pose proof (covers_uploads shipped_images) as Hc.
  pose proof (covers_ordinary_routine _ Hc) as Ho.
  unfold Utilities.ele_update.
  apply adds_bind; [auto with adds|]. intros [status name].
  repeat match goal with
         | |- adds _ (match ?x with _ => _ end) => destruct x
         | |- adds _ (if ?c then _ else _) => destruct c
         end;
    first [ apply adds_flash; [exact Hc | reflexivity] | grow ].
Qed.

(** ** Uploads, and what [flash] does after a failed probe *)

Lemma bind_ok {A B} (m : M A) (k : A -> M B) w a w1 :
  m w = (Ok a, w1) -> bind m k w = k a w1.
Proof. intros H. unfold bind. now rewrite H. Qed.

Lemma adds_snd {A} phi (m : M A) w :
  adds phi m ->
  exists tr, trace (snd (m w)) = trace w ++ tr /\ forallb phi tr = true.
Proof. intros H. apply (H w (fst (m w))). apply surjective_pairing. Qed.

(** X19. Which uploads the controller starts.  Whatever way they end,
    [probe] and [restart] only add events to the trace and none of them
    is the start of an upload; [flash] starts no upload but that of the
    file it was given; and [ele_update] starts no upload but that of one
    of the six shipped images, whatever board name the adapter reports
    and whatever protocol is asked for. *)
Theorem uploads_are_the_shipped_images (self : config) (w : world) :
  (exists tr, trace (snd (Utilities.probe self w)) = trace w ++ tr /\
              forallb routine tr = true) /\
  (forall mode,
    exists tr, trace (snd (Utilities.restart self mode w)) = trace w ++ tr /\
               forallb routine tr = true) /\
  (forall filename,
    exists tr, trace (snd (Utilities.flash self filename w)) = trace w ++ tr /\
               forallb (uploads_only [filename]) tr = true) /\
  (forall new_version,
    exists tr,
      trace (snd (Utilities.ele_update self new_version w)) = trace w ++ tr /\
      forallb (uploads_only shipped_images) tr = true).
Proof.
  split; [|split; [|split]]; intros; apply adds_snd.
  - apply adds_probe, covers_routine_self.
  - apply adds_restart, covers_routine_self.
  - apply adds_flash; [apply covers_uploads|].
    cbn [uploads_only existsb]. now rewrite String.eqb_refl.
  - apply adds_ele_update.
Qed.

(** X20. A failed probe does not stop [flash].  When the file name passes
    the extension test and the probe inside [restart] reports [ERROR],
    [restart] falls off its end and returns [None], which [flash] takes
    for success: provided the port can be opened, [flash] goes on to open
    it at 115200 baud, writes a line feed and the menu choice ['1'] and
    waits one second, before anything else is added to the trace. *)
Theorem flash_goes_on_after_failed_probe
    (self : config) (filename : string) (w w1 : world) (name : option bytes) :
  contains ".gbl" filename || contains ".ebl" filename = true ->
  Utilities.probe self w = (Ok (ERROR, name), w1) ->
  port_present w1 = true ->
  exists r w' tr,
    Utilities.flash self filename w = (r, w') /\
    trace w' =
      trace w1 ++
      [EvOpen (next_handle w1) (BaudInt 115200);
       EvWrite (next_handle w1) [0x0A];
       EvWrite (next_handle w1) (text "1");
       EvSleep 1000] ++ tr.
Proof.
  intros Hext Hp Hport.
  assert (Hr : Utilities.restart self "btl" w = (Ok None, w1)).
  { unfold Utilities.restart. now rewrite (bind_ok _ _ _ _ _ Hp). }
  unfold Utilities.flash.
  replace (negb (contains ".gbl" filename) && negb (contains ".ebl" filename))
    with false
    by (destruct (contains ".gbl" filename), (contains ".ebl" filename);
        (reflexivity || discriminate)).
  rewrite (bind_ok _ _ _ _ _ Hr). cbn [truthy].
  set (h := next_handle w1).
  set (w2 := emit (EvOpen h (BaudInt 115200))
               (set_rx (Serial.drop_arrived (now w1) (rx w1))
                  (set_handles (S h) (h :: open_handles w1) w1))).
  assert (Ho : Serial.open (BaudInt 115200) w1 = (Ok h, w2)).
  { unfold Serial.open. now rewrite Hport. }
  rewrite (bind_ok _ _ _ _ _ Ho).
  assert (Hopen : forall w', open_handles w' = open_handles w2 ->
                             Serial.is_open h w' = true).
  { intros w' E. unfold Serial.is_open. rewrite E. cbn. now rewrite Nat.eqb_refl. }
  set (w3 := emit (EvWrite h [0x0A]) w2).
  assert (H3 : Serial.write h [0x0A] w2 = (Ok tt, w3)).
  { unfold Serial.write. now rewrite Hopen by reflexivity. }
  rewrite (bind_ok _ _ _ _ _ H3).
  set (w4 := emit (EvWrite h (text "1")) w3).
  assert (H4 : Serial.write h (text "1") w3 = (Ok tt, w4)).
  { unfold Serial.write. now rewrite Hopen by reflexivity. }
  rewrite (bind_ok _ _ _ _ _ H4).
  set (w5 := emit (EvSleep 1000) (set_now (now w4 + 1000) w4)).
  rewrite (bind_ok _ _ _ _ _ (eq_refl : sleep 1000 w4 = (Ok tt, w5))).
  assert (Ht : trace w5 =
               trace w1 ++ [EvOpen h (BaudInt 115200); EvWrite h [0x0A];
                            EvWrite h (text "1"); EvSleep 1000]).
  { cbn [w5 w4 w3 w2 trace emit set_now set_rx set_handles].
    now rewrite <- !app_assoc. }
  assert (Hc : covers routine (fun _ : event => true))
    by (intros e _; reflexivity).
  pose proof (covers_ordinary_routine _ Hc) as Hord.
  pose proof (adds_xmodem_send (fun _ : event => true)) as Hx.
  match goal with
  | |- exists r w' tr, ?m w5 = _ /\ _ =>
      assert (Ha : adds (fun _ : event => true) m) by grow;
      destruct (adds_snd _ m w5 Ha) as (tr & Htr & _);
      exists (fst (m w5)), (snd (m w5)), tr
  end.
  split; [apply surjective_pairing|].
  rewrite Htr, Ht, <- app_assoc. reflexivity.
Qed.

Lemma flash_goes_on_after_failed_probe_witness :
  let w1 := snd (Utilities.probe default_config silent) in
  exists r w' tr,
    Utilities.flash default_config "fw.gbl" silent = (r, w') /\
    trace w' =
      trace w1 ++
      [EvOpen (next_handle w1) (BaudInt 115200);
       EvWrite (next_handle w1) [0x0A];
       EvWrite (next_handle w1) (text "1");
       EvSleep 1000] ++ tr.
Proof.
  apply (flash_goes_on_after_failed_probe default_config "fw.gbl" silent
           (snd (Utilities.probe default_config silent)) None).
  - reflexivity.
  - vm_compute. reflexivity.
  - reflexivity.
Defined.

(** ** One session at a time *)

Lemma replay_app tr1 : forall hs tr2,
  replay hs (tr1 ++ tr2) =
  match replay hs tr1 with
  | Some hs' => replay hs' tr2
  | None => None
  end.
Proof.
  induction tr1 as [|e tr1 IH]; intros hs tr2; [reflexivity|].
  destruct e; cbn [app replay]; try apply IH.
  destruct hs; [apply IH | reflexivity].
Qed.

Lemma replay_quiet tr : forall hs,
  forallb (fun e => negb (session_event e)) tr = true -> replay hs tr = Some hs.
Proof.
  induction tr as [|e tr IH]; intros hs H; [reflexivity|].
  cbn [forallb] in H. apply andb_prop in H as [He Ht].
  destruct e; try discriminate He; cbn [replay]; now apply IH.
Qed.

Lemma tracked_sound tr0 hs w : tracked tr0 hs w -> sound tr0 w.
Proof. intros [Hr Hx]. split; [now rewrite Hr | exact Hx]. Qed.

Lemma tracked_step tr0 hs hs' w w' tr :
  tracked tr0 hs w -> trace w' = trace w ++ tr -> replay hs tr = Some hs' ->
  tracked tr0 hs' w'.
Proof.
  intros [Hr [x Hx]] Ht Hs. split.
  - now rewrite Ht, replay_app, Hr.
  - exists (x ++ tr). now rewrite Ht, Hx, app_assoc.
Qed.

Lemma triple_bind {A B} tr0 (m : M A) (k : A -> M B) P Q R :
  triple tr0 P m Q -> (forall a, triple tr0 (Q a) (k a) R) ->
  triple tr0 P (bind m k) R.
Proof.
  intros Hm Hk w r w' HP H. unfold bind in H.
  destruct (m w) as [[a|e|] w1] eqn:E; destruct (Hm _ _ _ HP E) as [Hs HQ].
  - exact (Hk a w1 r w' HQ H).
  - injection H as <- <-. auto.
  - injection H as <- <-. auto.
Qed.

Lemma triple_ret {A} tr0 (a : A) (P : world -> Prop) Q :
  (forall w, P w -> sound tr0 w /\ Q a w) -> triple tr0 P (ret a) Q.
Proof. intros HQ w r w' HP H. injection H as <- <-. auto. Qed.

Lemma triple_raise {A} tr0 e (P : world -> Prop) (Q : A -> world -> Prop) :
  (forall w, P w -> sound tr0 w) -> triple tr0 P (raise e) Q.
Proof. intros HQ w r w' HP H. injection H as <- <-. auto. Qed.

Lemma triple_pre {A} tr0 (m : M A) (P P' : world -> Prop) Q :
  (forall w, P w -> P' w) -> triple tr0 P' m Q -> triple tr0 P m Q.
Proof. intros Hi Hm w r w' HP H. exact (Hm w r w' (Hi w HP) H). Qed.

Lemma triple_post {A} tr0 (m : M A) P (Q Q' : A -> world -> Prop) :
  (forall a w, Q a w -> Q' a w) -> triple tr0 P m Q -> triple tr0 P m Q'.
Proof.
  intros Hi Hm w r w' HP H. destruct (Hm w r w' HP H) as [Hs HQ].
  split; [exact Hs|]. destruct r; auto.
Qed.

Lemma triple_exists {A X} tr0 (m : M A) (P : X -> world -> Prop) Q :
  (forall x, triple tr0 (P x) m Q) -> triple tr0 (fun w => exists x, P x w) m Q.
Proof. intros Hm w r w' [x HP] H. exact (Hm x w r w' HP H). Qed.

Lemma triple_pure {A} tr0 (m : M A) (phi : Prop) (P : world -> Prop) Q :
  (phi -> triple tr0 P m Q) -> triple tr0 (fun w => P w /\ phi) m Q.
Proof. intros Hm w r w' [HP Hphi] H. exact (Hm Hphi w r w' HP H). Qed.

(** An operation that adds no session event leaves the replay where it
    was. *)
Lemma triple_quiet {A} tr0 hs (m : M A) :
  adds (fun e => negb (session_event e)) m ->
  triple tr0 (tracked tr0 hs) m (fun _ => tracked tr0 hs).
Proof.
  intros Hm w r w' HP H. destruct (Hm _ _ _ H) as (tr & Ht & Hf).
  assert (Hk : tracked tr0 hs w').
  { apply (tracked_step tr0 hs hs w w' tr HP Ht). now apply replay_quiet. }
  split; [now apply tracked_sound with hs|]. destruct r; auto.
Qed.

Lemma triple_open tr0 b :
  triple tr0 (tracked tr0 []) (Serial.open b) (fun h => tracked tr0 [h]).
Proof.
  intros w r w' HP H. unfold Serial.open in H.
  destruct (port_present w); injection H as <- <-.
  - assert (Hk : tracked tr0 [next_handle w]
                   (emit (EvOpen (next_handle w) b)
                      (set_rx (Serial.drop_arrived (now w) (rx w))
                         (set_handles (S (next_handle w))
                            (next_handle w :: open_handles w) w)))).
    { now apply (tracked_step tr0 [] _ w _ [EvOpen (next_handle w) b] HP). }
    split; [now apply tracked_sound with [next_handle w] | exact Hk].
  - split; [|exact I]. apply tracked_sound with (@nil nat).
    now apply (tracked_step tr0 [] _ w _ [EvOpenFailed b] HP).
Qed.

Lemma triple_close tr0 h :
  triple tr0 (tracked tr0 [h]) (Serial.close h) (fun _ => tracked tr0 []).
Proof.
  intros w r w' HP H. unfold Serial.close in H. injection H as <- <-.
  assert (Hk : tracked tr0 []
                 (emit (EvClose h)
                    (set_handles (next_handle w)
                       (List.filter (fun h' => negb (Nat.eqb h h'))
                          (open_handles w)) w))).
  { apply (tracked_step tr0 [h] _ w _ [EvClose h] HP); [reflexivity|].
    cbn. now rewrite Nat.eqb_refl. }
  split; [now apply tracked_sound with (@nil nat) | exact Hk].
Qed.

(** The leaves of a program: a [ret] whose postcondition is at hand, or a
    [raise]. *)
Ltac tri_leaf :=
  first
    [ apply triple_raise; intros ? Ht; exact (tracked_sound _ _ _ Ht)
    | apply triple_ret; intros ? Ht; split;
      [ exact (tracked_sound _ _ _ Ht)
      | first [ exact Ht | exact I
              | eexists; split;
                [ exact Ht
                | first [ intros _; reflexivity
                        | intros Hx; cbv in Hx; discriminate Hx ] ] ] ] ].

(** Decompose a program along its binds and branches; [known] handles
    the calls for which a triple is at hand. *)
Ltac tri_with known :=
  repeat first
    [ eapply triple_bind; [apply triple_quiet; solve [grow] | intros]
    | eapply triple_bind; [apply triple_open | intros]
    | eapply triple_bind; [apply triple_close | intros]
    | eapply triple_bind; [known | intros]
    | match goal with
      | |- triple _ _ (if ?c then _ else _) _ => destruct c
      | |- triple _ _ (match ?x with _ => _ end) _ => destruct x
      end
    | tri_leaf ].

(** [probe] opens its session when none is open, and has closed it when
    it returns. *)
Lemma triple_probe tr0 self :
  triple tr0 (tracked tr0 []) (Utilities.probe self) (fun _ => tracked tr0 []).
Proof.
  unfold Utilities.probe. tri_with fail.
  eapply triple_bind with (Q := fun h' => tracked tr0 [h']).
  - destruct (baud_differs (baudrate self)); tri_with fail. apply triple_open.
  - intros h'. tri_with fail.
Qed.

(** [restart]: when what it returns counts as success for [flash], no
    session is open. *)
Lemma triple_restart tr0 self mode :
  triple tr0 (tracked tr0 []) (Utilities.restart self mode)
    (fun r w => exists hs, tracked tr0 hs w /\ (truthy r = false -> hs = [])).
Proof.
  unfold Utilities.restart, Utilities.restart_btl_finish.
  eapply triple_bind; [apply triple_probe|]. intros [status name].
  destruct status; destruct (String.eqb mode "btl");
    tri_with ltac:(apply triple_probe).
Qed.

Lemma triple_flash tr0 self filename :
  triple tr0 (tracked tr0 []) (Utilities.flash self filename) (fun _ _ => True).
Proof.
  unfold Utilities.flash.
  destruct (negb (contains ".gbl" filename) && negb (contains ".ebl" filename)).
  { tri_with fail. }
  eapply triple_bind; [apply triple_restart|]. intros r.
  apply triple_exists. intros hs. apply triple_pure. intros Hhs.
  destruct (truthy r).
  { tri_with fail. }
  rewrite (Hhs eq_refl).
  pose proof (covers_quiet) as Hq.
  pose proof (adds_xmodem_send (fun e => negb (session_event e))) as Hx.
  tri_with ltac:(apply triple_probe).
Qed.

Lemma triple_ele_update tr0 self new_version :
  triple tr0 (tracked tr0 []) (Utilities.ele_update self new_version)
    (fun _ _ => True).
Proof.
  unfold Utilities.ele_update.
  eapply triple_bind; [apply triple_probe|]. intros [status name].
  repeat match goal with
         | |- triple _ _ (match ?x with _ => _ end) _ => destruct x
         | |- triple _ _ (if ?c then _ else _) _ => destruct c
         end;
    try apply triple_flash; tri_with fail;
    (eapply triple_post; [|apply triple_quiet; solve [grow]]; intros; exact I).
Qed.

Lemma triple_snd {A} (m : M A) (w : world) Q :
  replay [] (trace w) = Some [] ->
  triple (trace w) (tracked (trace w) []) m Q ->
  replay [] (trace (snd (m w))) <> None.
Proof.
  intros Hr Hm.
  assert (HP : tracked (trace w) [] w).
  { split; [exact Hr|]. exists []. now rewrite app_nil_r. }
  destruct (Hm w (fst (m w)) (snd (m w)) HP (surjective_pairing _)) as [[Hs _] _].
  exact Hs.
Qed.

(** X21. One session at a time.  Started when no session is open, none of
    [probe], [restart], [flash] and [ele_update] ever opens the port
    while a session is still open: however the call ends (return,
    exception, or a session left open by [restart]), the trace replays
    with every open preceded by the close of the session before it. *)
Theorem sessions_never_overlap (self : config) (w : world) :
  replay [] (trace w) = Some [] ->
  replay [] (trace (snd (Utilities.probe self w))) <> None /\
  (forall mode, replay [] (trace (snd (Utilities.restart self mode w))) <> None) /\
  (forall filename,
    replay [] (trace (snd (Utilities.flash self filename w))) <> None) /\
  (forall new_version,
    replay [] (trace (snd (Utilities.ele_update self new_version w))) <> None).
Proof.
  intros Hr. split; [|split; [|split]]; intros.
  - eapply triple_snd; [exact Hr | apply triple_probe].
  - eapply triple_snd; [exact Hr | apply triple_restart].
  - eapply triple_snd; [exact Hr | apply triple_flash].
  - eapply triple_snd; [exact Hr | apply triple_ele_update].
Qed.

Lemma sessions_never_overlap_witness :
  replay [] (trace (snd (Utilities.flash default_config "fw.gbl"
                           bootloader_refusing_upload))) <> None.
Proof.
  destruct (sessions_never_overlap default_config bootloader_refusing_upload)
    as (_ & _ & H & _).
  - reflexivity.
  - apply H.
Defined.

(** ** How many frames the handshakes send *)

Lemma sends_silent {A} n (m : M A) :
  adds (fun _ => false) m -> sends_at_most n m.
Proof.
  intros Hm w r w' H. destruct (Hm _ _ _ H) as (tr & Ht & Hf).
  destruct tr; [|discriminate Hf]. exists []. split; [exact Ht | cbn; lia].
Qed.

Lemma sends_bind {A B} n1 n2 n (m : M A) (k : A -> M B) :
  sends_at_most n1 m -> (forall a, sends_at_most n2 (k a)) ->
  (n1 + n2 <= n)%nat ->
  sends_at_most n (bind m k).
Proof.
  intros Hm Hk Hn w r w' H. unfold bind in H.
  destruct (m w) as [[a|e|] w1] eqn:E; destruct (Hm _ _ _ E) as (t1 & H1 & L1).
  - destruct (Hk a _ _ _ H) as (t2 & H2 & L2). exists (t1 ++ t2). split.
    + rewrite H2, H1, <- app_assoc. reflexivity.
    + rewrite written_app, length_app. lia.
  - injection H as _ <-. exists t1. split; [exact H1 | lia].
  - injection H as _ <-. exists t1. split; [exact H1 | lia].
Qed.

Lemma sends_write h data : sends_at_most 1 (Serial.write h data).
Proof.
  intros w r w' H. unfold Serial.write in H.
  destruct (Serial.is_open h w); injection H as _ <-.
  - exists [EvWrite h data]. split; [reflexivity | cbn; lia].
  - exists []. split; [now rewrite app_nil_r | cbn; lia].
Qed.

Lemma sends_flushInput h : sends_at_most 0 (Serial.flushInput h).
Proof.
  intros w r w' H. unfold Serial.flushInput in H.
  destruct (Serial.is_open h w); injection H as _ <-.
  - exists [EvFlushInput h]. split; [reflexivity | cbn; lia].
  - exists []. split; [now rewrite app_nil_r | cbn; lia].
Qed.

(** A part of the program that only reads and computes. *)
Ltac quiet := apply sends_silent; solve [grow].

(** A bind whose first part sends at most [c] frames, by [tac]. *)
Ltac spend c n tac := apply (sends_bind c n); [tac | intros | lia].

Lemma sends_sendResetFrame self : sends_at_most 1 (Ash.sendResetFrame self).
Proof.
  unfold Ash.sendResetFrame.
  spend 0%nat 1%nat ltac:(apply sends_flushInput).
  spend 1%nat 0%nat ltac:(apply sends_write).
  quiet.
Qed.

Lemma sends_sendAshCommand self f : sends_at_most 2 (Ash.sendAshCommand self f).
Proof.
  unfold Ash.sendAshCommand. destruct (Ash.ashFrameBuilder self f) as [frame s].
  spend 0%nat 2%nat ltac:(apply sends_flushInput).
  spend 1%nat 1%nat ltac:(apply sends_write).
  spend 0%nat 1%nat ltac:(quiet).
  match goal with
  | |- sends_at_most _ (match ?x with _ => _ end) => destruct x as [[status ar] er]
  end.
  destruct (negb (status =? 0)); [quiet|]. destruct ar; [|quiet].
  spend 0%nat 1%nat ltac:(quiet).
  spend 1%nat 0%nat ltac:(apply sends_write).
  quiet.
Qed.

Lemma sends_sendEzspCommand self c : sends_at_most 2 (Ezsp.sendEzspCommand self c).
Proof.
  unfold Ezsp.sendEzspCommand.
  spend 0%nat 2%nat ltac:(quiet).
  match goal with
  | |- sends_at_most _ (match ?x with _ => _ end) => destruct x
  end.
  spend 2%nat 0%nat ltac:(apply sends_sendAshCommand).
  quiet.
Qed.

Lemma sends_sendVersion self v : sends_at_most 2 (Ezsp.sendVersion self v).
Proof.
  unfold Ezsp.sendVersion.
  spend 0%nat 2%nat ltac:(quiet).
  spend 2%nat 0%nat ltac:(apply sends_sendEzspCommand).
  quiet.
Qed.

Lemma sends_initEzspProtocol self : sends_at_most 5 (Ezsp.initEzspProtocol self).
Proof.
  unfold Ezsp.initEzspProtocol.
  spend 1%nat 4%nat ltac:(apply sends_sendResetFrame).
  match goal with
  | |- sends_at_most _ (if ?c then _ else _) => destruct c
  end; [quiet|].
  spend 2%nat 2%nat ltac:(apply sends_sendVersion).
  match goal with
  | |- sends_at_most _ (match ?x with _ => _ end) => destruct x
  end.
  match goal with
  | |- sends_at_most _ (if ?c then _ else _) => destruct c
  end; [|quiet].
  spend 2%nat 0%nat ltac:(apply sends_sendVersion).
  quiet.
Qed.

Lemma sends_sendHdlcPacket self d : sends_at_most 1 (Hdlc.sendHdlcPacket self d).
Proof.
  unfold Hdlc.sendHdlcPacket.
  spend 1%nat 0%nat ltac:(apply sends_write).
  quiet.
Qed.

Lemma sends_sendSpinelCommand self c p :
  sends_at_most 1 (Spinel.sendSpinelCommand self c p).
Proof.
  unfold Spinel.sendSpinelCommand.
  spend 0%nat 1%nat ltac:(quiet).
  spend 1%nat 0%nat ltac:(apply sends_sendHdlcPacket).
  quiet.
Qed.

(** The version loop gives up at the fifth answer that is not about the
    protocol version: from [counter] it sends at most [5 - counter]
    requests. *)
Lemma sends_version_loop fuel : forall self counter,
  0 <= counter < 5 ->
  sends_at_most (Z.to_nat (5 - counter)) (Spinel.version_loop fuel self counter).
Proof.
  induction fuel as [|fuel IH]; intros self counter Hc;
    cbn [Spinel.version_loop]; [quiet|].
  destruct (Spinel.spinelVersion self); [quiet|].
  spend 0%nat (Z.to_nat (5 - counter)) ltac:(quiet).
  spend 1%nat (Z.to_nat (5 - counter) - 1)%nat
    ltac:(apply sends_sendSpinelCommand).
  spend 0%nat (Z.to_nat (5 - counter) - 1)%nat ltac:(quiet).
  match goal with
  | |- sends_at_most _ (if ?c then _ else _) => destruct c
  end; [|quiet].
  destruct (5 <=? counter + 1) eqn:E; [quiet|].
  apply Z.leb_gt in E.
  replace (Z.to_nat (5 - counter) - 1)%nat with (Z.to_nat (5 - (counter + 1)))
    by lia.
  apply IH. lia.
Qed.

Lemma sends_initSpinelProtocol self :
  sends_at_most 6 (Spinel.initSpinelProtocol self).
Proof.
  unfold Spinel.initSpinelProtocol.
  spend 0%nat 6%nat ltac:(quiet).
  spend 1%nat 5%nat ltac:(apply sends_sendHdlcPacket).
  match goal with
  | |- sends_at_most _ (match ?x with _ => _ end) => destruct x as [status response]
  end.
  repeat match goal with
         | |- sends_at_most _ (if ?c then _ else _) => destruct c; [quiet|]
         end.
  apply (sends_version_loop 6 _ 0). lia.
Qed.

(** X24. The handshakes send a bounded number of frames, whatever the
    device answers and however they end.  [initEzspProtocol] writes at
    most five: the reset and two VERSION commands, each with its
    acknowledgement.  [initSpinelProtocol] writes at most six: the reset
    and up to five version requests, after which it gives up. *)
Theorem handshakes_send_bounded (w : world) :
  (forall self,
    exists tr, trace (snd (Ezsp.initEzspProtocol self w)) = trace w ++ tr /\
               (length (written tr) <= 5)%nat) /\
  (forall self,
    exists tr, trace (snd (Spinel.initSpinelProtocol self w)) = trace w ++ tr /\
               (length (written tr) <= 6)%nat).
Proof.
  split; intros self.
  - apply (sends_initEzspProtocol self w (fst (Ezsp.initEzspProtocol self w))).
    apply surjective_pairing.
  - apply (sends_initSpinelProtocol self w (fst (Spinel.initSpinelProtocol self w))).
    apply surjective_pairing.
Qed.

(** ** Termination *)

Lemma read_closed h size w :
  Serial.is_open h w = false -> Serial.read h size w = (Exc PortNotOpen, w).
Proof. intros H. unfold Serial.read. now rewrite H. Qed.

(** A read never puts bytes back on the line. *)
Lemma read1_shrinks h w :
  Serial.is_open h w = true ->
  (length (rx (snd (Serial.read h 1 w))) <= length (rx w))%nat.
Proof.
  intros Ho. unfold Serial.read. rewrite Ho. cbn [Serial.read_until].
  destruct (rx w) as [|[t b] r] eqn:Hr; [cbn; rewrite Hr; cbn; lia|].
  destruct (t <=? now w + Serial.READ_TIMEOUT); cbn; rewrite ?Hr; cbn; lia.
Qed.

(** The loop of [flash] that waits for the prompt: with [j] read
    timeouts to go before the 10 s are over, a fuel of one turn for each
    byte on its way, one for each timeout, and one more, is enough. *)
Lemma wait_ready_bounded h start fuel : forall w success (j : nat),
  Serial.is_open h w = true ->
  start + 10000 <= now w + 3000 * Z.of_nat j ->
  (length (rx w) + j + 1 <= fuel)%nat ->
  exists b w',
    Utilities.wait_ready fuel h start success w = (Ok b, w') /\
    Serial.is_open h w' = true /\
    trace w' = trace w /\
    now w <= now w' /\
    5000 < now w' - start /\
    (now w' = now w \/ now w' < start + 13000).
Proof.
  induction fuel as [|fuel IH]; intros w success j Ho Hj Hf; [lia|].
  cbn [Utilities.wait_ready].
  rewrite (bind_ok _ _ _ _ _ (eq_refl : time_time w = (Ok (now w), w))).
  destruct (now w - start <? 10000) eqn:E.
  2:{ apply Z.ltb_ge in E. eexists _, _. split; [reflexivity|].
      repeat split; auto; lia. }
  apply Z.ltb_lt in E.
  destruct (read1_bounds _ _ Ho) as (b & w1 & Hr1 & Ho1 & Ht1 & Hn1 & Hc1).
  pose proof (read1_shrinks _ _ Ho) as Hs1. rewrite Hr1 in Hs1. cbn [snd] in Hs1.
  rewrite (bind_ok _ _ _ _ _ Hr1).
  assert (Hloop : forall s,
            exists b' w',
              Utilities.wait_ready fuel h start s w1 = (Ok b', w') /\
              Serial.is_open h w' = true /\
              trace w' = trace w /\
              now w <= now w' /\
              5000 < now w' - start /\
              (now w' = now w \/ now w' < start + 13000)).
  { intros s. destruct Hc1 as [Hc1|[Hc1 _]].
    - destruct (IH w1 s j Ho1) as (b' & w' & He & Ho' & Ht' & Hn' & H5 & Hb');
        [lia | lia |].
      exists b', w'. repeat split; [exact He | exact Ho' | congruence | lia | lia | lia].
    - destruct (IH w1 s (j - 1)%nat Ho1) as (b' & w' & He & Ho' & Ht' & Hn' & H5 & Hb');
        [lia | lia |].
      exists b', w'. repeat split; [exact He | exact Ho' | congruence | lia | lia | lia]. }
  destruct (bool_decide (b = text "C")); [|apply Hloop].
  rewrite (bind_ok _ _ _ _ _ (eq_refl : time_time w1 = (Ok (now w1), w1))).
  destruct (5000 <? now w1 - start) eqn:E5; [|apply Hloop].
  apply Z.ltb_lt in E5. exists true, w1.
  repeat split; [exact Ho1 | exact Ht1 | lia | lia | lia].
Qed.

(** X25. The wait for the XMODEM prompt in [flash] always ends on an open
    session, whatever the device sends and whether or not a ['C'] is
    among it: the loop returns more than 5 s and less than 13 s after it
    started, and it writes nothing. *)
Theorem flash_wait_for_prompt_bounded (h : nat) (success : bool) (w : world) :
  Serial.is_open h w = true ->
  exists b w',
    Utilities.wait_ready (length (rx w) + 5) h (now w) success w = (Ok b, w') /\
    trace w' = trace w /\
    now w + 5000 < now w' < now w + 13000.
Proof.
  intros Ho.
  destruct (wait_ready_bounded h (now w) (length (rx w) + 5) w success 4 Ho)
    as (b & w' & He & _ & Ht & Hn & H5 & Hb); [lia | lia |].
  exists b, w'. repeat split; [exact He | exact Ht | lia | lia].
Qed.

Lemma flash_wait_for_prompt_bounded_witness :
  let w := snd (Serial.open (BaudInt 115200) bootloader_refusing_upload) in
  exists b w',
    Utilities.wait_ready (length (rx w) + 5) 0 (now w) false w = (Ok b, w') /\
    trace w' = trace w /\
    now w + 5000 < now w' < now w + 13000.
Proof.
  apply (flash_wait_for_prompt_bounded 0 false
           (snd (Serial.open (BaudInt 115200) bootloader_refusing_upload))).
  reflexivity.
Defined.

Lemma ends_ret {A} (a : A) : ends (ret a).
Proof. intros w. discriminate. Qed.

Lemma ends_raise {A} e : ends (@raise A e).
Proof. intros w. discriminate. Qed.

Lemma ends_lift {A} (x : result A) : x <> Hang -> ends (lift x).
Proof. intros H w. exact H. Qed.

Lemma ends_get_world : ends get_world.
Proof. intros w. discriminate. Qed.

Lemma ends_time_time : ends time_time.
Proof. intros w. discriminate. Qed.

Lemma ends_sleep ms : ends (sleep ms).
Proof. intros w. discriminate. Qed.

Lemma ends_do_event e : ends (do_event e).
Proof. intros w. discriminate. Qed.

Lemma ends_log_info fmt args : ends (log_info fmt args).
Proof. intros w. discriminate. Qed.

Lemma ends_log_critical fmt args : ends (log_critical fmt args).
Proof. intros w. discriminate. Qed.

Lemma ends_bind {A B} (m : M A) (k : A -> M B) :
  ends m -> (forall a, ends (k a)) -> ends (bind m k).
Proof.
  intros Hm Hk w. unfold bind. specialize (Hm w).
  destruct (m w) as [[a|e|] w1]; [apply Hk | discriminate | now elim Hm].
Qed.

Lemma ends_open b : ends (Serial.open b).
Proof. intros w. unfold Serial.open. destruct (port_present w); discriminate. Qed.

Lemma ends_close h : ends (Serial.close h).
Proof. intros w. discriminate. Qed.

Lemma ends_read h size : ends (Serial.read h size).
Proof.
  intros w. unfold Serial.read. destruct (Serial.is_open h w); [|discriminate].
  destruct (Serial.read_until _ size w). discriminate.
Qed.

Lemma ends_write h data : ends (Serial.write h data).
Proof. intros w. unfold Serial.write. destruct (Serial.is_open h w); discriminate. Qed.

Lemma ends_flushInput h : ends (Serial.flushInput h).
Proof.
  intros w. unfold Serial.flushInput. destruct (Serial.is_open h w); discriminate.
Qed.

Lemma getitem_ends l i : getitem l i <> Hang.
Proof. unfold getitem. destruct (l !! i); discriminate. Qed.

Lemma setitem_ends i v l : setitem i v l <> Hang.
Proof.
  unfold setitem. destruct (i <? length l)%nat; [|discriminate].
  destruct (is_byte v); discriminate.
Qed.

Lemma bytearray1_ends v : bytearray1 v <> Hang.
Proof. unfold bytearray1. destruct (is_byte v); discriminate. Qed.

Lemma subscript_ends resp i : subscript resp i <> Hang.
Proof. destruct resp; [apply getitem_ends | discriminate]. Qed.

Lemma subslice_ends resp i : subslice resp i <> Hang.
Proof. destruct resp; discriminate. Qed.

Lemma rbind_ends {A B} (r : result A) (k : A -> result B) :
  r <> Hang -> (forall a, k a <> Hang) -> rbind r k <> Hang.
Proof. intros Hr Hk. destruct r; [apply Hk | discriminate | now elim Hr]. Qed.

Lemma ezspFrameBuilder_ends self command :
  Ezsp.ezspFrameBuilder self command <> Hang.
Proof.
  unfold Ezsp.ezspFrameBuilder.
  apply rbind_ends; [apply bytearray1_ends|]. intros f.
  match goal with |- (if ?c then _ else _) <> _ => destruct c end; [|discriminate].
  repeat (apply rbind_ends; [first [apply setitem_ends | apply getitem_ends]|];
          intros ?).
  discriminate.
Qed.

(** [encode_i] returns on every argument that is not negative. *)
Lemma encode_i_ends n : 0 <= n -> Spinel.encode_i n <> Hang.
Proof.
  intros H. destruct (Z.eq_dec n 0) as [->|Hn]; [discriminate|].
  destruct (encode_i_positive n) as (bs & -> & _); [lia | discriminate].
Qed.

Lemma encode_packet_ends c p : 0 <= c -> Spinel.encode_packet c p <> Hang.
Proof.
  intros H. unfold Spinel.encode_packet.
  apply rbind_ends; [now apply encode_i_ends | discriminate].
Qed.

Create HintDb ends.
#[local] Hint Resolve ends_ret ends_raise ends_get_world ends_time_time
  ends_sleep ends_do_event ends_log_info ends_log_critical ends_open
  ends_close ends_read ends_write ends_flushInput
  getitem_ends setitem_ends bytearray1_ends subscript_ends subslice_ends
  ezspFrameBuilder_ends : ends.

(** Decompose a program along its binds and branches; the leaves are
    closed by the lemmas collected so far, [known] first. *)
Ltac fin_with known :=
  repeat first
    [ known
    | solve [auto 1 with ends]
    | apply ends_lift;
      solve [ auto 1 with ends
            | apply encode_i_ends; cbv; discriminate
            | apply encode_packet_ends; cbv; discriminate ]
    | apply ends_bind; [|intros]
    | match goal with
      | |- ends (if ?c then _ else _) => destruct c
      | |- ends (match ?x with _ => _ end) => destruct x
      end ].

Ltac fin := fin_with fail.

(** [readline] ends: every turn of its loop takes a byte off the line or
    is the last. *)
Lemma readline_loop_ends h fuel : forall w line,
  (length (rx w) < fuel)%nat ->
  fst (Serial.readline_loop fuel h line w) <> Hang.
Proof.
  induction fuel as [|fuel IH]; intros w line Hf; [lia|].
  cbn [Serial.readline_loop].
  destruct (Serial.is_open h w) eqn:Ho.
  - destruct (read1_bounds _ _ Ho) as (b & w1 & Hr1 & _ & _ & _ & Hc1).
    rewrite (bind_ok _ _ _ _ _ Hr1).
    destruct b as [|c b]; [discriminate|].
    destruct (c =? 10); [discriminate|].
    apply IH. destruct Hc1 as [Hc1|[_ Hc1]]; [lia | discriminate Hc1].
  - unfold bind. rewrite (read_closed _ _ _ Ho). discriminate.
Qed.

Lemma ends_readline h : ends (Serial.readline h).
Proof.
  intros w. unfold Serial.readline.
  rewrite (bind_ok _ _ _ _ _ (eq_refl : get_world w = (Ok w, w))).
  apply readline_loop_ends. lia.
Qed.
#[local] Hint Resolve ends_readline : ends.

Lemma ends_ash_getResponse self r : ends (Ash.getResponse self r).
Proof.
  intros w. unfold Ash.getResponse.
  rewrite (bind_ok _ _ _ _ _ (eq_refl : time_time w = (Ok (now w), w))).
  rewrite (bind_ok _ _ _ _ _ (eq_refl : get_world w = (Ok w, w))).
  destruct (Serial.is_open (Ash.serial self) w) eqn:Ho.
  - destruct (ash_loop_bounded self (now w + 3000) (length (rx w) + 2) w None [] Ho)
      as (msg & w' & He & _); [left; lia|].
    rewrite (bind_ok _ _ _ _ _ He).
    destruct (length msg =? 0)%nat; [discriminate|]. destruct r; discriminate.
  - replace (length (rx w) + 2)%nat with (S (length (rx w) + 1)) by lia.
    unfold bind at 1. rewrite ash_loop_unfold.
    destruct ((now w <? now w + 3000) && negb (Ash.is_flag None)) eqn:E.
    + rewrite (read_closed _ _ _ Ho). discriminate.
    + cbn in E. lia.
Qed.
#[local] Hint Resolve ends_ash_getResponse : ends.

Lemma ends_hdlc_getResponse self : ends (Hdlc.getResponse self).
Proof.
  intros w. unfold Hdlc.getResponse.
  rewrite (bind_ok _ _ _ _ _ (eq_refl : time_time w = (Ok (now w), w))).
  rewrite (bind_ok _ _ _ _ _ (eq_refl : get_world w = (Ok w, w))).
  destruct (Serial.is_open (Hdlc.serial self) w) eqn:Ho.
  - destruct (hdlc_loop_bounded self (now w + 3000) (length (rx w) + 2) w
                Hdlc.HDLC_FCS_INIT [] Ho)
      as (fcs & packet & w' & He & _); [left; lia|].
    rewrite (bind_ok _ _ _ _ _ He).
    destruct (length packet =? 0)%nat; [discriminate|].
    destruct (negb (fcs =? Hdlc.HDLC_FCS_GOOD)); discriminate.
  - replace (length (rx w) + 2)%nat with (S (length (rx w) + 1)) by lia.
    unfold bind at 1. rewrite hdlc_loop_unfold.
    destruct (now w <? now w + 3000) eqn:E; [|lia].
    rewrite (read_closed _ _ _ Ho). discriminate.
Qed.
#[local] Hint Resolve ends_hdlc_getResponse : ends.

Lemma ends_sendResetFrame self : ends (Ash.sendResetFrame self).
Proof. unfold Ash.sendResetFrame. fin. Qed.

Lemma ends_sendAck self n : ends (Ash.sendAck self n).
Proof. unfold Ash.sendAck. fin. Qed.
#[local] Hint Resolve ends_sendResetFrame ends_sendAck : ends.

Lemma ends_sendAshCommand self f : ends (Ash.sendAshCommand self f).
Proof. unfold Ash.sendAshCommand. destruct (Ash.ashFrameBuilder self f). fin. Qed.
#[local] Hint Resolve ends_sendAshCommand : ends.

Lemma ends_sendEzspCommand self c : ends (Ezsp.sendEzspCommand self c).
Proof. unfold Ezsp.sendEzspCommand. fin. Qed.
#[local] Hint Resolve ends_sendEzspCommand : ends.

Lemma ends_sendVersion self v : ends (Ezsp.sendVersion self v).
Proof. unfold Ezsp.sendVersion. fin. Qed.

Lemma ends_getValue self v : ends (Ezsp.getValue self v).
Proof. unfold Ezsp.getValue. fin. Qed.

Lemma ends_getMfgToken self v : ends (Ezsp.getMfgToken self v).
Proof. unfold Ezsp.getMfgToken. fin. Qed.

Lemma ends_launchStandaloneBootloader self v :
  ends (Ezsp.launchStandaloneBootloader self v).
Proof. unfold Ezsp.launchStandaloneBootloader. fin. Qed.
#[local] Hint Resolve ends_sendVersion ends_getValue ends_getMfgToken
  ends_launchStandaloneBootloader : ends.

Lemma ends_initEzspProtocol self : ends (Ezsp.initEzspProtocol self).
Proof. unfold Ezsp.initEzspProtocol. fin. Qed.
#[local] Hint Resolve ends_initEzspProtocol : ends.

Lemma ends_sendHdlcPacket self d : ends (Hdlc.sendHdlcPacket self d).
Proof. unfold Hdlc.sendHdlcPacket. fin. Qed.
#[local] Hint Resolve ends_sendHdlcPacket : ends.

Lemma ends_sendSpinelCommand self c p :
  0 <= c -> ends (Spinel.sendSpinelCommand self c p).
Proof.
  intros Hc. unfold Spinel.sendSpinelCommand.
  apply ends_bind; [apply ends_lift; now apply encode_packet_ends|]. intros. fin.
Qed.

Lemma ends_propValueGet self p : 0 <= p -> ends (Spinel.propValueGet self p).
Proof.
  intros Hp. unfold Spinel.propValueGet.
  apply ends_bind; [apply ends_lift; now apply encode_i_ends|]. intros.
  apply ends_bind; [apply ends_sendSpinelCommand; cbv; discriminate|]. intros. fin.
Qed.

Lemma ends_eleLaunchBtl self : ends (Spinel.eleLaunchBtl self).
Proof. unfold Spinel.eleLaunchBtl. fin. Qed.

(** The version loop ends within its five attempts: the six turns of
    fuel are never used up. *)
Lemma ends_version_loop fuel : forall self counter,
  0 <= counter < 5 -> 5 - counter < Z.of_nat fuel ->
  ends (Spinel.version_loop fuel self counter).
Proof.
  induction fuel as [|fuel IH]; intros self counter Hc Hf; [lia|].
  cbn [Spinel.version_loop]. destruct (Spinel.spinelVersion self); [fin|].
  apply ends_bind; [fin|]. intros arg.
  apply ends_bind; [apply ends_sendSpinelCommand; cbv; discriminate|].
  intros response.
  apply ends_bind; [fin|]. intros id.
  destruct (negb (id =? Spinel.PROP_PROTOCOL_VERSION)); [|fin].
  destruct (5 <=? counter + 1) eqn:E; [fin|].
  apply Z.leb_gt in E. apply IH; lia.
Qed.

Lemma ends_initSpinelProtocol self : ends (Spinel.initSpinelProtocol self).
Proof.
  unfold Spinel.initSpinelProtocol.
  fin_with ltac:(apply (ends_version_loop 6 _ 0); lia).
Qed.
#[local] Hint Resolve ends_eleLaunchBtl ends_initSpinelProtocol : ends.

Lemma ends_probe self : ends (Utilities.probe self).
Proof.
  unfold Utilities.probe.
  fin_with ltac:(apply ends_propValueGet; cbv; discriminate).
Qed.
#[local] Hint Resolve ends_probe : ends.

Lemma ends_restart self mode : ends (Utilities.restart self mode).
Proof. unfold Utilities.restart, Utilities.restart_btl_finish. fin. Qed.
#[local] Hint Resolve ends_restart : ends.

Lemma ends_xmodem_calls script : forall h n,
  ends (Utilities.xmodem_calls script h n).
Proof.
  induction script as [|[size|data] script IH]; intros;
    cbn [Utilities.xmodem_calls]; unfold Utilities.getc, Utilities.putc; fin.
Qed.
#[local] Hint Resolve ends_xmodem_calls : ends.

Lemma ends_xmodem_send h filename : ends (Utilities.xmodem_send h filename).
Proof. unfold Utilities.xmodem_send. fin. Qed.
#[local] Hint Resolve ends_xmodem_send : ends.

(** The wait for the prompt, as [flash] starts it. *)
Lemma ends_wait {B} h (k : bool -> M B) :
  (forall b, ends (k b)) ->
  ends (let* start_time := time_time in
        let* w := get_world in
        let* success :=
          Utilities.wait_ready (length (rx w) + 5) h start_time false in
        k success).
Proof.
  intros Hk w.
  rewrite (bind_ok _ _ _ _ _ (eq_refl : time_time w = (Ok (now w), w))).
  rewrite (bind_ok _ _ _ _ _ (eq_refl : get_world w = (Ok w, w))).
  destruct (Serial.is_open h w) eqn:Ho.
  - destruct (wait_ready_bounded h (now w) (length (rx w) + 5) w false 4 Ho)
      as (b & w' & He & _); [lia | lia |].
    rewrite (bind_ok _ _ _ _ _ He). apply Hk.
  - replace (length (rx w) + 5)%nat with (S (length (rx w) + 4)) by lia.
    cbn [Utilities.wait_ready]. unfold bind at 1.
    rewrite (bind_ok _ _ _ _ _ (eq_refl : time_time w = (Ok (now w), w))).
    replace (now w - now w <? 10000) with true by (symmetry; apply Z.ltb_lt; lia).
    unfold bind. rewrite (read_closed _ _ _ Ho). discriminate.
Qed.

Lemma ends_flash self filename : ends (Utilities.flash self filename).
Proof.
  unfold Utilities.flash. fin_with ltac:(apply ends_wait; intros).
Qed.

Lemma ends_ele_update self new_version :
  ends (Utilities.ele_update self new_version).
Proof.
  unfold Utilities.ele_update.
  apply ends_bind; [apply ends_probe|]. intros [status name].
  repeat match goal with
         | |- ends (match ?x with _ => _ end) => destruct x
         | |- ends (if ?c then _ else _) => destruct c
         end;
    first [ apply ends_flash | fin ].
Qed.

(** X26. On a finite input the controller always ends.  Let the device
    deliver any finite stream of bytes, at any times, or none; let the
    port open or not; let the XMODEM library make any finite number of
    callbacks.  Then each of [probe], [restart], [flash] and
    [ele_update] comes to an end, by a return or by an exception.  The
    receivers, the Spinel version loop and the wait for the prompt end
    by their own deadlines and counters; [readline] has no deadline, and
    it is the end of the stream that ends it. *)
Theorem controller_always_ends
    (self : config) (w : world) (stream : list (Z * Z)) :
  fst (Utilities.probe self (set_rx stream w)) <> Hang /\
  (forall mode, fst (Utilities.restart self mode (set_rx stream w)) <> Hang) /\
  (forall filename,
    fst (Utilities.flash self filename (set_rx stream w)) <> Hang) /\
  (forall new_version,
    fst (Utilities.ele_update self new_version (set_rx stream w)) <> Hang).
Proof.
  split; [apply ends_probe|]. split; [intros; apply ends_restart|].
  split; intros; [apply ends_flash | apply ends_ele_update].
Qed.
